(** * A voice mixer: ring buffer, interframe gap history and mixing loop

    Shallow embedding of
    - [AudioRingBuffer.cpp] (the classes [InterframeTimeGapHistory] and
      [AudioRingBuffer]), and
    - [audio-mixer/src/main.cpp] (the eligibility pass, the per-listener
      mixing loop and the advance of the read cursors).

    Conventions.
    - Machine integers are [Z]; a conversion to a fixed width is written
      out ([int16], [int32], [uint32], [uint64]).
    - A pointer into a heap block is the offset, in samples, from the
      start of the block; the block itself is a [list Z].  Every access
      to a block is checked: a read or a write outside the block makes
      the operation return [None].
    - [float] computations are idealised as computations on real
      numbers; the conversion of a [float] to an integer type truncates
      toward zero ([truncR]).  The rounding of [float] operations, the
      values [sinf], [atan2f], [powf] and [logf] return, NaN and the
      infinities have no counterpart in this reading: what is proved of
      a [float] result is proved of its real reading, for positions,
      bearings and ratios that are numbers. *)

From Stdlib Require Import ZArith List Bool Lia Reals Lra.
Import ListNotations.

Local Open Scope Z_scope.

(** ** Fixed-width conversions *)

Definition int16 (z : Z) : Z := (z + 32768) mod 65536 - 32768.
Definition int32 (z : Z) : Z := (z + 2 ^ 31) mod 2 ^ 32 - 2 ^ 31.
Definition uint32 (z : Z) : Z := z mod 2 ^ 32.
Definition uint64 (z : Z) : Z := z mod 2 ^ 64.

(** [sizeof(int16_t)] *)
Definition SIZEOF_INT16 : Z := 2.

(** ** Checked accesses to a block of samples *)

Definition bind {A B : Type} (o : option A) (k : A -> option B) : option B :=
  match o with
  | Some a => k a
  | None => None
  end.

Notation "x <- e ;; k" := (bind e (fun x => k))
  (at level 61, e at next level, right associativity).
Notation "' p <- e ;; k" := (bind e (fun x => match x with p => k end))
  (at level 61, p pattern, e at next level, right associativity).

(** [n] samples of [mem] starting at offset [off]. *)
Definition load (mem : list Z) (off n : Z) : option (list Z) :=
  if (0 <=? off) && (0 <=? n) && (off + n <=? Z.of_nat (length mem))
  then Some (firstn (Z.to_nat n) (skipn (Z.to_nat off) mem))
  else None.

(** [mem] with the samples [src] written from offset [off] on. *)
Definition store (mem : list Z) (off : Z) (src : list Z) : option (list Z) :=
  let n := Z.of_nat (length src) in
  if (0 <=? off) && (off + n <=? Z.of_nat (length mem))
  then Some (firstn (Z.to_nat off) mem ++ src
             ++ skipn (Z.to_nat (off + n)) mem)
  else None.

(** [memcpy(dst + off, src, n * sizeof(int16_t))] *)
Definition memcpy (dst : list Z) (off : Z) (src : list Z) (n : Z)
  : option (list Z) :=
  chunk <- load src 0 n ;; store dst off chunk.

(** [memset(mem + off, 0, n * sizeof(int16_t))] *)
Definition memset0 (mem : list Z) (off n : Z) : option (list Z) :=
  if 0 <=? n then store mem off (repeat 0 (Z.to_nat n)) else None.

(** [mem[i]] as an rvalue and as an lvalue. *)
Definition peek (mem : list Z) (i : Z) : option Z :=
  if 0 <=? i then nth_error mem (Z.to_nat i) else None.

Definition poke (mem : list Z) (i : Z) (v : Z) : option (list Z) :=
  store mem i [v].

(** The block [new int16_t[n]] returns: [n] cells whose contents are
    whatever [junk] holds there (the memory is not initialised). *)
Definition new_int16 (n : Z) (junk : list Z) : list Z :=
  map (fun i => nth i junk 0) (seq 0 (Z.to_nat n)).

(** ** InterframeTimeGapHistory *)

Module GapHistory.

Record InterframeTimeGapHistory := mkHistory {
  _lastFrameReceivedTime : Z;        (* quint64 *)
  _numSamplesInCurrentInterval : Z;  (* int *)
  _currentIntervalMaxGap : Z;        (* quint64 *)
  _newestIntervalMaxGapAt : Z;       (* int *)
  _windowMaxGap : Z;                 (* quint64 *)
  _newWindowMaxGapAvailable : bool;
  _intervalMaxGaps : list Z          (* quint64 [TIME_GAP_NUM_INTERVALS_IN_WINDOW] *)
}.

Section Constants.

(** [TIME_GAP_NUM_SAMPLES_IN_INTERVAL] and
    [TIME_GAP_NUM_INTERVALS_IN_WINDOW] are declared in AudioRingBuffer.h,
    which is not among the sources: the class is embedded for any values
    of the two.  The spec gives one interval as 50 gaps and one window
    as 32 intervals. *)
Variables TIME_GAP_NUM_SAMPLES_IN_INTERVAL TIME_GAP_NUM_INTERVALS_IN_WINDOW : Z.

(** The constructor. *)
Definition InterframeTimeGapHistory_new : InterframeTimeGapHistory :=
  {| _lastFrameReceivedTime := 0;
     _numSamplesInCurrentInterval := 0;
     _currentIntervalMaxGap := 0;
     _newestIntervalMaxGapAt := 0;
     _windowMaxGap := 0;
     _newWindowMaxGapAvailable := false;
     _intervalMaxGaps := repeat 0 (Z.to_nat TIME_GAP_NUM_INTERVALS_IN_WINDOW) |}.

(** [a[i] = v] on an array; nothing is written outside of it. *)
Definition array_set (a : list Z) (i : Z) (v : Z) : list Z :=
  match poke a i v with
  | Some a' => a'
  | None => a
  end.

(** The loop of lines 61-66: the running maximum over [_intervalMaxGaps[i]]
    for [i] from [0] to [TIME_GAP_NUM_INTERVALS_IN_WINDOW - 1]. *)
Fixpoint windowScan (a : list Z) (n : nat) (i : Z) (windowMaxGap : Z) : Z :=
  match n with
  | O => windowMaxGap
  | S n' =>
      let g := nth (Z.to_nat i) a 0 in
      windowScan a n' (i + 1) (if g >? windowMaxGap then g else windowMaxGap)
  end.

(** [frameReceived()], with the value [usecTimestampNow()] returns as [now]. *)
Definition frameReceived (now : Z) (h : InterframeTimeGapHistory)
  : InterframeTimeGapHistory :=
  if negb (_lastFrameReceivedTime h =? 0) then
    let gap := uint64 (now - _lastFrameReceivedTime h) in
    let currentIntervalMaxGap :=
      if gap >? _currentIntervalMaxGap h then gap
      else _currentIntervalMaxGap h in
    let numSamplesInCurrentInterval := _numSamplesInCurrentInterval h + 1 in
    if numSamplesInCurrentInterval =? TIME_GAP_NUM_SAMPLES_IN_INTERVAL then
      let newestIntervalMaxGapAt :=
        if _newestIntervalMaxGapAt h =? TIME_GAP_NUM_INTERVALS_IN_WINDOW - 1
        then 0 else _newestIntervalMaxGapAt h + 1 in
      let intervalMaxGaps :=
        array_set (_intervalMaxGaps h) newestIntervalMaxGapAt
                  currentIntervalMaxGap in
      {| _lastFrameReceivedTime := now;
         _numSamplesInCurrentInterval := 0;
         _currentIntervalMaxGap := 0;
         _newestIntervalMaxGapAt := newestIntervalMaxGapAt;
         _windowMaxGap :=
           windowScan intervalMaxGaps
                      (Z.to_nat TIME_GAP_NUM_INTERVALS_IN_WINDOW) 0 0;
         _newWindowMaxGapAvailable := true;
         _intervalMaxGaps := intervalMaxGaps |}
    else
      {| _lastFrameReceivedTime := now;
         _numSamplesInCurrentInterval := numSamplesInCurrentInterval;
         _currentIntervalMaxGap := currentIntervalMaxGap;
         _newestIntervalMaxGapAt := _newestIntervalMaxGapAt h;
         _windowMaxGap := _windowMaxGap h;
         _newWindowMaxGapAvailable := _newWindowMaxGapAvailable h;
         _intervalMaxGaps := _intervalMaxGaps h |}
  else
    {| _lastFrameReceivedTime := now;
       _numSamplesInCurrentInterval := _numSamplesInCurrentInterval h;
       _currentIntervalMaxGap := _currentIntervalMaxGap h;
       _newestIntervalMaxGapAt := _newestIntervalMaxGapAt h;
       _windowMaxGap := _windowMaxGap h;
       _newWindowMaxGapAvailable := _newWindowMaxGapAvailable h;
       _intervalMaxGaps := _intervalMaxGaps h |}.

(** [getPastWindowMaxGap()]: the returned value and the history afterwards. *)
Definition getPastWindowMaxGap (h : InterframeTimeGapHistory)
  : Z * InterframeTimeGapHistory :=
  (_windowMaxGap h,
   {| _lastFrameReceivedTime := _lastFrameReceivedTime h;
      _numSamplesInCurrentInterval := _numSamplesInCurrentInterval h;
      _currentIntervalMaxGap := _currentIntervalMaxGap h;
      _newestIntervalMaxGapAt := _newestIntervalMaxGapAt h;
      _windowMaxGap := _windowMaxGap h;
      _newWindowMaxGapAvailable := false;
      _intervalMaxGaps := _intervalMaxGaps h |}).

(** The history after the frames that arrived at the times [ts], oldest
    first, on a history that starts as [h]. *)
Definition framesReceived (ts : list Z) (h : InterframeTimeGapHistory)
  : InterframeTimeGapHistory :=
  fold_left (fun h now => frameReceived now h) ts h.

(** A value [usecTimestampNow()] can return: microseconds since the
    epoch, in a [quint64]. *)
Definition timestamp (t : Z) : Prop := 0 < t < 2 ^ 64.

(** What holds of every history built by the constructor and changed by
    [frameReceived] and [getPastWindowMaxGap] only. *)
Record history_ok (h : InterframeTimeGapHistory) : Prop := {
  ok_count : 0 <= _numSamplesInCurrentInterval h
             < TIME_GAP_NUM_SAMPLES_IN_INTERVAL;
  ok_newest : 0 <= _newestIntervalMaxGapAt h
              < TIME_GAP_NUM_INTERVALS_IN_WINDOW;
  ok_length : Z.of_nat (length (_intervalMaxGaps h))
              = TIME_GAP_NUM_INTERVALS_IN_WINDOW;
  ok_gaps : Forall (fun g => 0 <= g) (_intervalMaxGaps h);
  ok_current : 0 <= _currentIntervalMaxGap h
}.

End Constants.

(** The gaps [frameReceived] computes for the arrivals [ts] that follow
    an arrival at [prev], oldest first. *)
Fixpoint gapsAfter (prev : Z) (ts : list Z) : list Z :=
  match ts with
  | [] => []
  | t :: ts' => uint64 (t - prev) :: gapsAfter t ts'
  end.

(** The largest of a list of gaps, 0 for none. *)
Definition maxGap (gaps : list Z) : Z := fold_right Z.max 0 gaps.

End GapHistory.

(** ** AudioRingBuffer *)

Module Ring.

(** The object.  [_buffer] is the heap block ([None]: the null pointer);
    [_nextOutput] and [_endOfLastWrite] are offsets from [_buffer].  The
    constructor makes the three pointers null together or not at all, and
    every later assignment keeps the cursors relative to [_buffer], so
    the null test on a cursor is the null test on [_buffer]. *)
Record AudioRingBuffer := mkRing {
  _sampleCapacity : Z;
  _numFrameSamples : Z;
  _isStarved : bool;
  _hasStarted : bool;
  _randomAccessMode : bool;
  _buffer : option (list Z);
  _nextOutput : Z;
  _endOfLastWrite : Z
}.

Definition set_buffer (mem : list Z) (b : AudioRingBuffer) : AudioRingBuffer :=
  {| _sampleCapacity := _sampleCapacity b;
     _numFrameSamples := _numFrameSamples b;
     _isStarved := _isStarved b;
     _hasStarted := _hasStarted b;
     _randomAccessMode := _randomAccessMode b;
     _buffer := Some mem;
     _nextOutput := _nextOutput b;
     _endOfLastWrite := _endOfLastWrite b |}.

Definition set_nextOutput (p : Z) (b : AudioRingBuffer) : AudioRingBuffer :=
  {| _sampleCapacity := _sampleCapacity b;
     _numFrameSamples := _numFrameSamples b;
     _isStarved := _isStarved b;
     _hasStarted := _hasStarted b;
     _randomAccessMode := _randomAccessMode b;
     _buffer := _buffer b;
     _nextOutput := p;
     _endOfLastWrite := _endOfLastWrite b |}.

Definition set_endOfLastWrite (p : Z) (b : AudioRingBuffer) : AudioRingBuffer :=
  {| _sampleCapacity := _sampleCapacity b;
     _numFrameSamples := _numFrameSamples b;
     _isStarved := _isStarved b;
     _hasStarted := _hasStarted b;
     _randomAccessMode := _randomAccessMode b;
     _buffer := _buffer b;
     _nextOutput := _nextOutput b;
     _endOfLastWrite := p |}.

(** Modelled from the spec: the accessors of [_hasStarted] are declared
    in AudioRingBuffer.h, which is not among the sources; the spec has
    the mixer set the flag when it first uses the buffer and clear it
    on a starvation. *)
Definition setHasStarted (v : bool) (b : AudioRingBuffer) : AudioRingBuffer :=
  {| _sampleCapacity := _sampleCapacity b;
     _numFrameSamples := _numFrameSamples b;
     _isStarved := _isStarved b;
     _hasStarted := v;
     _randomAccessMode := _randomAccessMode b;
     _buffer := _buffer b;
     _nextOutput := _nextOutput b;
     _endOfLastWrite := _endOfLastWrite b |}.

Section Constants.

(** [RING_BUFFER_LENGTH_FRAMES] is declared in AudioRingBuffer.h, which
    is not among the sources: the constructor is embedded for any value
    of it.  The spec sizes the store as
    [RING_FRAMES * SAMPLES_PER_FRAME] with [RING_FRAMES = 10]. *)
Variable RING_BUFFER_LENGTH_FRAMES : Z.

(** [AudioRingBuffer(numFrameSamples, randomAccessMode)]; [junk] is what
    the fresh block holds before anything is written to it. *)
Definition AudioRingBuffer_new (numFrameSamples : Z) (randomAccessMode : bool)
    (junk : list Z) : AudioRingBuffer :=
  let sampleCapacity := numFrameSamples * RING_BUFFER_LENGTH_FRAMES in
  {| _sampleCapacity := sampleCapacity;
     _numFrameSamples := numFrameSamples;
     _isStarved := true;
     _hasStarted := false;
     _randomAccessMode := randomAccessMode;
     _buffer :=
       if negb (numFrameSamples =? 0) then
         Some (if randomAccessMode
               then repeat 0 (Z.to_nat sampleCapacity)
               else new_int16 sampleCapacity junk)
       else None;
     _nextOutput := 0;
     _endOfLastWrite := 0 |}.

End Constants.

(** [reset()] *)
Definition reset (b : AudioRingBuffer) : AudioRingBuffer :=
  {| _sampleCapacity := _sampleCapacity b;
     _numFrameSamples := _numFrameSamples b;
     _isStarved := true;
     _hasStarted := _hasStarted b;
     _randomAccessMode := _randomAccessMode b;
     _buffer := _buffer b;
     _nextOutput := 0;
     _endOfLastWrite := 0 |}.

(** [shiftedPositionAccomodatingWrap(position, numSamplesShift)] *)
Definition shiftedPositionAccomodatingWrap (b : AudioRingBuffer)
    (position numSamplesShift : Z) : Z :=
  if (numSamplesShift >? 0)
     && (position + numSamplesShift >=? _sampleCapacity b)
  then position + numSamplesShift - _sampleCapacity b
  else if (numSamplesShift <? 0) && (position + numSamplesShift <? 0)
  then position + numSamplesShift + _sampleCapacity b
  else position + numSamplesShift.

(** [samplesAvailable()]: the difference of the cursors is an [int], the
    result an [unsigned int]. *)
Definition samplesAvailable (b : AudioRingBuffer) : Z :=
  match _buffer b with
  | None => 0
  | Some _ =>
      let sampleDifference := int32 (_endOfLastWrite b - _nextOutput b) in
      uint32 (if sampleDifference <? 0
              then int32 (sampleDifference + _sampleCapacity b)
              else sampleDifference)
  end.

(** [isNotStarvedOrHasMinimumSamples(numRequiredSamples)] *)
Definition isNotStarvedOrHasMinimumSamples (b : AudioRingBuffer)
    (numRequiredSamples : Z) : bool :=
  if negb (_isStarved b) then true
  else samplesAvailable b >=? numRequiredSamples.

(** [shiftReadPosition(numSamples)]: the [unsigned int] argument is
    passed on as an [int]. *)
Definition shiftReadPosition (numSamples : Z) (b : AudioRingBuffer)
  : AudioRingBuffer :=
  set_nextOutput
    (shiftedPositionAccomodatingWrap b (_nextOutput b) (int32 numSamples)) b.

(** [readData(data, maxSize)]: the number of bytes returned, the samples
    copied to [data], and the buffer afterwards. *)
Definition readData (maxSize : Z) (b : AudioRingBuffer)
  : option (Z * list Z * AudioRingBuffer) :=
  let requested := uint64 maxSize / SIZEOF_INT16 in
  let numReadSamples :=
    if _randomAccessMode b then
      int32 (match _buffer b with Some _ => requested | None => 0 end)
    else int32 (Z.min (uint32 requested) (samplesAvailable b)) in
  match _buffer b with
  | None =>
      (* every copy is from the null pointer: only a copy of no byte is
         without an access *)
      if numReadSamples =? 0 then Some (0, [], b) else None
  | Some mem =>
      ' (data, mem') <-
        (if _nextOutput b + numReadSamples >? _sampleCapacity b then
           let numSamplesToEnd := _sampleCapacity b - _nextOutput b in
           head <- load mem (_nextOutput b) numSamplesToEnd ;;
           mem1 <- (if _randomAccessMode b
                    then memset0 mem (_nextOutput b) numSamplesToEnd
                    else Some mem) ;;
           tail <- load mem1 0 (numReadSamples - numSamplesToEnd) ;;
           mem2 <- (if _randomAccessMode b
                    then memset0 mem1 0 (numReadSamples - numSamplesToEnd)
                    else Some mem1) ;;
           Some (head ++ tail, mem2)
         else
           chunk <- load mem (_nextOutput b) numReadSamples ;;
           mem1 <- (if _randomAccessMode b
                    then memset0 mem (_nextOutput b) numReadSamples
                    else Some mem) ;;
           Some (chunk, mem1)) ;;
      Some (numReadSamples * SIZEOF_INT16, data,
            set_nextOutput
              (shiftedPositionAccomodatingWrap b (_nextOutput b) numReadSamples)
              (set_buffer mem' b))
  end.

(** [readSamples(destination, maxSamples)] *)
Definition readSamples (maxSamples : Z) (b : AudioRingBuffer)
  : option (Z * list Z * AudioRingBuffer) :=
  readData (maxSamples * SIZEOF_INT16) b.

(** The test of lines 191-193 of [writeData]: the write of
    [samplesToCopy] samples is taken to cross the read cursor. *)
Definition writeCrossesNextOutput (b : AudioRingBuffer) (samplesToCopy : Z)
  : bool :=
  _hasStarted b
  && ((_endOfLastWrite b <? _nextOutput b)
      && (_nextOutput b
          <=? shiftedPositionAccomodatingWrap b (_endOfLastWrite b)
                                              samplesToCopy)).

(** The number of samples [writeData] copies for [maxSize] bytes. *)
Definition samplesToCopy (b : AudioRingBuffer) (maxSize : Z) : Z :=
  int32 (Z.min (uint64 maxSize / SIZEOF_INT16) (uint64 (_sampleCapacity b))).

(** [writeData(data, maxSize)], [data] given as the samples it points to:
    the number of bytes returned and the buffer afterwards. *)
Definition writeData (data : list Z) (maxSize : Z) (b : AudioRingBuffer)
  : option (Z * AudioRingBuffer) :=
  let samplesToCopy := samplesToCopy b maxSize in
  let b1 := if writeCrossesNextOutput b samplesToCopy then reset b else b in
  match _buffer b1 with
  | None => if samplesToCopy =? 0 then Some (0, b1) else None
  | Some mem =>
      mem' <-
        (if _endOfLastWrite b1 + samplesToCopy <=? _sampleCapacity b1 then
           memcpy mem (_endOfLastWrite b1) data samplesToCopy
         else
           let numSamplesToEnd := _sampleCapacity b1 - _endOfLastWrite b1 in
           mem1 <- memcpy mem (_endOfLastWrite b1) data numSamplesToEnd ;;
           rest <- load data numSamplesToEnd (samplesToCopy - numSamplesToEnd) ;;
           store mem1 0 rest) ;;
      Some (samplesToCopy * SIZEOF_INT16,
            set_endOfLastWrite
              (shiftedPositionAccomodatingWrap b1 (_endOfLastWrite b1)
                                               samplesToCopy)
              (set_buffer mem' b1))
  end.

(** [writeSamples(source, maxSamples)] *)
Definition writeSamples (source : list Z) (maxSamples : Z) (b : AudioRingBuffer)
  : option (Z * AudioRingBuffer) :=
  writeData source (maxSamples * SIZEOF_INT16) b.

(** [operator[](index)]: the sample at [index] from the read cursor. *)
Definition at_index (b : AudioRingBuffer) (index : Z) : option Z :=
  mem <- _buffer b ;;
  peek mem (shiftedPositionAccomodatingWrap b (_nextOutput b) index).

(** *** Runs of writes and reads *)

Inductive operation :=
| Write (samples : list Z)    (* [writeSamples(samples, length samples)] *)
| Read (maxSamples : Z).      (* [readSamples(destination, maxSamples)] *)

(** What a run has done so far: the buffer, the samples written and read
    in all (as the calls returned them), and whether a write found the
    crossing test true. *)
Record progress := mkProgress {
  ring : AudioRingBuffer;
  written : Z;
  consumed : Z;
  overflowed : bool
}.

Definition perform (p : progress) (o : operation) : option progress :=
  match o with
  | Write samples =>
      let n := Z.of_nat (length samples) in
      ' (bytes, b') <- writeSamples samples n (ring p) ;;
      Some {| ring := b';
              written := written p + bytes / SIZEOF_INT16;
              consumed := consumed p;
              overflowed :=
                overflowed p
                || writeCrossesNextOutput
                     (ring p) (samplesToCopy (ring p) (n * SIZEOF_INT16)) |}
  | Read maxSamples =>
      ' (bytes, _, b') <- readSamples maxSamples (ring p) ;;
      Some {| ring := b';
              written := written p;
              consumed := consumed p + bytes / SIZEOF_INT16;
              overflowed := overflowed p |}
  end.

Fixpoint run (ops : list operation) (p : progress) : option progress :=
  match ops with
  | [] => Some p
  | o :: ops' => p' <- perform p o ;; run ops' p'
  end.

(** The samples the writes of a run ask to write. *)
Fixpoint offered (ops : list operation) : Z :=
  match ops with
  | [] => 0
  | Write samples :: ops' => Z.of_nat (length samples) + offered ops'
  | Read _ :: ops' => offered ops'
  end.

Definition start (b : AudioRingBuffer) : progress :=
  {| ring := b; written := 0; consumed := 0; overflowed := false |}.

(** The cursors of an allocated buffer point into its block. *)
Record ring_ok (b : AudioRingBuffer) : Prop := {
  ok_capacity : 0 < _sampleCapacity b < 2 ^ 31;
  ok_block : exists mem, _buffer b = Some mem
                         /\ Z.of_nat (length mem) = _sampleCapacity b;
  ok_next : 0 <= _nextOutput b < _sampleCapacity b;
  ok_end : 0 <= _endOfLastWrite b < _sampleCapacity b
}.

(** The same without a word on the write cursor, which a read never
    looks at in random-access mode. *)
Record read_ok (b : AudioRingBuffer) : Prop := {
  rd_capacity : 0 < _sampleCapacity b < 2 ^ 31;
  rd_block : exists mem, _buffer b = Some mem
                         /\ Z.of_nat (length mem) = _sampleCapacity b;
  rd_next : 0 <= _nextOutput b < _sampleCapacity b
}.

(** What a run of writes and reads in normal mode keeps true, as long
    as no more than the capacity has been written in all: the cursors
    are the totals modulo the capacity. *)
Record accounted (capacity : Z) (p : progress) : Prop := {
  acc_capacity : _sampleCapacity (ring p) = capacity;
  acc_block : exists mem, _buffer (ring p) = Some mem
                          /\ Z.of_nat (length mem) = capacity;
  acc_mode : _randomAccessMode (ring p) = false;
  acc_totals : 0 <= consumed p <= written p /\ written p <= capacity;
  acc_next : _nextOutput (ring p) = consumed p mod capacity;
  acc_end : _endOfLastWrite (ring p) = written p mod capacity;
  acc_overflowed : overflowed p = false
}.

(** *** The remaining members *)

(** [addSilentFrame(numSilentSamples)] *)
Definition addSilentFrame (numSilentSamples : Z) (b : AudioRingBuffer)
  : option AudioRingBuffer :=
  match _buffer b with
  | None => if numSilentSamples =? 0 then Some b else None
  | Some mem =>
      if _endOfLastWrite b + numSilentSamples <=? _sampleCapacity b then
        mem' <- memset0 mem (_endOfLastWrite b) numSilentSamples ;;
        Some (set_endOfLastWrite (_endOfLastWrite b + numSilentSamples)
                                 (set_buffer mem' b))
      else
        let numSamplesToEnd := _sampleCapacity b - _endOfLastWrite b in
        mem1 <- memset0 mem (_endOfLastWrite b) numSamplesToEnd ;;
        mem2 <- memset0 mem1 0 (numSilentSamples - numSamplesToEnd) ;;
        Some (set_endOfLastWrite (numSilentSamples - numSamplesToEnd)
                                 (set_buffer mem2 b))
  end.

(** [parseData(packet)], with the value [numBytesForPacketHeader(packet)]
    returns as [numBytesPacketHeader] (PacketHeaders.h is not among the
    sources), [packetSize] for [packet.size()], and the packet's bytes
    after the header given as the samples [payload] they hold. *)
Definition parseData (numBytesPacketHeader : Z) (payload : list Z)
    (packetSize : Z) (b : AudioRingBuffer) : option (Z * AudioRingBuffer) :=
  ' (bytes, b') <- writeData payload (packetSize - numBytesPacketHeader) b ;;
  Some (int32 bytes, b').

Section Resize.

Variable RING_BUFFER_LENGTH_FRAMES : Z.

(** [resizeForFrameSize(numFrameSamples)]; [junk] is what the fresh block
    holds before anything is written to it.  The product is a [qint64],
    [_sampleCapacity] an [int]. *)
Definition resizeForFrameSize (numFrameSamples : Z) (junk : list Z)
    (b : AudioRingBuffer) : AudioRingBuffer :=
  let sampleCapacity := int32 (numFrameSamples * RING_BUFFER_LENGTH_FRAMES) in
  {| _sampleCapacity := sampleCapacity;
     _numFrameSamples := _numFrameSamples b;
     _isStarved := _isStarved b;
     _hasStarted := _hasStarted b;
     _randomAccessMode := _randomAccessMode b;
     _buffer := Some (if _randomAccessMode b
                      then repeat 0 (Z.to_nat sampleCapacity)
                      else new_int16 sampleCapacity junk);
     _nextOutput := 0;
     _endOfLastWrite := 0 |}.

End Resize.

(** The cell of the block that is [i] samples after the read cursor,
    around the ring. *)
Definition cell (b : AudioRingBuffer) (mem : list Z) (i : Z) : Z :=
  nth (Z.to_nat ((_nextOutput b + i) mod _sampleCapacity b)) mem 0.

(** The samples a buffer holds for its reader: the [samplesAvailable]
    cells from the read cursor on, oldest first. *)
Definition unread (b : AudioRingBuffer) : list Z :=
  match _buffer b with
  | None => []
  | Some mem =>
      map (fun i => cell b mem (Z.of_nat i))
          (seq 0 (Z.to_nat (samplesAvailable b)))
  end.

End Ring.

(** ** The mixer (main.cpp) *)

Module Mixer.

(** *** Conversions between [float] and integers *)

(** A [float] converted to an integer type: the fraction is dropped. *)
Definition truncR (x : R) : Z :=
  if Rle_dec 0 x then Int_part x else - Int_part (- x).

(** *** Constants *)

Definition SAMPLE_RATE : Z := 22050.

Definition JITTER_BUFFER_MSECS : Z := 12.
(** [JITTER_BUFFER_MSECS * (SAMPLE_RATE / 1000.0)] stored in a [short]:
    264.6 without its fraction. *)
Definition JITTER_BUFFER_SAMPLES : Z :=
  int16 (Z.quot (JITTER_BUFFER_MSECS * SAMPLE_RATE) 1000).

Definition BUFFER_LENGTH_BYTES : Z := 1024.
Definition BUFFER_LENGTH_SAMPLES_PER_CHANNEL : Z :=
  (BUFFER_LENGTH_BYTES / 2) / SIZEOF_INT16.

Definition RING_BUFFER_FRAMES : Z := 10.
Definition RING_BUFFER_SAMPLES : Z :=
  int16 (RING_BUFFER_FRAMES * BUFFER_LENGTH_SAMPLES_PER_CHANNEL).

Definition MAX_SAMPLE_VALUE : Z := 32767.
Definition MIN_SAMPLE_VALUE : Z := -32768.

Definition DISTANCE_RATIO : R := (3 / (3 / 10))%R.
Definition PHASE_AMPLITUDE_RATIO_AT_90 : R := (1 / 2)%R.
Definition PHASE_DELAY_AT_90 : Z := 20.

Definition MAX_OFF_AXIS_ATTENUATION : R := (2 / 10)%R.
Definition OFF_AXIS_ATTENUATION_FORMULA_STEP : R :=
  ((1 - MAX_OFF_AXIS_ATTENUATION) / 2)%R.

(** *** plateauAdditionOfSamples *)

(** The value [mixSample] holds after
    [plateauAdditionOfSamples(mixSample, sampleToAdd)].  The minimum with
    [MAX_SAMPLE_VALUE] is computed and then overwritten, as in the
    source; the [long] result is stored in an [int16_t]. *)
Definition plateauAdditionOfSamples (mixSample sampleToAdd : Z) : Z :=
  let sumSample := sampleToAdd + mixSample in
  let normalizedSample := Z.min MAX_SAMPLE_VALUE sumSample in
  let normalizedSample := Z.max MIN_SAMPLE_VALUE sumSample in
  int16 normalizedSample.

(** What the spec asks of the addition: the sum kept between the two
    bounds. *)
Definition clamp16 (v : Z) : Z :=
  Z.max MIN_SAMPLE_VALUE (Z.min MAX_SAMPLE_VALUE v).

(** *** The agents and their buffers, as main.cpp uses them *)

Record vec3 := mkVec3 { vec_x : R; vec_y : R; vec_z : R }.

(** The ring buffer behind [agent->getLinkedData()], by the accessors
    main.cpp calls on it.  [buffer] is the block of [RING_BUFFER_SAMPLES]
    samples, [nextOutput] an offset from it, [endOfLastWrite] the null
    pointer ([None]) until the first packet is written. *)
Record AudioRingBuffer := mkBuffer {
  buffer : list Z;
  nextOutput : Z;
  endOfLastWrite : option Z;
  started : bool;
  shouldBeAddedToMix : bool;
  shouldLoopbackForAgent : bool;
  position : vec3;
  bearing : R;
  attenuationRatio : R
}.

Definition setStarted (v : bool) (b : AudioRingBuffer) : AudioRingBuffer :=
  {| buffer := buffer b; nextOutput := nextOutput b;
     endOfLastWrite := endOfLastWrite b; started := v;
     shouldBeAddedToMix := shouldBeAddedToMix b;
     shouldLoopbackForAgent := shouldLoopbackForAgent b;
     position := position b; bearing := bearing b;
     attenuationRatio := attenuationRatio b |}.

Definition setShouldBeAddedToMix (v : bool) (b : AudioRingBuffer)
  : AudioRingBuffer :=
  {| buffer := buffer b; nextOutput := nextOutput b;
     endOfLastWrite := endOfLastWrite b; started := started b;
     shouldBeAddedToMix := v;
     shouldLoopbackForAgent := shouldLoopbackForAgent b;
     position := position b; bearing := bearing b;
     attenuationRatio := attenuationRatio b |}.

Definition setNextOutput (p : Z) (b : AudioRingBuffer) : AudioRingBuffer :=
  {| buffer := buffer b; nextOutput := p;
     endOfLastWrite := endOfLastWrite b; started := started b;
     shouldBeAddedToMix := shouldBeAddedToMix b;
     shouldLoopbackForAgent := shouldLoopbackForAgent b;
     position := position b; bearing := bearing b;
     attenuationRatio := attenuationRatio b |}.

(** Modelled from the spec: [diffLastWriteNextOutput()] is a member of
    the ring buffer main.cpp is written against and is not among the
    sources; the spec gives it as the current [available], the distance
    from the read cursor to the write cursor modulo the capacity, and 0
    on a buffer never written. *)
Definition diffLastWriteNextOutput (b : AudioRingBuffer) : Z :=
  match endOfLastWrite b with
  | None => 0
  | Some e =>
      let sampleDifference := e - nextOutput b in
      if sampleDifference <? 0
      then sampleDifference + RING_BUFFER_SAMPLES
      else sampleDifference
  end.

Inductive AgentType := AGENT_TYPE_AVATAR | AGENT_TYPE_AUDIO_INJECTOR.

(** An agent of the list; every agent has its buffer attached
    ([attachNewBufferToAgent] is the list's creation callback). *)
Record Agent := mkAgent {
  agentType : AgentType;
  agentID : Z;
  linkedData : AudioRingBuffer
}.

Definition withLinkedData (a : Agent) (b : AudioRingBuffer) : Agent :=
  {| agentType := agentType a; agentID := agentID a; linkedData := b |}.

(** *** The eligibility pass (lines 111-129) *)

Definition checkBuffer (agentBuffer : AudioRingBuffer) : AudioRingBuffer :=
  match endOfLastWrite agentBuffer with
  | Some _ =>
      if negb (started agentBuffer)
         && (diffLastWriteNextOutput agentBuffer
             <=? BUFFER_LENGTH_SAMPLES_PER_CHANNEL + JITTER_BUFFER_SAMPLES)
      then setShouldBeAddedToMix false agentBuffer
      else if diffLastWriteNextOutput agentBuffer
              <? BUFFER_LENGTH_SAMPLES_PER_CHANNEL
      then setShouldBeAddedToMix false (setStarted false agentBuffer)
      else setShouldBeAddedToMix true (setStarted true agentBuffer)
  | None => agentBuffer
  end.

Definition checkAgents (agents : list Agent) : list Agent :=
  map (fun a => withLinkedData a (checkBuffer (linkedData a))) agents.

(** *** Spatialisation (lines 153-224) *)

Local Open Scope R_scope.

(** [atan2f] on two arguments that are not negative. *)
Definition atan2f (y x : R) : R :=
  if Req_dec_T x 0 then (if Req_dec_T y 0 then 0 else PI / 2)
  else atan (y / x).

(** [powf(0.5, logf(DISTANCE_RATIO * d) / logf(3) - 1)] kept under 1. *)
Definition minCoefficient (distanceToAgent : R) : R :=
  Rmin 1 (Rpower (1 / 2)
                 (ln (DISTANCE_RATIO * distanceToAgent) / ln 3 - 1)).

Definition distanceToAgent (agentPosition otherAgentPosition : vec3) : R :=
  sqrt ((vec_x agentPosition - vec_x otherAgentPosition) ^ 2
        + (vec_y agentPosition - vec_y otherAgentPosition) ^ 2
        + (vec_z agentPosition - vec_z otherAgentPosition) ^ 2).

(** An angle in degrees brought back by one turn (lines 198-202). *)
Definition wrapDegrees (a : R) : R :=
  if Rlt_dec 180 a then a - 360
  else if Rlt_dec a (-180) then a + 360
  else a.

Definition absoluteAngleToSource (agentPosition otherAgentPosition : vec3) : R :=
  let triangleAngle :=
    atan2f (Rabs (vec_z agentPosition - vec_z otherAgentPosition))
           (Rabs (vec_x agentPosition - vec_x otherAgentPosition))
    * (180 / PI) in
  if Rlt_dec (vec_x agentPosition) (vec_x otherAgentPosition) then
    if Rlt_dec (vec_z agentPosition) (vec_z otherAgentPosition)
    then -90 + triangleAngle else -90 - triangleAngle
  else
    if Rlt_dec (vec_z agentPosition) (vec_z otherAgentPosition)
    then 90 - triangleAngle else 90 + triangleAngle.

(** [sinRatio] for a relative bearing given in degrees (lines 219-221),
    in its real reading: the code has the [float] that [sinf] returns
    for the angle in radians, rounded to a [float]. *)
Definition sinRatio (bearingRelativeAngleToSource : R) : R :=
  Rabs (sin (bearingRelativeAngleToSource * (PI / 180))).

(** [numSamplesDelay = PHASE_DELAY_AT_90 * sinRatio] (line 222): the
    product is a [float], the variable an [int].  In its real reading:
    the [float] product is rounded before it is truncated, so that the
    code's delay can be one more than this one where the real product is
    just under an integer, and the conversion is undefined for a
    [sinRatio] that is NaN. *)
Definition numSamplesDelay (bearingRelativeAngleToSource : R) : Z :=
  truncR (IZR PHASE_DELAY_AT_90 * sinRatio bearingRelativeAngleToSource).

(** [weakChannelAmplitudeRatio] (line 223), in its real reading: the
    code has the [float] difference, which is rounded. *)
Definition weakChannelAmplitudeRatio (bearingRelativeAngleToSource : R) : R :=
  1 - PHASE_AMPLITUDE_RATIO_AT_90 * sinRatio bearingRelativeAngleToSource.

Definition offAxisCoefficient (angleOfDelivery : R) : R :=
  MAX_OFF_AXIS_ATTENUATION
  + OFF_AXIS_ATTENUATION_FORMULA_STEP * (Rabs angleOfDelivery / 90).

(** The table [distanceCoefficients], zeroed at the start of a frame. *)
Definition Coefficients := nat -> nat -> R.

Definition noCoefficients : Coefficients := fun _ _ => 0.

Definition setCoefficient (c : Coefficients) (low high : nat) (v : R)
  : Coefficients :=
  fun i j => if (Nat.eqb i low && Nat.eqb j high)%bool then v else c i j.

(** What the mixing loop needs of a source. *)
Record Spatial := mkSpatial {
  bearingRelativeAngleToSource : R;   (* radians once computed *)
  attenuationCoefficient : R;
  samplesDelay : Z;
  weakRatio : R
}.

(** Lines 148-151: the values for an agent's own buffer. *)
Definition ownSpatial : Spatial :=
  {| bearingRelativeAngleToSource := 0;
     attenuationCoefficient := 1;
     samplesDelay := 0;
     weakRatio := 1 |}.

(** Lines 153-224, for a listener [agent] and a source [otherAgent] at
    the indices [agentIndex] and [otherAgentIndex] of the list. *)
Definition spatialise (c : Coefficients) (agentIndex otherAgentIndex : nat)
    (agentRingBuffer otherAgentBuffer : AudioRingBuffer)
  : Coefficients * Spatial :=
  let agentPosition := position agentRingBuffer in
  let otherAgentPosition := position otherAgentBuffer in
  let lowAgentIndex := Nat.min agentIndex otherAgentIndex in
  let highAgentIndex := Nat.max agentIndex otherAgentIndex in
  let c' :=
    if Req_dec_T (c lowAgentIndex highAgentIndex) 0
    then setCoefficient c lowAgentIndex highAgentIndex
           (minCoefficient (distanceToAgent agentPosition otherAgentPosition))
    else c in
  let absolute := absoluteAngleToSource agentPosition otherAgentPosition in
  let relative := wrapDegrees (absolute - bearing agentRingBuffer) in
  let angleOfDelivery := wrapDegrees (absolute - bearing otherAgentBuffer) in
  (c',
   {| bearingRelativeAngleToSource := relative * (PI / 180);
      attenuationCoefficient :=
        c' lowAgentIndex highAgentIndex
        * attenuationRatio otherAgentBuffer
        * offAxisCoefficient angleOfDelivery;
      samplesDelay := numSamplesDelay relative;
      weakRatio := weakChannelAmplitudeRatio relative |}).

Local Close Scope R_scope.

(** *** The sample loop (lines 226-252) *)

(** [delaySamplePointer] (lines 233-235), as an offset into the source's
    block. *)
Definition delaySamplePointer (otherAgentBuffer : AudioRingBuffer)
    (numSamplesDelay : Z) : Z :=
  if nextOutput otherAgentBuffer =? 0
  then RING_BUFFER_SAMPLES - numSamplesDelay
  else nextOutput otherAgentBuffer - numSamplesDelay.

(** A sample scaled by a [float] and stored in an [int] or [int16_t]. *)
Definition scaled (sample : Z) (ratio : R) : Z :=
  truncR (IZR sample * ratio).

(** [plateauAdditionOfSamples(channel[i], sampleToAdd)] on the client's
    samples, [channel] being an offset into them. *)
Definition plateauInto (clientSamples : list Z) (i : Z) (sampleToAdd : Z)
  : option (list Z) :=
  mixSample <- peek clientSamples i ;;
  poke clientSamples i (plateauAdditionOfSamples mixSample sampleToAdd).

(** One turn of the loop of lines 237-252. *)
Definition mixOneSample (otherAgentBuffer : AudioRingBuffer) (sp : Spatial)
    (goodChannel delayedChannel : Z) (s : Z) (clientSamples : list Z)
  : option (list Z) :=
  let numSamplesDelay := samplesDelay sp in
  clientSamples1 <-
    (if s <? numSamplesDelay then
       early <- peek (buffer otherAgentBuffer)
                     (delaySamplePointer otherAgentBuffer numSamplesDelay + s) ;;
       let earlierSample := int32 (scaled early (attenuationCoefficient sp)) in
       plateauInto clientSamples (delayedChannel + s)
                   (int16 (scaled earlierSample (weakRatio sp)))
     else Some clientSamples) ;;
  current <- peek (buffer otherAgentBuffer) (nextOutput otherAgentBuffer + s) ;;
  let currentSample := int16 (scaled current (attenuationCoefficient sp)) in
  clientSamples2 <- plateauInto clientSamples1 (goodChannel + s) currentSample ;;
  if s + numSamplesDelay <? BUFFER_LENGTH_SAMPLES_PER_CHANNEL then
    plateauInto clientSamples2 (delayedChannel + (s + numSamplesDelay))
                (int16 (scaled currentSample (weakRatio sp)))
  else Some clientSamples2.

(** The loop itself: [n] turns from [s] on. *)
Fixpoint mixSamples (otherAgentBuffer : AudioRingBuffer) (sp : Spatial)
    (goodChannel delayedChannel : Z) (n : nat) (s : Z) (clientSamples : list Z)
  : option (list Z) :=
  match n with
  | O => Some clientSamples
  | S n' =>
      clientSamples' <- mixOneSample otherAgentBuffer sp goodChannel
                                     delayedChannel s clientSamples ;;
      mixSamples otherAgentBuffer sp goodChannel delayedChannel n' (s + 1)
                 clientSamples'
  end.

(** Lines 226-252 for one source. *)
Definition mixSource (otherAgentBuffer : AudioRingBuffer) (sp : Spatial)
    (clientSamples : list Z) : option (list Z) :=
  let right := if Rlt_dec 0 (bearingRelativeAngleToSource sp) then true
               else false in
  let goodChannel :=
    if right then BUFFER_LENGTH_SAMPLES_PER_CHANNEL else 0 in
  let delayedChannel :=
    if right then 0 else BUFFER_LENGTH_SAMPLES_PER_CHANNEL in
  mixSamples otherAgentBuffer sp goodChannel delayedChannel
             (Z.to_nat BUFFER_LENGTH_SAMPLES_PER_CHANNEL) 0 clientSamples.

(** The samples the turn [s] of the loop adds to the client's samples:
    [currentSample], what is added with it to the delayed channel, and
    what is added for [earlierSample]. *)
Definition currentSample (otherAgentBuffer : AudioRingBuffer) (sp : Spatial)
    (s : Z) : Z :=
  int16 (scaled (nth (Z.to_nat (nextOutput otherAgentBuffer + s))
                     (buffer otherAgentBuffer) 0)
                (attenuationCoefficient sp)).

Definition weakCurrentSample (otherAgentBuffer : AudioRingBuffer)
    (sp : Spatial) (s : Z) : Z :=
  int16 (scaled (currentSample otherAgentBuffer sp s) (weakRatio sp)).

Definition weakEarlierSample (otherAgentBuffer : AudioRingBuffer)
    (sp : Spatial) (s : Z) : Z :=
  let earlierSample :=
    int32 (scaled (nth (Z.to_nat (delaySamplePointer otherAgentBuffer
                                    (samplesDelay sp) + s))
                       (buffer otherAgentBuffer) 0)
                  (attenuationCoefficient sp)) in
  int16 (scaled earlierSample (weakRatio sp)).

(** The client's sample at [j] after the turns [s] to [t - 1] of the
    loop, from the samples [clientSamples] before them: a turn [k] adds
    [currentSample] to the sample [k] of the good channel and, made
    weaker, to the sample [k + numSamplesDelay] of the delayed channel if
    there is one; the turns before [numSamplesDelay] add the earlier
    samples to the first samples of the delayed channel. *)
Definition afterTurns (otherAgentBuffer : AudioRingBuffer) (sp : Spatial)
    (goodChannel delayedChannel : Z) (s t : Z) (clientSamples : list Z)
    (j : Z) : Z :=
  let d := samplesDelay sp in
  let old := nth (Z.to_nat j) clientSamples 0 in
  let k := j - goodChannel in
  let l := j - delayedChannel in
  if (s <=? k) && (k <? t) && (k <? BUFFER_LENGTH_SAMPLES_PER_CHANNEL)
  then plateauAdditionOfSamples old (currentSample otherAgentBuffer sp k)
  else if (s <=? l) && (l <? t) && (l <? d)
  then plateauAdditionOfSamples old (weakEarlierSample otherAgentBuffer sp l)
  else if (s <=? l - d) && (l - d <? t)
          && (l <? BUFFER_LENGTH_SAMPLES_PER_CHANNEL)
  then plateauAdditionOfSamples old
         (weakCurrentSample otherAgentBuffer sp (l - d))
  else old.

(** *** The loop over the sources for one listener (lines 142-255) *)

(** The body of the loop for the source at [otherAgentIndex]. *)
Definition mixOther (agentIndex : nat) (agentRingBuffer : AudioRingBuffer)
    (otherAgentIndex : nat) (otherAgent : Agent)
    (state : Coefficients * list Z) : option (Coefficients * list Z) :=
  let '(c, clientSamples) := state in
  let same := Nat.eqb otherAgentIndex agentIndex in
  if negb same || (same && shouldLoopbackForAgent agentRingBuffer) then
    let otherAgentBuffer := linkedData otherAgent in
    if shouldBeAddedToMix otherAgentBuffer then
      let '(c', sp) :=
        if negb same
        then spatialise c agentIndex otherAgentIndex agentRingBuffer
                        otherAgentBuffer
        else (c, ownSpatial) in
      clientSamples' <- mixSource otherAgentBuffer sp clientSamples ;;
      Some (c', clientSamples')
    else Some state
  else Some state.

Fixpoint mixOthers (agentIndex : nat) (agentRingBuffer : AudioRingBuffer)
    (otherAgentIndex : nat) (others : list Agent)
    (state : Coefficients * list Z) : option (Coefficients * list Z) :=
  match others with
  | [] => Some state
  | otherAgent :: rest =>
      state' <- mixOther agentIndex agentRingBuffer otherAgentIndex
                         otherAgent state ;;
      mixOthers agentIndex agentRingBuffer (S otherAgentIndex) rest state'
  end.

(** [clientSamples] after [memset(clientSamples, 0, sizeof(clientSamples))]. *)
Definition silence : list Z :=
  repeat 0 (Z.to_nat (BUFFER_LENGTH_SAMPLES_PER_CHANNEL * 2)).

(** Lines 137-257 for the listener at [agentIndex]: the table of
    coefficients afterwards and the samples copied into its packet. *)
Definition mixForAgent (agents : list Agent) (c : Coefficients)
    (agentIndex : nat) (agent : Agent) : option (Coefficients * list Z) :=
  mixOthers agentIndex (linkedData agent) 0 agents (c, silence).

(** Lines 135-260: the packets sent in one frame, each with the index of
    the agent it goes to. *)
Fixpoint mixListeners (agents : list Agent) (c : Coefficients)
    (agentIndex : nat) (listeners : list Agent)
  : option (list (nat * list Z)) :=
  match listeners with
  | [] => Some []
  | agent :: rest =>
      match agentType agent with
      | AGENT_TYPE_AVATAR =>
          ' (c', clientSamples) <- mixForAgent agents c agentIndex agent ;;
          packets <- mixListeners agents c' (S agentIndex) rest ;;
          Some ((agentIndex, clientSamples) :: packets)
      | _ => mixListeners agents c (S agentIndex) rest
      end
  end.

(** The indices of the avatars of a list whose first agent has the
    index [agentIndex]: the agents a packet is sent to. *)
Fixpoint avatarIndices (agentIndex : nat) (agents : list Agent) : list nat :=
  match agents with
  | [] => []
  | agent :: rest =>
      match agentType agent with
      | AGENT_TYPE_AVATAR => agentIndex :: avatarIndices (S agentIndex) rest
      | _ => avatarIndices (S agentIndex) rest
      end
  end.

(** *** The advance of the read cursors (lines 263-274) *)

Definition advancedNextOutput (p : Z) : Z :=
  let p' := p + BUFFER_LENGTH_SAMPLES_PER_CHANNEL in
  if p' >=? RING_BUFFER_SAMPLES then 0 else p'.

Definition advanceBuffer (agentBuffer : AudioRingBuffer) : AudioRingBuffer :=
  if shouldBeAddedToMix agentBuffer then
    setShouldBeAddedToMix false
      (setNextOutput (advancedNextOutput (nextOutput agentBuffer)) agentBuffer)
  else agentBuffer.

Definition advanceAgents (agents : list Agent) : list Agent :=
  map (fun a => withLinkedData a (advanceBuffer (linkedData a))) agents.

(** One turn of the [while (true)] loop up to the receipt of new
    packets: the packets sent and the agents afterwards. *)
Definition mixFrame (agents : list Agent)
  : option (list (nat * list Z) * list Agent) :=
  let checked := checkAgents agents in
  packets <- mixListeners checked noCoefficients 0 checked ;;
  Some (packets, advanceAgents checked).

(** The positions the read cursor of a buffer takes in the loop: the
    start of the block, where the constructor and every reset put it,
    and what the advance makes of such a position. *)
Inductive cursorReachable : Z -> Prop :=
| reach_origin : cursorReachable 0
| reach_advance p : cursorReachable p -> cursorReachable (advancedNextOutput p).

(** What the loop keeps true of the buffer of an agent: its block has
    [RING_BUFFER_SAMPLES] samples and its read cursor is at one of these
    positions. *)
Definition buffer_ok (agent : Agent) : Prop :=
  Z.of_nat (length (buffer (linkedData agent))) = RING_BUFFER_SAMPLES
  /\ cursorReachable (nextOutput (linkedData agent)).

End Mixer.

(** * Properties *)

Import GapHistory Ring Mixer.

(** ** Fixed-width conversions of values in range *)

Lemma int16_in_range (z : Z) : -32768 <= z <= 32767 -> int16 z = z.
Proof.
  intros Hz. unfold int16.
  rewrite Z.mod_small; lia.
Qed.

Lemma int32_in_range (z : Z) : - 2 ^ 31 <= z < 2 ^ 31 -> int32 z = z.
Proof.
  intros Hz. unfold int32.
  rewrite Z.mod_small; lia.
Qed.

Lemma uint32_in_range (z : Z) : 0 <= z < 2 ^ 32 -> uint32 z = z.
Proof. intros Hz. unfold uint32. now rewrite Z.mod_small. Qed.

Lemma uint64_in_range (z : Z) : 0 <= z < 2 ^ 64 -> uint64 z = z.
Proof. intros Hz. unfold uint64. now rewrite Z.mod_small. Qed.

Lemma uint32_bounds (z : Z) : 0 <= uint32 z < 2 ^ 32.
Proof. unfold uint32. apply Z.mod_pos_bound. lia. Qed.

Lemma uint64_bounds (z : Z) : 0 <= uint64 z < 2 ^ 64.
Proof. unfold uint64. apply Z.mod_pos_bound. lia. Qed.

(** ** Checked accesses *)

Lemma load_inside (mem : list Z) (off n : Z) :
  0 <= off -> 0 <= n -> off + n <= Z.of_nat (length mem) ->
  load mem off n = Some (firstn (Z.to_nat n) (skipn (Z.to_nat off) mem)).
Proof.
  intros Hoff Hn Hlen. unfold load.
  replace (0 <=? off) with true by (symmetry; apply Z.leb_le; lia).
  replace (0 <=? n) with true by (symmetry; apply Z.leb_le; lia).
  replace (off + n <=? Z.of_nat (length mem)) with true
    by (symmetry; apply Z.leb_le; lia).
  reflexivity.
Qed.

Lemma load_length (mem chunk : list Z) (off n : Z) :
  load mem off n = Some chunk -> Z.of_nat (length chunk) = n.
Proof.
  unfold load.
  destruct (0 <=? off) eqn:Hoff; [|discriminate].
  destruct (0 <=? n) eqn:Hn; [|discriminate].
  destruct (off + n <=? Z.of_nat (length mem)) eqn:Hlen; [|discriminate].
  simpl. intros [= <-].
  apply Z.leb_le in Hoff, Hn, Hlen.
  rewrite length_firstn, length_skipn. lia.
Qed.

Lemma load_all (mem : list Z) :
  load mem 0 (Z.of_nat (length mem)) = Some mem.
Proof.
  rewrite load_inside by lia.
  rewrite Nat2Z.id. simpl. now rewrite firstn_all.
Qed.

Lemma store_inside (mem src : list Z) (off : Z) :
  0 <= off -> off + Z.of_nat (length src) <= Z.of_nat (length mem) ->
  store mem off src
  = Some (firstn (Z.to_nat off) mem ++ src
          ++ skipn (Z.to_nat (off + Z.of_nat (length src))) mem).
Proof.
  intros Hoff Hlen. unfold store.
  replace (0 <=? off) with true by (symmetry; apply Z.leb_le; lia).
  replace (off + Z.of_nat (length src) <=? Z.of_nat (length mem)) with true
    by (symmetry; apply Z.leb_le; lia).
  reflexivity.
Qed.

Lemma store_length (mem mem' src : list Z) (off : Z) :
  store mem off src = Some mem' -> length mem' = length mem.
Proof.
  unfold store.
  destruct (0 <=? off) eqn:Hoff; [|discriminate].
  destruct (off + Z.of_nat (length src) <=? Z.of_nat (length mem)) eqn:Hlen;
    [|discriminate].
  simpl. intros [= <-].
  apply Z.leb_le in Hoff, Hlen.
  rewrite !length_app, length_firstn, length_skipn. lia.
Qed.

(** The sample at [i] after a store: the stored one inside the written
    range, the old one outside. *)
Lemma store_nth (mem mem' src : list Z) (off : Z) (i : nat) :
  store mem off src = Some mem' ->
  nth i mem' 0
  = if (off <=? Z.of_nat i) && (Z.of_nat i <? off + Z.of_nat (length src))
    then nth (i - Z.to_nat off) src 0
    else nth i mem 0.
Proof.
  unfold store.
  destruct (0 <=? off) eqn:Hoff; [|discriminate].
  destruct (off + Z.of_nat (length src) <=? Z.of_nat (length mem)) eqn:Hlen;
    [|discriminate].
  simpl. intros [= <-].
  apply Z.leb_le in Hoff, Hlen.
  assert (Hfirst : length (firstn (Z.to_nat off) mem) = Z.to_nat off)
    by (rewrite length_firstn; lia).
  destruct (off <=? Z.of_nat i) eqn:Hlo; simpl.
  - apply Z.leb_le in Hlo.
    rewrite app_nth2 by lia. rewrite Hfirst.
    destruct (Z.of_nat i <? off + Z.of_nat (length src)) eqn:Hhi.
    + apply Z.ltb_lt in Hhi. rewrite app_nth1 by lia. reflexivity.
    + apply Z.ltb_ge in Hhi. rewrite app_nth2 by lia.
      rewrite nth_skipn. f_equal. lia.
  - apply Z.leb_gt in Hlo.
    rewrite app_nth1 by lia.
    rewrite nth_firstn.
    replace (i <? Z.to_nat off)%nat with true
      by (symmetry; apply Nat.ltb_lt; lia).
    reflexivity.
Qed.

Lemma peek_inside (mem : list Z) (i : Z) :
  0 <= i < Z.of_nat (length mem) ->
  peek mem i = Some (nth (Z.to_nat i) mem 0).
Proof.
  intros Hi. unfold peek.
  replace (0 <=? i) with true by (symmetry; apply Z.leb_le; lia).
  apply nth_error_nth'. lia.
Qed.

Lemma poke_inside (mem : list Z) (i v : Z) :
  0 <= i < Z.of_nat (length mem) ->
  exists mem', poke mem i v = Some mem' /\ length mem' = length mem.
Proof.
  intros Hi. unfold poke.
  rewrite store_inside by (simpl; lia).
  eexists; split; [reflexivity|].
  rewrite !length_app, length_firstn, length_skipn. simpl. lia.
Qed.

(** ** The interframe gap history *)

Section GapHistoryFacts.

Variables samplesInInterval intervalsInWindow : Z.
Hypothesis samplesInInterval_positive : 0 < samplesInInterval.
Hypothesis intervalsInWindow_positive : 0 < intervalsInWindow.

Lemma array_set_inside (a : list Z) (i v : Z) :
  0 <= i < Z.of_nat (length a) ->
  length (array_set a i v) = length a
  /\ forall k : nat,
       nth k (array_set a i v) 0 = if Z.of_nat k =? i then v else nth k a 0.
Proof.
  intros Hi. unfold array_set.
  destruct (poke_inside a i v Hi) as (a' & Hpoke & Hlen).
  rewrite Hpoke. split; [exact Hlen|].
  intros k. unfold poke in Hpoke.
  rewrite (store_nth _ _ _ _ k Hpoke).
  change (Z.of_nat (length [v])) with 1.
  destruct (Z.eqb_spec (Z.of_nat k) i) as [Hk | Hk];
    destruct (Z.leb_spec i (Z.of_nat k));
    destruct (Z.ltb_spec (Z.of_nat k) (i + 1)); simpl; try lia;
    try reflexivity.
  replace (k - Z.to_nat i)%nat with O by lia. reflexivity.
Qed.

Lemma array_set_Forall (P : Z -> Prop) (a : list Z) (i v : Z) :
  Forall P a -> P v -> Forall P (array_set a i v).
Proof.
  intros Ha Hv. unfold array_set, poke, store.
  destruct (_ && _); [|exact Ha].
  assert (Hcut : forall n, Forall P (firstn n a) /\ Forall P (skipn n a)).
  { intros n. apply Forall_app. now rewrite firstn_skipn. }
  apply Forall_app; split; [apply Hcut|].
  apply Forall_app; split; [repeat constructor; exact Hv|apply Hcut].
Qed.

(** The scan returns a value that bounds the start value and every entry
    it visits, and that is one of them. *)
Lemma windowScan_bounds (a : list Z) (n : nat) :
  forall i m,
    m <= windowScan a n i m
    /\ (forall k, (k < n)%nat ->
          nth (Z.to_nat (i + Z.of_nat k)) a 0 <= windowScan a n i m)
    /\ (windowScan a n i m = m
        \/ exists k, (k < n)%nat
                     /\ windowScan a n i m = nth (Z.to_nat (i + Z.of_nat k)) a 0).
Proof.
  induction n as [|n IH]; intros i m; simpl.
  - split; [lia|]. split; [intros k Hk; lia|]. now left.
  - set (g := nth (Z.to_nat i) a 0).
    set (m' := if g >? m then g else m).
    assert (Hm' : m <= m' /\ g <= m' /\ (m' = m \/ m' = g)).
    { unfold m'. destruct (g >? m) eqn:Hg.
      - apply Z.gtb_lt in Hg. lia.
      - rewrite Z.gtb_ltb in Hg. apply Z.ltb_ge in Hg. lia. }
    destruct (IH (i + 1) m') as (Hlow & Hall & Hone).
    split; [lia|]. split.
    + intros [|k] Hk.
      * replace (i + Z.of_nat 0) with i by lia. fold g. lia.
      * replace (i + Z.of_nat (S k)) with (i + 1 + Z.of_nat k) by lia.
        apply Hall. lia.
    + destruct Hone as [Hone | (k & Hk & Hone)].
      * destruct Hm' as (_ & _ & [Hm' | Hm']).
        -- left. lia.
        -- right. exists O. split; [lia|].
           replace (i + Z.of_nat 0) with i by lia. fold g. lia.
      * right. exists (S k). split; [lia|].
        replace (i + Z.of_nat (S k)) with (i + 1 + Z.of_nat k) by lia.
        exact Hone.
Qed.

(** Over a whole array of values that are not negative, the scan from 0
    returns the maximum of the array. *)
Lemma windowScan_max (a : list Z) :
  a <> [] -> Forall (fun g => 0 <= g) a ->
  In (windowScan a (length a) 0 0) a
  /\ Forall (fun g => g <= windowScan a (length a) 0 0) a.
Proof.
  intros Hne Hpos.
  destruct (windowScan_bounds a (length a) 0 0) as (Hlow & Hall & Hone).
  assert (Hbound : Forall (fun g => g <= windowScan a (length a) 0 0) a).
  { apply Forall_forall. intros g Hg.
    destruct (In_nth _ _ 0 Hg) as (k & Hk & <-).
    specialize (Hall k Hk).
    replace (Z.to_nat (0 + Z.of_nat k)) with k in Hall by lia. exact Hall. }
  split; [|exact Hbound].
  destruct Hone as [Hone | (k & Hk & Hone)].
  - destruct a as [|g a']; [contradiction|].
    inversion Hpos as [|? ? Hg _]; subst.
    inversion Hbound as [|? ? Hg' _]; subst.
    left. lia.
  - rewrite Hone.
    replace (Z.to_nat (0 + Z.of_nat k)) with k by lia.
    now apply nth_In.
Qed.

Lemma history_ok_new :
  history_ok samplesInInterval intervalsInWindow
             (InterframeTimeGapHistory_new intervalsInWindow).
Proof.
  constructor; simpl; try lia.
  - rewrite repeat_length. lia.
  - apply Forall_forall. intros g Hg. apply repeat_spec in Hg. lia.
Qed.

Lemma history_ok_frameReceived (now : Z) (h : InterframeTimeGapHistory) :
  history_ok samplesInInterval intervalsInWindow h ->
  history_ok samplesInInterval intervalsInWindow
             (frameReceived samplesInInterval intervalsInWindow now h).
Proof.
  intros [Hcount Hnewest Hlen Hgaps Hcur]. unfold frameReceived.
  pose proof (uint64_bounds (now - _lastFrameReceivedTime h)) as Hgap.
  set (gap := uint64 (now - _lastFrameReceivedTime h)) in *.
  set (m := if gap >? _currentIntervalMaxGap h then gap
            else _currentIntervalMaxGap h).
  assert (Hm : 0 <= m) by (unfold m; destruct (gap >? _); lia).
  set (i := if _newestIntervalMaxGapAt h =? intervalsInWindow - 1
            then 0 else _newestIntervalMaxGapAt h + 1).
  assert (Hi : 0 <= i < intervalsInWindow).
  { unfold i. destruct (_ =? _) eqn:He.
    - lia.
    - apply Z.eqb_neq in He. lia. }
  destruct (negb (_lastFrameReceivedTime h =? 0)); [|constructor; assumption].
  destruct (_numSamplesInCurrentInterval h + 1 =? samplesInInterval) eqn:Hfull.
  - constructor; simpl; try assumption; try lia.
    + destruct (array_set_inside (_intervalMaxGaps h) i m) as (Hl & _); [lia|].
      rewrite Hl. exact Hlen.
    + now apply array_set_Forall.
  - apply Z.eqb_neq in Hfull.
    constructor; simpl; try assumption; lia.
Qed.

(** The frames received one after the other. *)
Lemma framesReceived_snoc (ts : list Z) (t : Z) (h : InterframeTimeGapHistory) :
  framesReceived samplesInInterval intervalsInWindow (ts ++ [t]) h
  = frameReceived samplesInInterval intervalsInWindow t
      (framesReceived samplesInInterval intervalsInWindow ts h).
Proof. unfold framesReceived. now rewrite fold_left_app. Qed.

Lemma frameReceived_last (now : Z) (h : InterframeTimeGapHistory) :
  _lastFrameReceivedTime
    (frameReceived samplesInInterval intervalsInWindow now h) = now.
Proof.
  unfold frameReceived.
  destruct (negb _); [|reflexivity].
  destruct (_ =? samplesInInterval); reflexivity.
Qed.

(** After frames at the times [ts]: the last arrival is the last of
    [ts], and the count of the current interval is the number of gaps
    seen so far modulo the length of an interval. *)
Lemma framesReceived_invariant (ts : list Z) :
  Forall timestamp ts ->
  let h := framesReceived samplesInInterval intervalsInWindow ts
             (InterframeTimeGapHistory_new intervalsInWindow) in
  history_ok samplesInInterval intervalsInWindow h
  /\ (ts = [] -> h = InterframeTimeGapHistory_new intervalsInWindow)
  /\ (forall ts0 prev, ts = ts0 ++ [prev] ->
        _lastFrameReceivedTime h = prev
        /\ _numSamplesInCurrentInterval h
           = Z.of_nat (length ts0) mod samplesInInterval).
Proof.
  induction ts as [|t ts IH] using rev_ind; intros Hts h.
  - split; [apply history_ok_new|]. split; [reflexivity|].
    intros ts0 prev Hnil. destruct ts0; discriminate.
  - apply Forall_app in Hts. destruct Hts as [Hts Ht].
    inversion Ht as [|? ? Htime _]; subst.
    specialize (IH Hts). simpl in IH. destruct IH as (Hok & Hnil & Hsnoc).
    subst h. rewrite framesReceived_snoc.
    split; [now apply history_ok_frameReceived|].
    split; [intros Habs; destruct ts; discriminate|].
    intros ts0 prev Heq. apply app_inj_tail in Heq. destruct Heq as [<- <-].
    split; [apply frameReceived_last|].
    destruct ts as [|t0 ts'] using rev_ind.
    + rewrite (Hnil eq_refl). simpl. now rewrite Z.mod_0_l by lia.
    + clear IHts'.
      destruct (Hsnoc ts' t0 eq_refl) as (Hlast & Hnum).
      apply Forall_app in Hts. destruct Hts as [_ Ht0].
      inversion Ht0 as [|? ? Htime0 _]; subst.
      destruct Hok as [Hcount _ _ _ _].
      unfold frameReceived.
      set (h0 := framesReceived samplesInInterval intervalsInWindow
                   (ts' ++ [t0])
                   (InterframeTimeGapHistory_new intervalsInWindow)) in *.
      rewrite Hlast.
      replace (t0 =? 0) with false
        by (symmetry; apply Z.eqb_neq; unfold timestamp in Htime0; lia).
      simpl negb. cbv iota.
      rewrite length_app. simpl length.
      replace (Z.of_nat (length ts' + 1)) with (Z.of_nat (length ts') + 1) by lia.
      rewrite <- Zplus_mod_idemp_l, <- Hnum.
      destruct (Z.eqb_spec (_numSamplesInCurrentInterval h0 + 1)
                           samplesInInterval) as [Hfull | Hfull]; simpl.
      * rewrite Hfull. now rewrite Z_mod_same_full.
      * rewrite Z.mod_small by lia. reflexivity.
Qed.

End GapHistoryFacts.

Section GapHistoryClaim.

Lemma running_max (gap current : Z) :
  (if gap >? current then gap else current) = Z.max current gap.
Proof.
  destruct (gap >? current) eqn:Hg.
  - apply Z.gtb_lt in Hg. lia.
  - rewrite Z.gtb_ltb in Hg. apply Z.ltb_ge in Hg. lia.
Qed.

Lemma cyclic_increment (newest intervalsInWindow : Z) :
  0 <= newest < intervalsInWindow ->
  (if newest =? intervalsInWindow - 1 then 0 else newest + 1)
  = (newest + 1) mod intervalsInWindow.
Proof.
  intros Hn. destruct (Z.eqb_spec newest (intervalsInWindow - 1))
    as [-> | Hne].
  - replace (intervalsInWindow - 1 + 1) with intervalsInWindow by lia.
    now rewrite Z_mod_same_full.
  - rewrite Z.mod_small; lia.
Qed.

(** C7.  The gap history behaves as specified, whatever the number
    [samples] of gaps in an interval and the number [intervals] of
    intervals in a window, both positive (so for 50 and 32), and for
    every sequence of
    arrival times [ts] (values of [usecTimestampNow()], which are not 0)
    followed by one more arrival at [now]:
    - the first [frameReceived] records the timestamp and changes
      nothing else;
    - each later call computes [gap = now - prev] (in a [quint64]) and
      takes it into the maximum of the current interval;
    - the interval is complete exactly when the count, which is the
      number of gaps seen so far modulo [samples], reaches [samples]:
      then the interval's maximum is stored at index
      [(newest + 1) mod intervals], the window maximum becomes the
      maximum of the [intervals] stored entries, the
      flag is set, and the count and the interval's maximum are 0 again;
      otherwise only the timestamp, the count and the interval's maximum
      change;
    - [getPastWindowMaxGap] returns the window maximum and clears the
      flag, nothing else. *)
Theorem gap_history_behaviour (samples intervals : Z) (ts : list Z) (now : Z) :
  0 < samples -> 0 < intervals ->
  Forall timestamp ts -> timestamp now ->
  let h := framesReceived samples intervals ts (InterframeTimeGapHistory_new intervals) in
  let h' := frameReceived samples intervals now h in
  (ts = [] ->
   h' = {| _lastFrameReceivedTime := now;
           _numSamplesInCurrentInterval := 0;
           _currentIntervalMaxGap := 0;
           _newestIntervalMaxGapAt := 0;
           _windowMaxGap := 0;
           _newWindowMaxGapAvailable := false;
           _intervalMaxGaps := repeat 0 (Z.to_nat intervals) |})
  /\ (forall ts0 prev, ts = ts0 ++ [prev] ->
      let gap := uint64 (now - prev) in
      let intervalMax := Z.max (_currentIntervalMaxGap h) gap in
      (prev <= now -> gap = now - prev)
      /\ _lastFrameReceivedTime h' = now
      /\ _numSamplesInCurrentInterval h = Z.of_nat (length ts0) mod samples
      /\ (_numSamplesInCurrentInterval h + 1 <> samples ->
          h' = {| _lastFrameReceivedTime := now;
                  _numSamplesInCurrentInterval :=
                    _numSamplesInCurrentInterval h + 1;
                  _currentIntervalMaxGap := intervalMax;
                  _newestIntervalMaxGapAt := _newestIntervalMaxGapAt h;
                  _windowMaxGap := _windowMaxGap h;
                  _newWindowMaxGapAvailable := _newWindowMaxGapAvailable h;
                  _intervalMaxGaps := _intervalMaxGaps h |})
      /\ (_numSamplesInCurrentInterval h + 1 = samples ->
          let i := (_newestIntervalMaxGapAt h + 1) mod intervals in
          _newestIntervalMaxGapAt h' = i
          /\ Z.of_nat (length (_intervalMaxGaps h')) = intervals
          /\ (forall k : nat,
                nth k (_intervalMaxGaps h') 0
                = if Z.of_nat k =? i then intervalMax
                  else nth k (_intervalMaxGaps h) 0)
          /\ In (_windowMaxGap h') (_intervalMaxGaps h')
          /\ Forall (fun g => g <= _windowMaxGap h') (_intervalMaxGaps h')
          /\ _newWindowMaxGapAvailable h' = true
          /\ _numSamplesInCurrentInterval h' = 0
          /\ _currentIntervalMaxGap h' = 0))
  /\ (forall h0,
        getPastWindowMaxGap h0
        = (_windowMaxGap h0,
           {| _lastFrameReceivedTime := _lastFrameReceivedTime h0;
              _numSamplesInCurrentInterval := _numSamplesInCurrentInterval h0;
              _currentIntervalMaxGap := _currentIntervalMaxGap h0;
              _newestIntervalMaxGapAt := _newestIntervalMaxGapAt h0;
              _windowMaxGap := _windowMaxGap h0;
              _newWindowMaxGapAvailable := false;
              _intervalMaxGaps := _intervalMaxGaps h0 |})).
Proof.
  intros Hsamples Hintervals Hts Hnow h h'.
  destruct (framesReceived_invariant samples intervals Hsamples Hintervals ts Hts) as (Hok & Hnil & Hsnoc).
  fold h in Hok, Hnil, Hsnoc.
  split; [|split].
  - intros ->. subst h'. rewrite (Hnil eq_refl). reflexivity.
  - intros ts0 prev Heq gap intervalMax.
    destruct (Hsnoc ts0 prev Heq) as (Hlast & Hnum).
    assert (Hprev : timestamp prev).
    { subst ts. apply Forall_app in Hts. destruct Hts as [_ Hp].
      now inversion Hp. }
    unfold timestamp in Hprev, Hnow.
    destruct Hok as [Hcount Hnewest Hlen Hgaps Hcur].
    assert (Hstep : h' = frameReceived samples intervals now h) by reflexivity.
    unfold frameReceived in Hstep. rewrite Hlast in Hstep.
    replace (prev =? 0) with false in Hstep
      by (symmetry; apply Z.eqb_neq; lia).
    simpl negb in Hstep. cbv iota in Hstep.
    rewrite running_max in Hstep. fold gap in Hstep. fold intervalMax in Hstep.
    rewrite cyclic_increment in Hstep by exact Hnewest.
    split; [intros Hle; unfold gap; apply uint64_in_range; lia|].
    split; [apply frameReceived_last|].
    split; [exact Hnum|].
    split.
    + intros Hne. apply Z.eqb_neq in Hne. rewrite Hne in Hstep. exact Hstep.
    + intros Hfull. apply Z.eqb_eq in Hfull. rewrite Hfull in Hstep.
      intros i. fold i in Hstep.
      assert (Hi : 0 <= i < intervals) by (unfold i; apply Z.mod_pos_bound; lia).
      destruct (array_set_inside (_intervalMaxGaps h) i intervalMax)
        as (Hl & Hnth); [lia|].
      assert (Hpos : Forall (fun g => 0 <= g)
                            (array_set (_intervalMaxGaps h) i intervalMax)).
      { apply array_set_Forall; [exact Hgaps|]. unfold intervalMax. lia. }
      assert (Hne : array_set (_intervalMaxGaps h) i intervalMax <> []).
      { intros Hnil'. rewrite Hnil' in Hl. simpl in Hl. lia. }
      pose proof (windowScan_max _ Hne Hpos) as (Hin & Hall).
      replace (length (array_set (_intervalMaxGaps h) i intervalMax))
        with (Z.to_nat intervals) in Hin, Hall by lia.
      rewrite Hstep. cbn [_newestIntervalMaxGapAt _intervalMaxGaps
        _windowMaxGap _newWindowMaxGapAvailable _numSamplesInCurrentInterval
        _currentIntervalMaxGap].
      repeat split; try assumption; try reflexivity. lia.
  - intros h0. reflexivity.
Qed.

(** The theorem for intervals of 50 gaps and windows of 32 intervals, at
    the arrivals 1000 and 1100 followed by one at 1300: the second gap,
    200, is the maximum of the interval so far. *)
Lemma gap_history_behaviour_witness :
  0 < 50 /\ 0 < 32
  /\ Forall timestamp [1000; 1100] /\ timestamp 1300
  /\ frameReceived 50 32 1300
       (framesReceived 50 32 [1000; 1100] (InterframeTimeGapHistory_new 32))
     = {| _lastFrameReceivedTime := 1300;
          _numSamplesInCurrentInterval := 2;
          _currentIntervalMaxGap := 200;
          _newestIntervalMaxGapAt := 0;
          _windowMaxGap := 0;
          _newWindowMaxGapAvailable := false;
          _intervalMaxGaps := repeat 0 32 |}.
Proof.
  assert (HS : 0 < 50) by lia.
  assert (HW : 0 < 32) by lia.
  assert (H1 : Forall timestamp [1000; 1100])
    by (repeat constructor; unfold timestamp; lia).
  assert (H2 : timestamp 1300) by (unfold timestamp; lia).
  split; [exact HS|]. split; [exact HW|].
  split; [exact H1|]. split; [exact H2|].
  destruct (gap_history_behaviour 50 32 [1000; 1100] 1300 HS HW H1 H2)
    as (_ & Hlater & _).
  destruct (Hlater [1000] 1100 eq_refl) as (_ & _ & _ & Hstep & _).
  rewrite Hstep.
  - reflexivity.
  - vm_compute. discriminate.
Defined.

End GapHistoryClaim.

(** ** The ring buffer *)

Section RingFacts.

Lemma load_nth (mem chunk : list Z) (off n : Z) (i : nat) :
  load mem off n = Some chunk -> Z.of_nat i < n ->
  nth i chunk 0 = nth (Z.to_nat off + i) mem 0.
Proof.
  unfold load.
  destruct (0 <=? off) eqn:Hoff; [|discriminate].
  destruct (0 <=? n) eqn:Hn; [|discriminate].
  destruct (off + n <=? Z.of_nat (length mem)) eqn:Hlen; [|discriminate].
  simpl. intros [= <-] Hi.
  rewrite nth_firstn.
  replace (i <? Z.to_nat n)%nat with true by (symmetry; apply Nat.ltb_lt; lia).
  now rewrite nth_skipn.
Qed.

Lemma memset0_inside (mem : list Z) (off n : Z) :
  0 <= off -> 0 <= n -> off + n <= Z.of_nat (length mem) ->
  exists mem',
    memset0 mem off n = Some mem'
    /\ length mem' = length mem
    /\ forall j : nat,
         nth j mem' 0
         = if (off <=? Z.of_nat j) && (Z.of_nat j <? off + n) then 0
           else nth j mem 0.
Proof.
  intros Hoff Hn Hlen. unfold memset0.
  replace (0 <=? n) with true by (symmetry; apply Z.leb_le; lia).
  assert (Hrep : Z.of_nat (length (repeat 0 (Z.to_nat n))) = n)
    by (rewrite repeat_length; lia).
  destruct (store mem off (repeat 0 (Z.to_nat n))) as [mem'|] eqn:Hst.
  - exists mem'. split; [reflexivity|].
    split; [eapply store_length; eassumption|].
    intros j. rewrite (store_nth _ _ _ _ j Hst), Hrep.
    destruct (_ && _); [|reflexivity].
    now rewrite nth_repeat.
  - rewrite store_inside in Hst by lia. discriminate.
Qed.

(** A shift forward by at most the capacity, from a position inside the
    ring, is the sum modulo the capacity. *)
Lemma shifted_forward (b : Ring.AudioRingBuffer) (position n : Z) :
  0 <= position < _sampleCapacity b -> 0 <= n <= _sampleCapacity b ->
  shiftedPositionAccomodatingWrap b position n
  = (position + n) mod _sampleCapacity b.
Proof.
  intros Hp Hn. unfold shiftedPositionAccomodatingWrap.
  destruct (Z.gtb_spec n 0); destruct (Z.geb_spec (position + n) (_sampleCapacity b));
    destruct (Z.ltb_spec n 0); simpl; try lia.
  all: first [ symmetry; apply Z.mod_small; lia
             | apply Z.mod_unique_pos with (q := 1); lia ].
Qed.

(** With both cursors inside a block that an [int] can index, the
    samples available are the distance from the read cursor to the write
    cursor, taken around the ring. *)
Lemma samplesAvailable_distance (b : Ring.AudioRingBuffer) (mem : list Z) :
  _buffer b = Some mem -> _sampleCapacity b < 2 ^ 31 ->
  0 <= _nextOutput b < _sampleCapacity b ->
  0 <= _endOfLastWrite b < _sampleCapacity b ->
  samplesAvailable b
  = if _endOfLastWrite b - _nextOutput b <? 0
    then _endOfLastWrite b - _nextOutput b + _sampleCapacity b
    else _endOfLastWrite b - _nextOutput b.
Proof.
  intros Hmem Hcap Hnext Hend. unfold samplesAvailable. rewrite Hmem.
  rewrite (int32_in_range (_endOfLastWrite b - _nextOutput b)) by lia.
  destruct (Z.ltb_spec (_endOfLastWrite b - _nextOutput b) 0).
  - rewrite int32_in_range by lia. apply uint32_in_range. lia.
  - apply uint32_in_range. lia.
Qed.

(** The number of samples a write copies: what is offered, at most the
    capacity. *)
Lemma samplesToCopy_clamped (b : Ring.AudioRingBuffer) (maxSize : Z) :
  0 <= _sampleCapacity b < 2 ^ 31 -> 0 <= maxSize < 2 ^ 64 ->
  samplesToCopy b maxSize = Z.min (maxSize / 2) (_sampleCapacity b).
Proof.
  intros Hcap Hsize. unfold samplesToCopy, SIZEOF_INT16.
  rewrite !uint64_in_range by lia.
  apply int32_in_range.
  assert (0 <= maxSize / 2) by (apply Z.div_pos; lia). lia.
Qed.

(** The crossing test of [writeData], spelled out: the write cursor is
    before the read cursor, and the write ends at or after the read
    cursor without reaching the end of the block. *)
Lemma writeCrossesNextOutput_spec (b : Ring.AudioRingBuffer) (n : Z) :
  0 <= _endOfLastWrite b < _sampleCapacity b -> 0 <= n <= _sampleCapacity b ->
  writeCrossesNextOutput b n = true
  <-> _hasStarted b = true
      /\ _endOfLastWrite b < _nextOutput b
      /\ _nextOutput b <= _endOfLastWrite b + n
      /\ _endOfLastWrite b + n < _sampleCapacity b.
Proof.
  intros He Hn. unfold writeCrossesNextOutput.
  rewrite !andb_true_iff, Z.ltb_lt, Z.leb_le.
  assert (Hshift :
    _endOfLastWrite b < _nextOutput b ->
    (_nextOutput b
     <= shiftedPositionAccomodatingWrap b (_endOfLastWrite b) n
     <-> _nextOutput b <= _endOfLastWrite b + n
         /\ _endOfLastWrite b + n < _sampleCapacity b)).
  { intros Hlt. unfold shiftedPositionAccomodatingWrap.
    destruct (Z.gtb_spec n 0);
      destruct (Z.geb_spec (_endOfLastWrite b + n) (_sampleCapacity b));
      destruct (Z.ltb_spec n 0); simpl; lia. }
  tauto.
Qed.

(** What was stored is what a load of the same range returns. *)
Lemma load_store_same (mem mem' src : list Z) (off : Z) :
  store mem off src = Some mem' ->
  load mem' off (Z.of_nat (length src)) = Some src.
Proof.
  intros Hst. pose proof (store_length _ _ _ _ Hst) as Hlen.
  unfold store in Hst.
  destruct (0 <=? off) eqn:Hoff; [|discriminate].
  destruct (off + Z.of_nat (length src) <=? Z.of_nat (length mem)) eqn:Hin;
    [|discriminate].
  simpl in Hst. injection Hst as <-.
  apply Z.leb_le in Hoff, Hin.
  rewrite load_inside by lia. f_equal.
  assert (Hfirst : length (firstn (Z.to_nat off) mem) = Z.to_nat off)
    by (rewrite length_firstn; lia).
  rewrite skipn_app, Hfirst, Nat.sub_diag. simpl skipn at 2.
  rewrite skipn_all2 by lia. simpl app.
  rewrite Nat2Z.id, firstn_app, Nat.sub_diag, firstn_all. simpl.
  apply app_nil_r.
Qed.

(** [writeData] on a buffer whose cursors are in place: the copy stays
    inside the block, the write cursor moves on modulo the capacity, and
    a write that ends before the end of the block can be read back. *)
Lemma writeData_runs (b : Ring.AudioRingBuffer) (data : list Z) (maxSize : Z) :
  ring_ok b -> 0 <= maxSize < 2 ^ 64 ->
  maxSize / 2 <= Z.of_nat (length data) ->
  let n := samplesToCopy b maxSize in
  let b1 := if writeCrossesNextOutput b n then reset b else b in
  exists mem',
    writeData data maxSize b
    = Some (n * SIZEOF_INT16,
            set_endOfLastWrite
              ((_endOfLastWrite b1 + n) mod _sampleCapacity b)
              (set_buffer mem' b1))
    /\ Z.of_nat (length mem') = _sampleCapacity b
    /\ (_endOfLastWrite b1 + n <= _sampleCapacity b ->
        load mem' (_endOfLastWrite b1) n
        = Some (firstn (Z.to_nat n) data)).
Proof.
  intros [Hcap (mem & Hmem & Hlen) Hnext Hend] Hsize Hdata n b1.
  assert (Hn : n = Z.min (maxSize / 2) (_sampleCapacity b))
    by (apply samplesToCopy_clamped; lia).
  assert (Hn0 : 0 <= maxSize / 2) by (apply Z.div_pos; lia).
  assert (Hb1 : _sampleCapacity b1 = _sampleCapacity b
                /\ _buffer b1 = Some mem
                /\ 0 <= _endOfLastWrite b1 < _sampleCapacity b).
  { unfold b1. destruct (writeCrossesNextOutput b n); simpl; repeat split;
      try assumption; lia. }
  destruct Hb1 as (Hcap1 & Hmem1 & Hend1).
  unfold writeData. fold n. fold b1. rewrite Hmem1, Hcap1.
  assert (Hshift :
    shiftedPositionAccomodatingWrap b1 (_endOfLastWrite b1) n
    = (_endOfLastWrite b1 + n) mod _sampleCapacity b).
  { rewrite <- Hcap1. apply shifted_forward; lia. }
  rewrite Hshift.
  assert (Hchunk : forall off m, 0 <= off -> 0 <= m -> off + m <= n ->
            exists chunk,
              load data off m = Some chunk /\ Z.of_nat (length chunk) = m).
  { intros off m Hoff Hm Hle. rewrite load_inside by lia.
    eexists. split; [reflexivity|].
    rewrite length_firstn, length_skipn. lia. }
  destruct (Z.leb_spec (_endOfLastWrite b1 + n) (_sampleCapacity b)) as [Hfit|Hwrap].
  - unfold memcpy.
    rewrite load_inside by lia. simpl skipn. simpl bind.
    destruct (store mem (_endOfLastWrite b1) (firstn (Z.to_nat n) data))
      as [mem'|] eqn:Hst.
    + exists mem'. simpl bind. split; [reflexivity|].
      split; [rewrite (store_length _ _ _ _ Hst); exact Hlen|].
      intros _. apply load_store_same in Hst.
      rewrite length_firstn in Hst.
      replace (Z.of_nat (Nat.min (Z.to_nat n) (length data))) with n in Hst
        by lia.
      exact Hst.
    + rewrite store_inside in Hst by (rewrite ?length_firstn; lia).
      discriminate.
  - set (toEnd := _sampleCapacity b - _endOfLastWrite b1).
    unfold memcpy.
    destruct (Hchunk 0 toEnd) as (head & Hhead & Hheadlen); try lia.
    destruct (Hchunk toEnd (n - toEnd)) as (rest & Hrest & Hrestlen); try lia.
    rewrite Hhead. simpl bind.
    destruct (store mem (_endOfLastWrite b1) head) as [mem1|] eqn:Hst1;
      [|rewrite store_inside in Hst1 by lia; discriminate].
    simpl bind. rewrite Hrest. simpl bind.
    pose proof (store_length _ _ _ _ Hst1) as Hlen1.
    destruct (store mem1 0 rest) as [mem'|] eqn:Hst2;
      [|rewrite store_inside in Hst2 by lia; discriminate].
    exists mem'. simpl bind. split; [reflexivity|].
    split; [rewrite (store_length _ _ _ _ Hst2); lia|].
    intros Habs. lia.
Qed.

End RingFacts.

Section OverflowClaim.

(** C2, as the code has it.  On a started ring buffer whose write cursor
    is before its read cursor, a write of [n] samples ([n] the samples
    offered, limited to the capacity) that does not fit the room left
    ([available + n >= capacity], so that its advance reaches the read
    cursor or passes it) and that ends before the end of the block
    resets the ring before the copy, and then copies to the start of the
    block: after the write the read cursor is at the origin,
    [_isStarved] is true, the write cursor is [n] samples from the
    origin and these [n] samples are available, with [0 < n < capacity];
    they can be read back from the start of the block.  These are the
    writes for which the test of lines 191-193 holds
    ([writeCrossesNextOutput_spec]); nothing is said here of the writes
    that reach the read cursor around the end of the block. *)
Theorem write_overflow_reset
    (b : Ring.AudioRingBuffer) (data : list Z) (maxSize : Z) :
  ring_ok b -> _hasStarted b = true ->
  0 <= maxSize < 2 ^ 64 -> maxSize / 2 <= Z.of_nat (length data) ->
  let n := Z.min (maxSize / 2) (_sampleCapacity b) in
  _endOfLastWrite b < _nextOutput b ->
  _sampleCapacity b <= samplesAvailable b + n ->
  _endOfLastWrite b + n < _sampleCapacity b ->
  0 < n < _sampleCapacity b
  /\ exists b' mem',
       writeData data maxSize b = Some (n * SIZEOF_INT16, b')
       /\ _nextOutput b' = 0
       /\ _endOfLastWrite b' = n
       /\ _isStarved b' = true
       /\ samplesAvailable b' = n
       /\ _buffer b' = Some mem'
       /\ load mem' 0 n = Some (firstn (Z.to_nat n) data).
Proof.
  intros Hok Hstarted Hsize Hdata n Hbefore Hfull Hinside.
  destruct (writeData_runs b data maxSize Hok Hsize Hdata)
    as (mem' & Hwrite & Hlen & Hback).
  destruct Hok as [Hcap (mem & Hmem & Hmemlen) Hnext Hend].
  assert (Hcopy : samplesToCopy b maxSize = n)
    by (unfold n; apply samplesToCopy_clamped; lia).
  rewrite Hcopy in Hwrite, Hback.
  assert (Hn0 : 0 <= maxSize / 2) by (apply Z.div_pos; lia).
  assert (Hn : 0 <= n <= _sampleCapacity b) by (unfold n; lia).
  rewrite (samplesAvailable_distance b mem) in Hfull by (assumption || lia).
  replace (_endOfLastWrite b - _nextOutput b <? 0) with true in Hfull
    by (symmetry; apply Z.ltb_lt; lia).
  assert (Hcross : writeCrossesNextOutput b n = true).
  { apply writeCrossesNextOutput_spec; [lia|lia|].
    split; [exact Hstarted|]. split; [exact Hbefore|]. split; lia. }
  rewrite Hcross in Hwrite, Hback. simpl in Hwrite, Hback.
  split; [lia|].
  rewrite Z.mod_small in Hwrite by lia.
  eexists. exists mem'. split; [exact Hwrite|].
  rewrite (samplesAvailable_distance _ mem') by (simpl; first [reflexivity|lia]).
  simpl.
  replace (n - 0 <? 0) with false by (symmetry; apply Z.ltb_ge; lia).
  repeat split; try reflexivity; try lia.
  apply Hback. lia.
Qed.

(** The theorem on a ring of capacity 10 whose write cursor (1) is
    before its read cursor (5), with 6 samples unread: a write of 6
    samples does not fit the room left, 4 samples, and ends before the
    end of the block. *)
Lemma write_overflow_reset_witness :
  let b := {| _sampleCapacity := 10; _numFrameSamples := 1;
              _isStarved := false; _hasStarted := true;
              _randomAccessMode := false;
              _buffer := Some [11; 2; 3; 4; 5; 6; 7; 8; 9; 10];
              _nextOutput := 5; _endOfLastWrite := 1 |} in
  ring_ok b
  /\ samplesAvailable b = 6
  /\ exists b',
       writeData [21; 22; 23; 24; 25; 26] 12 b = Some (6 * SIZEOF_INT16, b')
       /\ _nextOutput b' = 0
       /\ _endOfLastWrite b' = 6
       /\ _isStarved b' = true
       /\ samplesAvailable b' = 6.
Proof.
  intros b.
  assert (Hok : ring_ok b).
  { constructor; simpl; try lia.
    eexists. split; reflexivity. }
  split; [exact Hok|]. split; [reflexivity|].
  destruct (write_overflow_reset b [21; 22; 23; 24; 25; 26] 12 Hok eq_refl)
    as (_ & b' & mem' & Hwrite & Hnext & Hend & Hstarved & Havail & _).
  - lia.
  - apply Z.leb_le. reflexivity.
  - simpl. lia.
  - apply Z.leb_le. reflexivity.
  - simpl. lia.
  - exists b'. repeat split; assumption.
Defined.

(** C2 fails as stated.  On a ring of capacity 10, reached from a fresh
    one by writing 8 samples, reading 5 and writing 3, and then started,
    6 samples are unread and the write cursor (1) is before the read
    cursor (5): a write of 6 samples crosses the read cursor and resets
    the ring, and after it the write cursor is at 6, not at the origin,
    and 6 samples are available, not none. *)
Lemma write_overflow_counterexample :
  run [Write [1; 2; 3; 4; 5; 6; 7; 8]; Read 5; Write [9; 10; 11]]
      (start (AudioRingBuffer_new 10 1 false []))
  = Some {| ring := {| _sampleCapacity := 10; _numFrameSamples := 1;
                       _isStarved := true; _hasStarted := false;
                       _randomAccessMode := false;
                       _buffer := Some [11; 2; 3; 4; 5; 6; 7; 8; 9; 10];
                       _nextOutput := 5; _endOfLastWrite := 1 |};
            written := 11; consumed := 5; overflowed := false |}
  /\ samplesAvailable
       (setHasStarted true
          {| _sampleCapacity := 10; _numFrameSamples := 1;
             _isStarved := true; _hasStarted := false;
             _randomAccessMode := false;
             _buffer := Some [11; 2; 3; 4; 5; 6; 7; 8; 9; 10];
             _nextOutput := 5; _endOfLastWrite := 1 |}) = 6
  /\ writeData [21; 22; 23; 24; 25; 26] 12
       (setHasStarted true
          {| _sampleCapacity := 10; _numFrameSamples := 1;
             _isStarved := true; _hasStarted := false;
             _randomAccessMode := false;
             _buffer := Some [11; 2; 3; 4; 5; 6; 7; 8; 9; 10];
             _nextOutput := 5; _endOfLastWrite := 1 |})
     = Some (12, {| _sampleCapacity := 10; _numFrameSamples := 1;
                    _isStarved := true; _hasStarted := true;
                    _randomAccessMode := false;
                    _buffer := Some [21; 22; 23; 24; 25; 26; 7; 8; 9; 10];
                    _nextOutput := 0; _endOfLastWrite := 6 |})
  /\ samplesAvailable
       {| _sampleCapacity := 10; _numFrameSamples := 1;
          _isStarved := true; _hasStarted := true;
          _randomAccessMode := false;
          _buffer := Some [21; 22; 23; 24; 25; 26; 7; 8; 9; 10];
          _nextOutput := 0; _endOfLastWrite := 6 |} = 6.
Proof. repeat split. Qed.

End OverflowClaim.

Section AccountingClaim.

Variable capacity : Z.
Hypothesis capacity_range : 0 < capacity < 2 ^ 31.

Lemma accounted_ring_ok (p : progress) : accounted capacity p -> ring_ok (ring p).
Proof.
  intros [Hcap Hblock _ _ Hnext Hend _].
  constructor; rewrite ?Hcap, ?Hnext, ?Hend; try lia.
  - destruct Hblock as (mem & Hmem & Hlen). exists mem. now split.
  - apply Z.mod_pos_bound. lia.
  - apply Z.mod_pos_bound. lia.
Qed.

Lemma accounted_available (p : progress) :
  accounted capacity p ->
  samplesAvailable (ring p) = (written p - consumed p) mod capacity.
Proof.
  intros Hacc. pose proof (accounted_ring_ok p Hacc) as [Hc _ Hn He].
  destruct Hacc as [Hcap (mem & Hmem & _) _ (Hrw & Hw) Hnext Hend _].
  rewrite (samplesAvailable_distance _ mem) by (assumption || lia).
  rewrite Hcap, Hnext, Hend.
  destruct (Z.eq_dec (written p) capacity) as [HW | HW].
  - rewrite HW, Z_mod_same_full.
    destruct (Z.eq_dec (consumed p) capacity) as [HR | HR].
    + rewrite HR, !Z_mod_same_full, !Z.sub_diag, Z.mod_0_l by lia.
      reflexivity.
    + rewrite (Z.mod_small (consumed p)) by lia.
      destruct (Z.eq_dec (consumed p) 0) as [HR0 | HR0].
      * rewrite HR0, !Z.sub_0_r, Z_mod_same_full. reflexivity.
      * replace (0 - consumed p <? 0) with true
          by (symmetry; apply Z.ltb_lt; lia).
        rewrite Z.mod_small; lia.
  - rewrite !Z.mod_small by lia.
    replace (written p - consumed p <? 0) with false
      by (symmetry; apply Z.ltb_ge; lia).
    reflexivity.
Qed.

Lemma accounted_write (p : progress) (samples : list Z) :
  accounted capacity p ->
  written p + Z.of_nat (length samples) <= capacity ->
  exists p',
    perform p (Write samples) = Some p'
    /\ accounted capacity p'
    /\ written p' = written p + Z.of_nat (length samples)
    /\ consumed p' = consumed p.
Proof.
  intros Hacc Hroom.
  pose proof (accounted_ring_ok p Hacc) as Hok.
  destruct Hacc as [Hcap Hblock Hmode (Hrw & Hw) Hnext Hend Hovf].
  set (n := Z.of_nat (length samples)) in *.
  assert (Hhalf : n * SIZEOF_INT16 / 2 = n)
    by (unfold SIZEOF_INT16; apply Z.div_mul; lia).
  assert (Hcopy : samplesToCopy (ring p) (n * SIZEOF_INT16) = n).
  { rewrite samplesToCopy_clamped by (unfold SIZEOF_INT16; lia).
    rewrite Hhalf. lia. }
  assert (Hno : writeCrossesNextOutput (ring p) n = false).
  { destruct (writeCrossesNextOutput (ring p) n) eqn:Hcross; [|reflexivity].
    apply writeCrossesNextOutput_spec in Hcross.
    - rewrite Hnext, Hend, Hcap in Hcross.
      destruct Hcross as (_ & Hlt & Hge & _).
      destruct (Z.eq_dec (written p) capacity) as [HW | HW].
      + assert (n = 0) by lia. lia.
      + rewrite !Z.mod_small in Hlt by lia. lia.
    - destruct Hok as [_ _ _ He]. exact He.
    - lia. }
  destruct (writeData_runs (ring p) samples (n * SIZEOF_INT16) Hok)
    as (mem' & Hwrite & Hlen & _).
  { unfold SIZEOF_INT16. lia. }
  { rewrite Hhalf. unfold n. lia. }
  rewrite Hcopy, Hno, Hcap in Hwrite.
  unfold perform, writeSamples. fold n. rewrite Hwrite. simpl bind.
  eexists. split; [reflexivity|].
  rewrite Hcopy, Hno, Hovf. simpl.
  replace (n * SIZEOF_INT16 / SIZEOF_INT16) with n
    by (unfold SIZEOF_INT16 in *; lia).
  split; [|split; reflexivity].
  constructor; simpl; try assumption; try lia.
  - exists mem'. split; [reflexivity|lia].
  - rewrite Hend. apply Zplus_mod_idemp_l.
Qed.

Lemma accounted_read (p : progress) (maxSamples : Z) :
  accounted capacity p ->
  exists p',
    perform p (Read maxSamples) = Some p'
    /\ accounted capacity p'
    /\ written p' = written p
    /\ consumed p <= consumed p'.
Proof.
  intros Hacc.
  pose proof (accounted_available p Hacc) as Havail.
  destruct Hacc as [Hcap (mem & Hmem & Hlen) Hmode (Hrw & Hw) Hnext Hend Hovf].
  unfold perform, readSamples, readData. rewrite Hmode, Hmem, Hcap.
  set (requested := uint32 (uint64 (maxSamples * SIZEOF_INT16) / SIZEOF_INT16)).
  assert (Hreq : 0 <= requested) by apply uint32_bounds.
  set (k := Z.min requested (samplesAvailable (ring p))).
  assert (Hmod : 0 <= (written p - consumed p) mod capacity < capacity)
    by (apply Z.mod_pos_bound; lia).
  assert (Hk : 0 <= k <= (written p - consumed p) mod capacity)
    by (unfold k; rewrite Havail; lia).
  rewrite (int32_in_range k) by lia.
  (* the read never wraps: what is available ends before the end *)
  assert (Hfit : consumed p mod capacity + k <= capacity
                 /\ consumed p + k <= written p
                 /\ (consumed p mod capacity + k) mod capacity
                    = (consumed p + k) mod capacity).
  { split; [|split; [|apply Zplus_mod_idemp_l]].
    - destruct (Z.eq_dec (consumed p) capacity) as [HR | HR].
      + assert (HWR : written p - consumed p = 0) by lia.
        rewrite HWR, Z.mod_0_l in Hk by lia.
        rewrite HR, Z_mod_same_full. lia.
      + rewrite (Z.mod_small (consumed p)) by lia.
        destruct (Z.eq_dec (written p - consumed p) capacity) as [HF | HF].
        * rewrite HF, Z_mod_same_full in Hk. lia.
        * rewrite Z.mod_small in Hk by lia. lia.
    - destruct (Z.eq_dec (written p - consumed p) capacity) as [HF | HF].
      + rewrite HF, Z_mod_same_full in Hk. lia.
      + rewrite Z.mod_small in Hk by lia. lia. }
  destruct Hfit as (Hfit & Htotal & Hnew).
  rewrite Hnext.
  replace (consumed p mod capacity + k >? capacity) with false
    by (symmetry; rewrite Z.gtb_ltb; apply Z.ltb_ge; lia).
  assert (Hpos : 0 <= consumed p mod capacity)
    by (apply Z.mod_pos_bound; lia).
  rewrite load_inside by lia. simpl bind.
  eexists. split; [reflexivity|]. simpl.
  replace (k * SIZEOF_INT16 / SIZEOF_INT16) with k
    by (unfold SIZEOF_INT16; rewrite Z.div_mul; lia).
  split; [|split; [reflexivity|lia]].
  constructor; simpl; try assumption; try lia.
  - exists mem. split; [reflexivity|exact Hlen].
  - assert (Hrange : 0 <= consumed p mod capacity < capacity)
      by (apply Z.mod_pos_bound; lia).
    rewrite shifted_forward by (rewrite ?Hcap; lia).
    rewrite Hcap. exact Hnew.
Qed.

Lemma offered_nonneg (ops : list operation) : 0 <= offered ops.
Proof. induction ops as [|[samples|m] ops IH]; simpl; lia. Qed.

Lemma offered_prefix (ops : list operation) (k : nat) :
  offered (firstn k ops) <= offered ops.
Proof.
  revert k. induction ops as [|[samples|m] ops IH]; intros [|k]; simpl;
    try lia.
  - pose proof (offered_nonneg ops). lia.
  - specialize (IH k). lia.
  - apply offered_nonneg.
  - apply IH.
Qed.

Lemma accounted_run (ops : list operation) :
  forall p,
    accounted capacity p -> written p + offered ops <= capacity ->
    exists p',
      run ops p = Some p'
      /\ accounted capacity p'
      /\ written p' = written p + offered ops.
Proof.
  induction ops as [|[samples|m] ops IH]; intros p Hacc Hroom;
    cbn [offered run] in *.
  - exists p. split; [reflexivity|]. split; [exact Hacc|lia].
  - pose proof (offered_nonneg ops).
    destruct (accounted_write p samples Hacc) as (p1 & Hstep & Hacc1 & HW & _);
      [lia|].
    destruct (IH p1 Hacc1) as (p' & Hrun & Hacc' & HW'); [lia|].
    exists p'. rewrite Hstep. simpl bind.
    split; [exact Hrun|]. split; [exact Hacc'|lia].
  - destruct (accounted_read p m Hacc) as (p1 & Hstep & Hacc1 & HW & _).
    destruct (IH p1 Hacc1) as (p' & Hrun & Hacc' & HW'); [lia|].
    exists p'. rewrite Hstep. simpl bind.
    split; [exact Hrun|]. split; [exact Hacc'|lia].
Qed.

End AccountingClaim.

Section AccountingTheorem.

Lemma new_int16_length (n : Z) (junk : list Z) :
  0 <= n -> Z.of_nat (length (new_int16 n junk)) = n.
Proof.
  intros Hn. unfold new_int16. rewrite length_map, length_seq. lia.
Qed.

(** A fresh ring in normal mode, started or not, is where the accounting
    starts. *)
Lemma accounted_start (ringFrames numFrameSamples : Z) (junk : list Z)
    (hasStarted : bool) :
  0 < ringFrames -> 0 < numFrameSamples ->
  accounted (numFrameSamples * ringFrames)
            (start (setHasStarted hasStarted
                      (AudioRingBuffer_new ringFrames numFrameSamples false
                                           junk))).
Proof.
  intros HR HF.
  assert (Hcap : 0 < numFrameSamples * ringFrames) by nia.
  constructor; simpl; try reflexivity; try lia.
  replace (numFrameSamples =? 0) with false
    by (symmetry; apply Z.eqb_neq; lia).
  simpl. eexists. split; [reflexivity|].
  apply new_int16_length. lia.
Qed.

(** C6, as the code has it.  For every run of writes and reads on a
    fresh ring buffer in normal mode, with the samples offered to the
    writes at most the capacity in all, and after every operation of the
    run (every prefix [firstn k ops]): the run goes through, no write
    finds the crossing test true, every sample offered is written, the
    samples read are at most the samples written, and the samples
    available are (written - read) modulo the capacity.  That is
    written - read unless the ring is exactly full (written - read is
    the capacity), where no sample is available. *)
Theorem write_read_accounting
    (ringFrames numFrameSamples : Z) (junk : list Z) (hasStarted : bool)
    (ops : list operation) (k : nat) :
  0 < ringFrames -> 0 < numFrameSamples ->
  numFrameSamples * ringFrames < 2 ^ 31 ->
  let b0 := setHasStarted hasStarted
              (AudioRingBuffer_new ringFrames numFrameSamples false junk) in
  offered ops <= _sampleCapacity b0 ->
  exists p,
    run (firstn k ops) (start b0) = Some p
    /\ written p = offered (firstn k ops)
    /\ 0 <= consumed p <= written p
    /\ overflowed p = false
    /\ samplesAvailable (ring p)
       = (written p - consumed p) mod _sampleCapacity b0
    /\ (written p - consumed p < _sampleCapacity b0 ->
        samplesAvailable (ring p) = written p - consumed p)
    /\ (written p - consumed p = _sampleCapacity b0 ->
        samplesAvailable (ring p) = 0).
Proof.
  intros HR HF Hmax b0 Hoffered.
  set (capacity := numFrameSamples * ringFrames) in *.
  assert (Hrange : 0 < capacity < 2 ^ 31) by (unfold capacity; nia).
  change (_sampleCapacity b0) with capacity in *.
  pose proof (offered_prefix ops k) as Hprefix.
  destruct (accounted_run capacity Hrange (firstn k ops) (start b0))
    as (p & Hrun & Hacc & HW).
  { apply accounted_start; assumption. }
  { simpl. lia. }
  simpl in HW.
  pose proof (accounted_available capacity Hrange p Hacc) as Havail.
  destruct Hacc as [_ _ _ (Hrw & Hw) _ _ Hovf].
  exists p. split; [exact Hrun|]. split; [exact HW|].
  split; [exact Hrw|]. split; [exact Hovf|]. split; [exact Havail|].
  rewrite Havail. split.
  - intros Hlt. apply Z.mod_small. lia.
  - intros ->. apply Z_mod_same_full.
Qed.

(** The theorem on a ring of capacity 10, after a write of three samples
    and a read of two. *)
Lemma write_read_accounting_witness :
  0 < 10 /\ 0 < 1 /\ 1 * 10 < 2 ^ 31
  /\ offered [Write [1; 2; 3]; Read 2] <= 10
  /\ exists p,
       run (firstn 2 [Write [1; 2; 3]; Read 2])
           (start (setHasStarted false (AudioRingBuffer_new 10 1 false [])))
       = Some p
       /\ written p = offered (firstn 2 [Write [1; 2; 3]; Read 2])
       /\ 0 <= consumed p <= written p
       /\ overflowed p = false
       /\ samplesAvailable (ring p) = (written p - consumed p) mod 10
       /\ (written p - consumed p < 10 ->
           samplesAvailable (ring p) = written p - consumed p)
       /\ (written p - consumed p = 10 -> samplesAvailable (ring p) = 0).
Proof.
  assert (H0 : 0 < 10) by lia.
  assert (H1 : 0 < 1) by lia.
  assert (H2 : 1 * 10 < 2 ^ 31) by reflexivity.
  assert (H3 : offered [Write [1; 2; 3]; Read 2] <= 10)
    by (apply Z.leb_le; reflexivity).
  split; [exact H0|]. split; [exact H1|]. split; [exact H2|].
  split; [exact H3|].
  exact (write_read_accounting 10 1 [] false [Write [1; 2; 3]; Read 2] 2
                               H0 H1 H2 H3).
Defined.

(** C6 fails as stated, when the writes fill the ring exactly.  On a
    fresh ring of capacity 10, one write of 10 samples is within the
    capacity and resets nothing; it brings the write cursor back to the
    read cursor, so that no sample is available, while 10 were written
    and none read. *)
Lemma write_read_accounting_counterexample :
  offered [Write [1; 2; 3; 4; 5; 6; 7; 8; 9; 10]]
  <= _sampleCapacity (AudioRingBuffer_new 10 1 false [])
  /\ run [Write [1; 2; 3; 4; 5; 6; 7; 8; 9; 10]]
         (start (AudioRingBuffer_new 10 1 false []))
     = Some {| ring := {| _sampleCapacity := 10; _numFrameSamples := 1;
                          _isStarved := true; _hasStarted := false;
                          _randomAccessMode := false;
                          _buffer := Some [1; 2; 3; 4; 5; 6; 7; 8; 9; 10];
                          _nextOutput := 0; _endOfLastWrite := 0 |};
               written := 10; consumed := 0; overflowed := false |}
  /\ samplesAvailable
       {| _sampleCapacity := 10; _numFrameSamples := 1;
          _isStarved := true; _hasStarted := false;
          _randomAccessMode := false;
          _buffer := Some [1; 2; 3; 4; 5; 6; 7; 8; 9; 10];
          _nextOutput := 0; _endOfLastWrite := 0 |} = 0.
Proof.
  split; [apply Z.leb_le; reflexivity|]. split; reflexivity.
Qed.

End AccountingTheorem.

Section RandomAccessClaim.

Lemma mod_inside (x c : Z) : 0 <= x < c -> x mod c = x.
Proof. intros Hx. apply Z.mod_small. exact Hx. Qed.

Lemma mod_above (x c : Z) : c <= x < 2 * c -> x mod c = x - c.
Proof. intros Hx. symmetry. apply Z.mod_unique_pos with (q := 1); lia. Qed.

Lemma mod_below (x c : Z) : - c <= x < 0 -> x mod c = x + c.
Proof. intros Hx. symmetry. apply Z.mod_unique_pos with (q := -1); lia. Qed.

(** The position [(j - next) mod c] of a cell from the read cursor. *)
Lemma from_cursor (j next c : Z) :
  0 <= next < c -> 0 <= j < c ->
  (j - next) mod c = if next <=? j then j - next else j - next + c.
Proof.
  intros Hn Hj. destruct (Z.leb_spec next j).
  - apply mod_inside. lia.
  - apply mod_below. lia.
Qed.

(** A read of [k] samples in random-access mode, [0 < k <= capacity],
    on a buffer whose read cursor is in place. *)
Lemma read_in_random_access_mode
    (b : Ring.AudioRingBuffer) (mem : list Z) (k : Z) :
  read_ok b -> _randomAccessMode b = true -> _buffer b = Some mem ->
  0 < k <= _sampleCapacity b ->
  exists data mem',
    readSamples k b
    = Some (k * SIZEOF_INT16, data,
            set_nextOutput ((_nextOutput b + k) mod _sampleCapacity b)
                           (set_buffer mem' b))
    /\ Z.of_nat (length data) = k
    /\ (forall i : nat,
          Z.of_nat i < k ->
          nth i data 0
          = nth (Z.to_nat ((_nextOutput b + Z.of_nat i) mod _sampleCapacity b))
                mem 0)
    /\ length mem' = length mem
    /\ (forall j : nat,
          Z.of_nat j < _sampleCapacity b ->
          nth j mem' 0
          = if (Z.of_nat j - _nextOutput b) mod _sampleCapacity b <? k
            then 0 else nth j mem 0).
Proof.
  intros [Hcap (mem0 & Hmem0 & Hlen) Hnext] Hmode Hmem Hk.
  rewrite Hmem in Hmem0. injection Hmem0 as <-.
  set (c := _sampleCapacity b) in *. set (next := _nextOutput b) in *.
  unfold readSamples, readData. rewrite Hmode, Hmem. fold c. fold next.
  assert (Hreq : uint64 (k * SIZEOF_INT16) / SIZEOF_INT16 = k).
  { unfold SIZEOF_INT16. rewrite uint64_in_range by lia.
    apply Z.div_mul. lia. }
  rewrite Hreq, (int32_in_range k) by lia.
  rewrite shifted_forward by (fold c; fold next; lia). fold c. fold next.
  destruct (Z.gtb_spec (next + k) c) as [Hwrap | Hfit].
  - (* two copies: to the end of the block, then from its start *)
    set (toEnd := c - next).
    destruct (load mem next toEnd) as [head|] eqn:Hhead;
      [|rewrite load_inside in Hhead by lia; discriminate].
    destruct (memset0_inside mem next toEnd) as (mem1 & Hset1 & Hlen1 & Hnth1);
      try lia.
    simpl bind. rewrite Hset1. simpl bind.
    destruct (load mem1 0 (k - toEnd)) as [tail|] eqn:Htail;
      [|rewrite load_inside in Htail by lia; discriminate].
    destruct (memset0_inside mem1 0 (k - toEnd)) as (mem2 & Hset2 & Hlen2 & Hnth2);
      try lia.
    simpl bind. rewrite Hset2. simpl bind.
    exists (head ++ tail), mem2. split; [reflexivity|].
    pose proof (load_length _ _ _ _ Hhead) as Hheadlen.
    pose proof (load_length _ _ _ _ Htail) as Htaillen.
    split; [rewrite length_app; lia|].
    split; [|split; [lia|]].
    + intros i Hi. destruct (Z.ltb_spec (Z.of_nat i) toEnd) as [Hlo | Hhi].
      * rewrite app_nth1 by lia.
        rewrite (load_nth _ _ _ _ i Hhead) by lia.
        rewrite mod_inside by lia. f_equal. lia.
      * rewrite app_nth2 by lia.
        rewrite (load_nth _ _ _ _ _ Htail) by lia.
        rewrite Hnth1.
        replace (next <=? Z.of_nat (Z.to_nat 0 + (i - length head)))
          with false by (symmetry; apply Z.leb_gt; lia).
        simpl andb. cbv iota.
        rewrite mod_above by lia. f_equal. lia.
    + intros j Hj. rewrite Hnth2, Hnth1.
      rewrite from_cursor by lia.
      destruct (Z.leb_spec 0 (Z.of_nat j));
        destruct (Z.ltb_spec (Z.of_nat j) (0 + (k - toEnd)));
        destruct (Z.leb_spec next (Z.of_nat j));
        destruct (Z.ltb_spec (Z.of_nat j) (next + toEnd)); simpl;
        match goal with
        | |- context [?x <? k] => destruct (Z.ltb_spec x k)
        end; try reflexivity; lia.
  - (* one copy *)
    destruct (load mem next k) as [chunk|] eqn:Hchunk;
      [|rewrite load_inside in Hchunk by lia; discriminate].
    destruct (memset0_inside mem next k) as (mem1 & Hset1 & Hlen1 & Hnth1);
      try lia.
    simpl bind. rewrite Hset1. simpl bind.
    exists chunk, mem1. split; [reflexivity|].
    split; [eapply load_length; eassumption|].
    split; [|split; [exact Hlen1|]].
    + intros i Hi. rewrite (load_nth _ _ _ _ i Hchunk) by lia.
      rewrite mod_inside by lia. f_equal. lia.
    + intros j Hj. rewrite Hnth1. rewrite from_cursor by lia.
      destruct (Z.leb_spec next (Z.of_nat j));
        destruct (Z.ltb_spec (Z.of_nat j) (next + k)); simpl;
        match goal with
        | |- context [?x <? k] => destruct (Z.ltb_spec x k)
        end; try reflexivity; lia.
Qed.

End RandomAccessClaim.

Section RandomAccessTheorem.

(** A fresh ring in random-access mode has its read cursor in place. *)
Lemma read_ok_new (ringFrames numFrameSamples : Z) (junk : list Z) :
  0 < ringFrames -> 0 < numFrameSamples ->
  numFrameSamples * ringFrames < 2 ^ 31 ->
  read_ok (AudioRingBuffer_new ringFrames numFrameSamples true junk).
Proof.
  intros HR HF Hmax.
  assert (Hcap : 0 < numFrameSamples * ringFrames) by nia.
  constructor; simpl; try lia.
  replace (numFrameSamples =? 0) with false
    by (symmetry; apply Z.eqb_neq; lia).
  simpl. eexists. split; [reflexivity|].
  rewrite repeat_length. lia.
Qed.

(** C10.  In random-access mode, a read of [k] samples with
    [0 < k <= capacity] returns [k] samples ([k * sizeof(int16_t)]
    bytes), whatever [samplesAvailable] says, and every copy and every
    clearing stays inside the block (the read does not fail): the
    samples are those of the [k] cells from the read cursor on, taken
    modulo the capacity; these cells hold 0 afterwards and the others
    are unchanged; the read cursor moves on by [k] modulo the capacity.
    On a buffer fresh from the constructor, before any write, no sample
    is available and the read returns [k] samples all the same, each of
    them 0. *)
Theorem random_access_read
    (b : Ring.AudioRingBuffer) (mem : list Z) (k : Z) :
  read_ok b -> _randomAccessMode b = true -> _buffer b = Some mem ->
  0 < k <= _sampleCapacity b ->
  exists data mem',
    readSamples k b
    = Some (k * SIZEOF_INT16, data,
            set_nextOutput ((_nextOutput b + k) mod _sampleCapacity b)
                           (set_buffer mem' b))
    /\ Z.of_nat (length data) = k
    /\ (forall i : nat,
          Z.of_nat i < k ->
          nth i data 0
          = nth (Z.to_nat ((_nextOutput b + Z.of_nat i) mod _sampleCapacity b))
                mem 0)
    /\ length mem' = length mem
    /\ (forall j : nat,
          Z.of_nat j < _sampleCapacity b ->
          nth j mem' 0
          = if (Z.of_nat j - _nextOutput b) mod _sampleCapacity b <? k
            then 0 else nth j mem 0)
    /\ read_ok (set_nextOutput ((_nextOutput b + k) mod _sampleCapacity b)
                               (set_buffer mem' b))
    /\ (forall ringFrames numFrameSamples junk,
          b = AudioRingBuffer_new ringFrames numFrameSamples true junk ->
          samplesAvailable b = 0 /\ data = repeat 0 (Z.to_nat k)).
Proof.
  intros Hok Hmode Hmem Hk.
  destruct (read_in_random_access_mode b mem k Hok Hmode Hmem Hk)
    as (data & mem' & Hread & Hlen & Hdata & Hmemlen & Hcleared).
  exists data, mem'.
  destruct Hok as [Hcap (mem0 & Hmem0 & Hlen0) Hnext].
  rewrite Hmem in Hmem0. injection Hmem0 as <-.
  repeat (split; [assumption|]). split.
  - constructor; simpl; try assumption.
    + exists mem'. split; [reflexivity|lia].
    + apply Z.mod_pos_bound. lia.
  - intros ringFrames numFrameSamples junk Hfresh. split.
    + rewrite Hfresh. unfold samplesAvailable. simpl.
      now destruct (negb (numFrameSamples =? 0)).
    + assert (Hzero : mem = repeat 0 (Z.to_nat (_sampleCapacity b))).
      { rewrite Hfresh in Hmem. simpl in Hmem.
        destruct (negb (numFrameSamples =? 0)); [|discriminate].
        injection Hmem as <-. rewrite Hfresh. reflexivity. }
      apply nth_ext with (d := 0) (d' := 0).
      * rewrite repeat_length. lia.
      * intros i Hi. rewrite Hdata by lia.
        rewrite Hzero, !nth_repeat. reflexivity.
Qed.

(** The theorem on a fresh ring of capacity 10 in random-access mode,
    for a read of three samples before any write. *)
Lemma random_access_read_witness :
  read_ok (AudioRingBuffer_new 10 1 true [])
  /\ 0 < 3 <= _sampleCapacity (AudioRingBuffer_new 10 1 true [])
  /\ exists data mem',
       readSamples 3 (AudioRingBuffer_new 10 1 true [])
       = Some (3 * SIZEOF_INT16, data,
               set_nextOutput 3 (set_buffer mem' (AudioRingBuffer_new 10 1 true [])))
       /\ data = repeat 0 3.
Proof.
  assert (Hok : read_ok (AudioRingBuffer_new 10 1 true []))
    by (apply read_ok_new; [lia|lia|reflexivity]).
  assert (Hk : 0 < 3 <= _sampleCapacity (AudioRingBuffer_new 10 1 true []))
    by (simpl; lia).
  split; [exact Hok|]. split; [exact Hk|].
  destruct (random_access_read (AudioRingBuffer_new 10 1 true [])
              (repeat 0 10) 3 Hok eq_refl eq_refl Hk)
    as (data & mem' & Hread & _ & _ & _ & _ & _ & Hfresh).
  exists data, mem'. split; [exact Hread|].
  exact (proj2 (Hfresh 10 1 [] eq_refl)).
Defined.

End RandomAccessTheorem.

(** ** The mixer *)

Section SaturationClaim.

(** Up to the upper bound the addition is the clamped sum: the lower
    bound is enforced. *)
Lemma plateauAddition_up_to_max (mixSample sampleToAdd : Z) :
  -32768 <= mixSample <= 32767 -> -32768 <= sampleToAdd <= 32767 ->
  mixSample + sampleToAdd <= MAX_SAMPLE_VALUE ->
  plateauAdditionOfSamples mixSample sampleToAdd
  = clamp16 (mixSample + sampleToAdd).
Proof.
  unfold plateauAdditionOfSamples, clamp16, MAX_SAMPLE_VALUE, MIN_SAMPLE_VALUE.
  intros Hm Ha Hsum.
  rewrite int16_in_range by lia. lia.
Qed.

(** Above the upper bound the sum is stored as it is, and wraps around
    in the [int16_t]. *)
Lemma plateauAddition_above_max (mixSample sampleToAdd : Z) :
  -32768 <= mixSample <= 32767 -> -32768 <= sampleToAdd <= 32767 ->
  MAX_SAMPLE_VALUE < mixSample + sampleToAdd ->
  plateauAdditionOfSamples mixSample sampleToAdd
  = mixSample + sampleToAdd - 65536.
Proof.
  unfold plateauAdditionOfSamples, MAX_SAMPLE_VALUE, MIN_SAMPLE_VALUE, int16.
  intros Hm Ha Hsum.
  rewrite Z.max_r by lia.
  replace (sampleToAdd + mixSample + 32768)
    with (sampleToAdd + mixSample - 32768 + 1 * 65536) by lia.
  rewrite Z_mod_plus_full, Z.mod_small by lia. lia.
Qed.

(** C1 at [mixSample = 32767], [sampleToAdd = 1]: the value kept is the
    sum 32768, over [MAX_SAMPLE_VALUE], and the sample stored is -32768,
    where the clamped sum is 32767. *)
Lemma plateauAddition_positive_overflow :
  Z.max MIN_SAMPLE_VALUE (1 + 32767) = 32768
  /\ plateauAdditionOfSamples 32767 1 = -32768
  /\ clamp16 (32767 + 1) = 32767.
Proof. repeat split. Qed.

End SaturationClaim.

Section EligibilityClaim.

Lemma BUFFER_LENGTH_SAMPLES_PER_CHANNEL_value :
  BUFFER_LENGTH_SAMPLES_PER_CHANNEL = 256.
Proof. reflexivity. Qed.

Lemma JITTER_BUFFER_SAMPLES_value : JITTER_BUFFER_SAMPLES = 264.
Proof. reflexivity. Qed.

Lemma RING_BUFFER_SAMPLES_value : RING_BUFFER_SAMPLES = 2560.
Proof. reflexivity. Qed.

(** The constant as main.cpp computes it, in floating point: 12 * 22.05
    without its fraction. *)
Lemma JITTER_BUFFER_SAMPLES_float :
  truncR (IZR JITTER_BUFFER_MSECS * (IZR SAMPLE_RATE / 1000))
  = JITTER_BUFFER_SAMPLES.
Proof.
  rewrite JITTER_BUFFER_SAMPLES_value.
  unfold truncR, JITTER_BUFFER_MSECS, SAMPLE_RATE.
  destruct (Rle_dec 0 (12 * (22050 / 1000))) as [_ | Hneg]; [|lra].
  symmetry. apply Int_part_spec. lra.
Qed.

(** C3.  On a buffer that has been written ([getEndOfLastWrite()] is not
    null), with [avail = diffLastWriteNextOutput()], [F = 256] and
    [J = 264] (12 ms at 22050 Hz):
    - not started and [avail <= F + J]: [shouldBeAddedToMix] becomes
      false and [started] is unchanged;
    - otherwise, [avail < F]: [started] and [shouldBeAddedToMix] become
      false;
    - otherwise both become true.
    Nothing else changes. *)
Theorem eligibility_table (b : Mixer.AudioRingBuffer) :
  endOfLastWrite b <> None ->
  let avail := diffLastWriteNextOutput b in
  let F := BUFFER_LENGTH_SAMPLES_PER_CHANNEL in
  let J := JITTER_BUFFER_SAMPLES in
  F = 256 /\ J = 264
  /\ (started b = false /\ avail <= F + J ->
      checkBuffer b = setShouldBeAddedToMix false b
      /\ shouldBeAddedToMix (checkBuffer b) = false
      /\ started (checkBuffer b) = started b)
  /\ (~ (started b = false /\ avail <= F + J) -> avail < F ->
      checkBuffer b = setShouldBeAddedToMix false (setStarted false b)
      /\ shouldBeAddedToMix (checkBuffer b) = false
      /\ started (checkBuffer b) = false)
  /\ (~ (started b = false /\ avail <= F + J) -> ~ avail < F ->
      checkBuffer b = setShouldBeAddedToMix true (setStarted true b)
      /\ shouldBeAddedToMix (checkBuffer b) = true
      /\ started (checkBuffer b) = true).
Proof.
  intros Hwritten avail F J.
  split; [reflexivity|]. split; [reflexivity|].
  unfold checkBuffer. fold avail. fold F. fold J.
  destruct (endOfLastWrite b) as [e|]; [clear Hwritten|contradiction].
  assert (Hheld : negb (started b) && (avail <=? F + J) = true
                  <-> started b = false /\ avail <= F + J).
  { rewrite andb_true_iff, negb_true_iff, Z.leb_le. tauto. }
  destruct (negb (started b) && (avail <=? F + J)).
  - assert (Hyes : started b = false /\ avail <= F + J) by now apply Hheld.
    split; [intros _; now repeat split|].
    split; intros Hno; contradiction.
  - assert (Hno : ~ (started b = false /\ avail <= F + J)).
    { intros Hyes. apply Hheld in Hyes. discriminate. }
    split; [intros Hyes; contradiction|].
    destruct (Z.ltb_spec avail F) as [Hlt | Hge].
    + split; [intros _ _; now repeat split|].
      intros _ Hnot. lia.
    + split; [intros _ Hlt; lia|].
      intros _ _. now repeat split.
Qed.

(** The theorem on a buffer that holds one frame and is not started:
    it is held back. *)
Lemma eligibility_table_witness :
  let b := {| buffer := repeat 0 2560; nextOutput := 0;
              endOfLastWrite := Some 256; started := false;
              shouldBeAddedToMix := true; shouldLoopbackForAgent := false;
              position := mkVec3 0 0 0; bearing := 0%R;
              attenuationRatio := 1%R |} in
  endOfLastWrite b <> None
  /\ shouldBeAddedToMix (checkBuffer b) = false
  /\ started (checkBuffer b) = started b.
Proof.
  intros b.
  assert (Hwritten : endOfLastWrite b <> None) by discriminate.
  split; [exact Hwritten|].
  destruct (eligibility_table b Hwritten) as (_ & _ & Hheld & _).
  refine (proj2 (Hheld _)).
  split; [reflexivity|]. apply Z.leb_le. reflexivity.
Defined.

End EligibilityClaim.

Section SilenceClaim.

Variable agents : list Agent.
Variable agentIndex : nat.
Variable agent : Agent.

Hypothesis agent_in_list : nth_error agents agentIndex = Some agent.
Hypothesis no_loopback : shouldLoopbackForAgent (linkedData agent) = false.
Hypothesis no_other_source :
  forall j other,
    j <> agentIndex -> nth_error agents j = Some other ->
    shouldBeAddedToMix (linkedData other) = false.

(** The loop over the sources leaves the coefficients and the samples as
    they are: no source is mixed. *)
Lemma mixOthers_nothing (others : list Agent) :
  forall (j : nat) (state : Coefficients * list Z),
    (forall n other, nth_error others n = Some other ->
                     nth_error agents (j + n) = Some other) ->
    mixOthers agentIndex (linkedData agent) j others state = Some state.
Proof.
  induction others as [|other rest IH]; intros j state Hpart; simpl.
  - reflexivity.
  - assert (Hstep : mixOther agentIndex (linkedData agent) j other state
                    = Some state).
    { unfold mixOther. destruct state as [c clientSamples].
      destruct (Nat.eqb_spec j agentIndex) as [Heq | Hne]; simpl.
      - rewrite no_loopback. reflexivity.
      - rewrite (no_other_source j other Hne); [reflexivity|].
        specialize (Hpart O other eq_refl).
        now rewrite Nat.add_0_r in Hpart. }
    rewrite Hstep. simpl bind. apply IH.
    intros n other' Hn. specialize (Hpart (S n) other' Hn).
    now rewrite Nat.add_succ_r in Hpart.
Qed.

Lemma mixForAgent_silence (c : Coefficients) :
  mixForAgent agents c agentIndex agent = Some (c, silence).
Proof.
  unfold mixForAgent. apply mixOthers_nothing.
  intros n other Hn. exact Hn.
Qed.

(** Every packet of the frame that goes to the listener holds the
    samples mixed for it. *)
Lemma mixListeners_packet (listeners : list Agent) :
  forall (k : nat) (c : Coefficients) (packets : list (nat * list Z)),
    (forall n a, nth_error listeners n = Some a ->
                 nth_error agents (k + n) = Some a) ->
    mixListeners agents c k listeners = Some packets ->
    forall clientSamples,
      In (agentIndex, clientSamples) packets -> clientSamples = silence.
Proof.
  induction listeners as [|a rest IH]; intros k c packets Hpart Hmix
    clientSamples Hin; simpl in Hmix.
  - injection Hmix as <-. contradiction.
  - assert (Hrest : forall n a', nth_error rest n = Some a' ->
                                 nth_error agents (S k + n) = Some a').
    { intros n a' Hn. specialize (Hpart (S n) a' Hn).
      now rewrite Nat.add_succ_r in Hpart. }
    destruct (agentType a).
    + destruct (mixForAgent agents c k a) as [[c' samples]|] eqn:Hone;
        [|discriminate].
      simpl in Hmix.
      destruct (mixListeners agents c' (S k) rest) as [packets'|] eqn:Hothers;
        [|discriminate].
      simpl in Hmix. injection Hmix as <-.
      destruct Hin as [Hhead | Htail].
      * injection Hhead as -> ->.
        specialize (Hpart O a eq_refl). rewrite Nat.add_0_r in Hpart.
        rewrite agent_in_list in Hpart. injection Hpart as <-.
        rewrite mixForAgent_silence in Hone. now injection Hone as _ <-.
      * eapply IH; eassumption.
    + eapply IH; eassumption.
Qed.

(** An avatar of the list gets a packet in every frame that is mixed. *)
Lemma mixListeners_sends (listeners : list Agent) :
  forall (k : nat) (c : Coefficients) (packets : list (nat * list Z)) n,
    nth_error listeners n = Some agent ->
    agentType agent = AGENT_TYPE_AVATAR ->
    mixListeners agents c k listeners = Some packets ->
    exists clientSamples, In ((k + n)%nat, clientSamples) packets.
Proof.
  induction listeners as [|a rest IH]; intros k c packets n Hn Havatar Hmix.
  - destruct n; discriminate.
  - simpl in Hmix. destruct n as [|n]; simpl in Hn.
    + injection Hn as ->. rewrite Havatar in Hmix.
      destruct (mixForAgent agents c k agent) as [[c' samples]|];
        [|discriminate].
      simpl in Hmix.
      destruct (mixListeners agents c' (S k) rest) as [packets'|];
        [|discriminate].
      simpl in Hmix. injection Hmix as <-.
      exists samples. rewrite Nat.add_0_r. now left.
    + destruct (agentType a).
      * destruct (mixForAgent agents c k a) as [[c' samples]|];
          [|discriminate].
        simpl in Hmix.
        destruct (mixListeners agents c' (S k) rest) as [packets'|] eqn:Hothers;
          [|discriminate].
        simpl in Hmix. injection Hmix as <-.
        destruct (IH (S k) c' packets' n Hn Havatar Hothers) as (samples' & Hin).
        exists samples'. right. now rewrite Nat.add_succ_r.
      * destruct (IH (S k) c packets n Hn Havatar Hmix) as (samples' & Hin).
        exists samples'. now rewrite Nat.add_succ_r.
Qed.

End SilenceClaim.

Section SilenceTheorem.

(** C9.  For a listener of the list that is an avatar without loopback,
    when no other agent of the list is to be added to the mix: the loop
    over the sources mixes nothing, whatever the listener's own buffer
    and flags hold, and the samples for its packet are the 512 zeros the
    loop starts from; in a frame that is mixed, the listener is sent a
    packet, and every packet sent to it holds these zeros. *)
Theorem silent_without_sources
    (agents : list Agent) (agentIndex : nat) (agent : Agent)
    (c : Coefficients) :
  nth_error agents agentIndex = Some agent ->
  agentType agent = AGENT_TYPE_AVATAR ->
  shouldLoopbackForAgent (linkedData agent) = false ->
  (forall j other,
     j <> agentIndex -> nth_error agents j = Some other ->
     shouldBeAddedToMix (linkedData other) = false) ->
  mixForAgent agents c agentIndex agent = Some (c, silence)
  /\ silence = repeat 0 512
  /\ (forall packets,
        mixListeners agents noCoefficients 0 agents = Some packets ->
        (exists clientSamples, In (agentIndex, clientSamples) packets)
        /\ (forall clientSamples,
              In (agentIndex, clientSamples) packets ->
              clientSamples = repeat 0 512)).
Proof.
  intros Hin Havatar Hloop Hothers.
  split; [now apply mixForAgent_silence|].
  split; [reflexivity|].
  intros packets Hmix. split.
  - exact (mixListeners_sends agents agent agents 0 noCoefficients packets
             agentIndex Hin Havatar Hmix).
  - intros clientSamples Hpacket.
    change (repeat 0 512) with silence.
    eapply (mixListeners_packet agents agentIndex agent Hin Hloop Hothers
              agents 0 noCoefficients packets); try eassumption.
    intros n a Hn. exact Hn.
Qed.

(** The theorem on a list of two agents: an avatar without loopback,
    whose own buffer is marked for the mix, and an injector that is not. *)
Lemma silent_without_sources_witness :
  let listener :=
    {| agentType := AGENT_TYPE_AVATAR; agentID := 0;
       linkedData :=
         {| buffer := repeat 7 2560; nextOutput := 0;
            endOfLastWrite := Some 512; started := true;
            shouldBeAddedToMix := true; shouldLoopbackForAgent := false;
            position := mkVec3 0 0 0; bearing := 0%R;
            attenuationRatio := 1%R |} |} in
  let injector :=
    {| agentType := AGENT_TYPE_AUDIO_INJECTOR; agentID := 1;
       linkedData :=
         {| buffer := repeat 9 2560; nextOutput := 0;
            endOfLastWrite := Some 256; started := false;
            shouldBeAddedToMix := false; shouldLoopbackForAgent := false;
            position := mkVec3 1 0 1; bearing := 0%R;
            attenuationRatio := 1%R |} |} in
  shouldLoopbackForAgent (linkedData listener) = false
  /\ shouldBeAddedToMix (linkedData injector) = false
  /\ mixForAgent [listener; injector] noCoefficients 0 listener
     = Some (noCoefficients, repeat 0 512).
Proof.
  intros listener injector.
  split; [reflexivity|]. split; [reflexivity|].
  refine (proj1 (silent_without_sources [listener; injector] 0 listener
                   noCoefficients eq_refl eq_refl eq_refl _)).
  intros [|[|j]] other Hj Hother; simpl in Hother.
  - contradiction.
  - injection Hother as <-. reflexivity.
  - destruct j; discriminate.
Defined.

End SilenceTheorem.

Section LookBackClaim.

(** The read cursor is at the start of one of the ten frames of the
    ring. *)
Lemma cursorReachable_frame (p : Z) :
  cursorReachable p ->
  exists k, 0 <= k < RING_BUFFER_FRAMES
            /\ p = k * BUFFER_LENGTH_SAMPLES_PER_CHANNEL.
Proof.
  induction 1 as [|p Hp (k & Hk & ->)].
  - exists 0. split; [unfold RING_BUFFER_FRAMES; lia|reflexivity].
  - unfold advancedNextOutput.
    rewrite RING_BUFFER_SAMPLES_value, BUFFER_LENGTH_SAMPLES_PER_CHANNEL_value.
    unfold RING_BUFFER_FRAMES in *.
    destruct (Z.geb_spec (k * 256 + 256) 2560).
    + exists 0. lia.
    + exists (k + 1). lia.
Qed.

Lemma plateauInto_inside (clientSamples : list Z) (i sampleToAdd : Z) :
  0 <= i < Z.of_nat (length clientSamples) ->
  exists out,
    plateauInto clientSamples i sampleToAdd = Some out
    /\ length out = length clientSamples.
Proof.
  intros Hi. unfold plateauInto.
  rewrite peek_inside by exact Hi. simpl bind.
  now apply poke_inside.
Qed.

Variable otherAgentBuffer : Mixer.AudioRingBuffer.
Variable sp : Spatial.

Hypothesis ring_length :
  Z.of_nat (length (buffer otherAgentBuffer)) = RING_BUFFER_SAMPLES.
Hypothesis cursor_reachable : cursorReachable (nextOutput otherAgentBuffer).
Hypothesis delay_range : 0 <= samplesDelay sp <= PHASE_DELAY_AT_90.

(** Where the look-back pointer and the read cursor point, sample by
    sample. *)
Lemma lookback_addresses :
  let p := nextOutput otherAgentBuffer in
  let d := samplesDelay sp in
  (forall s, 0 <= s < d ->
     0 <= delaySamplePointer otherAgentBuffer d + s < RING_BUFFER_SAMPLES
     /\ delaySamplePointer otherAgentBuffer d + s
        = (p - d + s) mod RING_BUFFER_SAMPLES)
  /\ (1 <= d ->
      0 <= delaySamplePointer otherAgentBuffer d < RING_BUFFER_SAMPLES
      /\ delaySamplePointer otherAgentBuffer d
         = (p - d) mod RING_BUFFER_SAMPLES
      /\ (p - d < 0 <->
          delaySamplePointer otherAgentBuffer d = p - d + RING_BUFFER_SAMPLES))
  /\ (forall s, 0 <= s < BUFFER_LENGTH_SAMPLES_PER_CHANNEL ->
        0 <= p + s < RING_BUFFER_SAMPLES).
Proof.
  intros p d.
  destruct (cursorReachable_frame p cursor_reachable) as (k & Hk & Hp).
  pose proof delay_range as Hd. fold d in Hd.
  unfold delaySamplePointer. fold p.
  rewrite RING_BUFFER_SAMPLES_value.
  rewrite BUFFER_LENGTH_SAMPLES_PER_CHANNEL_value in Hp |- *.
  unfold RING_BUFFER_FRAMES in Hk. unfold PHASE_DELAY_AT_90 in Hd.
  destruct (Z.eqb_spec p 0) as [Hzero | Hnonzero].
  - rewrite Hzero. split; [|split].
    + intros s Hs. split; [lia|]. rewrite mod_below by lia. lia.
    + intros Hd1. split; [lia|]. split; [|lia].
      rewrite mod_below by lia. lia.
    + intros s Hs. lia.
  - assert (1 <= k) by lia. split; [|split].
    + intros s Hs. split; [lia|]. rewrite mod_inside by lia. lia.
    + intros Hd1. split; [lia|]. split; [|lia].
      rewrite mod_inside by lia. lia.
    + intros s Hs. lia.
Qed.

(** One turn of the sample loop reads and writes inside the blocks. *)
Lemma mixOneSample_runs (goodChannel delayedChannel s : Z)
    (clientSamples : list Z) :
  (goodChannel = 0 /\ delayedChannel = BUFFER_LENGTH_SAMPLES_PER_CHANNEL
   \/ goodChannel = BUFFER_LENGTH_SAMPLES_PER_CHANNEL /\ delayedChannel = 0) ->
  0 <= s < BUFFER_LENGTH_SAMPLES_PER_CHANNEL ->
  Z.of_nat (length clientSamples) = BUFFER_LENGTH_SAMPLES_PER_CHANNEL * 2 ->
  exists out,
    mixOneSample otherAgentBuffer sp goodChannel delayedChannel s clientSamples
    = Some out
    /\ length out = length clientSamples.
Proof.
  intros Hchannels Hs Hlen.
  destruct lookback_addresses as (Hback & _ & Hcurrent).
  pose proof delay_range as Hd.
  pose proof ring_length as Hring.
  rewrite BUFFER_LENGTH_SAMPLES_PER_CHANNEL_value in Hchannels, Hs, Hlen, Hcurrent.
  rewrite RING_BUFFER_SAMPLES_value in Hback, Hcurrent, Hring.
  unfold PHASE_DELAY_AT_90 in Hd.
  unfold mixOneSample.
  rewrite BUFFER_LENGTH_SAMPLES_PER_CHANNEL_value.
  set (d := samplesDelay sp) in *.
  assert (Hfirst : exists c1,
    (if s <? d then
       early <- peek (buffer otherAgentBuffer)
                     (delaySamplePointer otherAgentBuffer d + s) ;;
       plateauInto clientSamples (delayedChannel + s)
         (int16 (scaled (int32 (scaled early (attenuationCoefficient sp)))
                        (weakRatio sp)))
     else Some clientSamples) = Some c1
    /\ length c1 = length clientSamples).
  { destruct (Z.ltb_spec s d) as [Hlt | Hge].
    - destruct (Hback s) as (Hin & _); [lia|].
      rewrite peek_inside by lia. simpl bind.
      apply plateauInto_inside. lia.
    - exists clientSamples. now split. }
  destruct Hfirst as (c1 & -> & Hlen1). simpl bind.
  rewrite peek_inside by (rewrite Hring; apply Hcurrent; lia).
  simpl bind.
  destruct (plateauInto_inside c1 (goodChannel + s)
              (int16 (scaled (nth (Z.to_nat (nextOutput otherAgentBuffer + s))
                                  (buffer otherAgentBuffer) 0)
                             (attenuationCoefficient sp))))
    as (c2 & -> & Hlen2); [lia|].
  simpl bind.
  destruct (Z.ltb_spec (s + d) 256) as [Hlt | Hge].
  - destruct (plateauInto_inside c2 (delayedChannel + (s + d))
                (int16 (scaled
                          (int16 (scaled
                                    (nth (Z.to_nat (nextOutput otherAgentBuffer + s))
                                         (buffer otherAgentBuffer) 0)
                                    (attenuationCoefficient sp)))
                          (weakRatio sp))))
      as (c3 & -> & Hlen3); [lia|].
    exists c3. split; [reflexivity|congruence].
  - exists c2. split; [reflexivity|congruence].
Qed.

Lemma mixSamples_runs (goodChannel delayedChannel : Z) (n : nat) :
  (goodChannel = 0 /\ delayedChannel = BUFFER_LENGTH_SAMPLES_PER_CHANNEL
   \/ goodChannel = BUFFER_LENGTH_SAMPLES_PER_CHANNEL /\ delayedChannel = 0) ->
  forall (s : Z) (clientSamples : list Z),
    0 <= s -> s + Z.of_nat n <= BUFFER_LENGTH_SAMPLES_PER_CHANNEL ->
    Z.of_nat (length clientSamples) = BUFFER_LENGTH_SAMPLES_PER_CHANNEL * 2 ->
    exists out,
      mixSamples otherAgentBuffer sp goodChannel delayedChannel n s
                 clientSamples = Some out
      /\ length out = length clientSamples.
Proof.
  intros Hchannels.
  induction n as [|n IH]; intros s clientSamples Hs Hend Hlen; simpl.
  - exists clientSamples. now split.
  - destruct (mixOneSample_runs goodChannel delayedChannel s clientSamples)
      as (c1 & -> & Hlen1); try assumption; try lia.
    simpl bind.
    destruct (IH (s + 1) c1) as (out & Hout & Hlenout); try lia.
    exists out. split; [exact Hout|congruence].
Qed.

Lemma mixSource_runs (clientSamples : list Z) :
  Z.of_nat (length clientSamples) = BUFFER_LENGTH_SAMPLES_PER_CHANNEL * 2 ->
  exists out,
    mixSource otherAgentBuffer sp clientSamples = Some out
    /\ length out = length clientSamples.
Proof.
  intros Hlen. unfold mixSource.
  destruct (Rlt_dec 0 (bearingRelativeAngleToSource sp));
    apply mixSamples_runs; try assumption; try lia; tauto.
Qed.

End LookBackClaim.

Section LookBackTheorem.

(** C4, as the code has it.  For a source whose read cursor is at a
    position the loop can bring it to, and a delay [d] between 0 and 20:
    - every sample read through the look-back pointer, at
      [delaySamplePointer + s] for [0 <= s < d], is a cell of the ring,
      the one at [(cursor - d + s)] modulo the size of the ring;
    - for [d >= 1] the pointer itself is a cell of the ring, the one at
      [(cursor - d)] modulo the size of the ring: it is moved to the end
      of the ring exactly when the subtraction would precede the start
      of the block;
    - every sample read at the read cursor is a cell of the ring;
    - the whole sample loop runs without an access outside the ring or
      outside the client's samples. *)
Theorem lookback_inside_ring
    (otherAgentBuffer : Mixer.AudioRingBuffer) (sp : Spatial)
    (clientSamples : list Z) :
  Z.of_nat (length (buffer otherAgentBuffer)) = RING_BUFFER_SAMPLES ->
  cursorReachable (nextOutput otherAgentBuffer) ->
  0 <= samplesDelay sp <= PHASE_DELAY_AT_90 ->
  Z.of_nat (length clientSamples) = BUFFER_LENGTH_SAMPLES_PER_CHANNEL * 2 ->
  let p := nextOutput otherAgentBuffer in
  let d := samplesDelay sp in
  (forall s, 0 <= s < d ->
     0 <= delaySamplePointer otherAgentBuffer d + s < RING_BUFFER_SAMPLES
     /\ delaySamplePointer otherAgentBuffer d + s
        = (p - d + s) mod RING_BUFFER_SAMPLES)
  /\ (1 <= d ->
      0 <= delaySamplePointer otherAgentBuffer d < RING_BUFFER_SAMPLES
      /\ delaySamplePointer otherAgentBuffer d
         = (p - d) mod RING_BUFFER_SAMPLES
      /\ (p - d < 0 <->
          delaySamplePointer otherAgentBuffer d = p - d + RING_BUFFER_SAMPLES))
  /\ (forall s, 0 <= s < BUFFER_LENGTH_SAMPLES_PER_CHANNEL ->
        0 <= p + s < RING_BUFFER_SAMPLES)
  /\ exists out,
       mixSource otherAgentBuffer sp clientSamples = Some out
       /\ length out = length clientSamples.
Proof.
  intros Hring Hcursor Hdelay Hclient p d.
  destruct (lookback_addresses otherAgentBuffer sp Hcursor Hdelay)
    as (Hback & Hpointer & Hcurrent).
  split; [exact Hback|]. split; [exact Hpointer|]. split; [exact Hcurrent|].
  now apply mixSource_runs.
Qed.

(** The theorem on a source whose read cursor is at the second frame,
    with the largest delay. *)
Lemma lookback_inside_ring_witness :
  let source :=
    {| buffer := repeat 5 2560; nextOutput := 256;
       endOfLastWrite := Some 1024; started := true;
       shouldBeAddedToMix := true; shouldLoopbackForAgent := false;
       position := mkVec3 1 0 0; bearing := 0%R;
       attenuationRatio := 1%R |} in
  let sp :=
    {| bearingRelativeAngleToSource := 1%R; attenuationCoefficient := 1%R;
       samplesDelay := 20; weakRatio := (1 / 2)%R |} in
  cursorReachable (nextOutput source)
  /\ 0 <= samplesDelay sp <= PHASE_DELAY_AT_90
  /\ 0 <= delaySamplePointer source 20 < RING_BUFFER_SAMPLES
  /\ exists out, mixSource source sp silence = Some out
                 /\ length out = length silence.
Proof.
  intros source sp.
  assert (Hcursor : cursorReachable (nextOutput source))
    by exact (reach_advance 0 reach_origin).
  assert (Hdelay : 0 <= samplesDelay sp <= PHASE_DELAY_AT_90)
    by (unfold PHASE_DELAY_AT_90; simpl; lia).
  split; [exact Hcursor|]. split; [exact Hdelay|].
  destruct (lookback_inside_ring source sp silence eq_refl Hcursor Hdelay
              eq_refl) as (_ & Hpointer & _ & Hruns).
  split; [|exact Hruns].
  apply Hpointer. simpl. lia.
Defined.

(** C4 fails as stated for the delay 0 with the read cursor at the
    start of the block, which is where it is at first: the pointer is
    then the end of the block, [RING_BUFFER_SAMPLES] samples from its
    start, which is no cell of the ring. *)
Lemma lookback_counterexample :
  let source :=
    {| buffer := repeat 5 2560; nextOutput := 0;
       endOfLastWrite := Some 1024; started := true;
       shouldBeAddedToMix := true; shouldLoopbackForAgent := false;
       position := mkVec3 1 0 0; bearing := 0%R;
       attenuationRatio := 1%R |} in
  cursorReachable (nextOutput source)
  /\ 0 <= 0 <= PHASE_DELAY_AT_90
  /\ delaySamplePointer source 0 = RING_BUFFER_SAMPLES
  /\ Z.of_nat (length (buffer source)) = RING_BUFFER_SAMPLES
  /\ peek (buffer source) (delaySamplePointer source 0) = None.
Proof.
  intros source.
  split; [exact reach_origin|].
  split; [unfold PHASE_DELAY_AT_90; lia|].
  repeat split.
Qed.

End LookBackTheorem.

Section DelayFacts.

Local Open Scope R_scope.

(** Truncation of a real that is not negative: the integer just below. *)
Lemma truncR_floor (x : R) :
  0 <= x -> IZR (truncR x) <= x < IZR (truncR x) + 1.
Proof.
  intros Hx. unfold truncR.
  destruct (Rle_dec 0 x) as [_ | Hneg]; [|contradiction].
  destruct (base_Int_part x) as (Hle & Hgt). lra.
Qed.

Lemma sinRatio_range (a : R) : 0 <= sinRatio a <= 1.
Proof.
  unfold sinRatio. split; [apply Rabs_pos|].
  apply Rabs_le. apply SIN_bound.
Qed.

(** The delay is between 0 and [PHASE_DELAY_AT_90] samples. *)
Lemma numSamplesDelay_range (a : R) :
  (0 <= numSamplesDelay a <= PHASE_DELAY_AT_90)%Z.
Proof.
  pose proof (sinRatio_range a) as Hk.
  unfold numSamplesDelay, PHASE_DELAY_AT_90.
  assert (Hx : 0 <= 20 * sinRatio a <= 20) by lra.
  destruct (truncR_floor (20 * sinRatio a)) as (Hlo & Hhi); [lra|].
  split.
  - apply le_IZR. apply Rnot_lt_le. intros Hneg.
    assert (IZR (truncR (20 * sinRatio a)) <= -1).
    { apply IZR_le. apply lt_IZR in Hneg. lia. }
    lra.
  - apply le_IZR. lra.
Qed.

End DelayFacts.

Section DistanceClaim.

Local Open Scope R_scope.

Lemma DISTANCE_RATIO_value : DISTANCE_RATIO = 10.
Proof. unfold DISTANCE_RATIO. field. Qed.

Lemma ln_3_pos : 0 < ln 3.
Proof. rewrite <- ln_1. apply ln_increasing; lra. Qed.

Lemma ln_half_neg : ln (1 / 2) < 0.
Proof. rewrite <- ln_1. apply ln_increasing; lra. Qed.

Lemma ln_le_positive (x y : R) : 0 < x -> x <= y -> ln x <= ln y.
Proof.
  intros Hx [Hlt | ->]; [|lra].
  left. now apply ln_increasing.
Qed.

(** A power of 1/2 does not grow with the exponent. *)
Lemma Rpower_half_antitone (e1 e2 : R) :
  e1 <= e2 -> Rpower (1 / 2) e2 <= Rpower (1 / 2) e1.
Proof.
  intros [Hlt | ->]; [|lra].
  left. unfold Rpower. apply exp_increasing.
  pose proof ln_half_neg. nra.
Qed.

(** The exponent of the coefficient grows with the distance. *)
Lemma exponent_monotone (d1 d2 : R) :
  0 < d1 -> d1 <= d2 ->
  ln (DISTANCE_RATIO * d1) / ln 3 - 1 <= ln (DISTANCE_RATIO * d2) / ln 3 - 1.
Proof.
  intros Hd1 Hle. rewrite DISTANCE_RATIO_value.
  assert (Hln : ln (10 * d1) <= ln (10 * d2))
    by (apply ln_le_positive; lra).
  pose proof ln_3_pos as H3.
  unfold Rdiv. apply Rplus_le_compat_r.
  apply Rmult_le_compat_r; [|exact Hln].
  left. now apply Rinv_0_lt_compat.
Qed.


(** C8.  The coefficient [min(1, 0.5^(log_3(10 d) - 1))] does not grow
    with the distance [d > 0], and is 1 at [d = 0.1]. *)
Theorem distance_coefficient_monotone (d1 d2 : R) :
  0 < d1 -> d1 <= d2 ->
  minCoefficient d2 <= minCoefficient d1
  /\ minCoefficient (1 / 10) = 1
  /\ DISTANCE_RATIO = 10.
Proof.
  intros Hd1 Hle. split; [|split; [|apply DISTANCE_RATIO_value]].
  - unfold minCoefficient.
    apply Rle_min_compat_l. apply Rpower_half_antitone.
    now apply exponent_monotone.
  - unfold minCoefficient. rewrite DISTANCE_RATIO_value.
    replace (10 * (1 / 10)) with 1 by field.
    rewrite ln_1.
    replace (0 / ln 3 - 1) with (- (1)) by (unfold Rdiv; ring).
    rewrite Rpower_Ropp, Rpower_1 by lra.
    apply Rmin_left. lra.
Qed.

(** The theorem between the distances 1 and 2. *)
Lemma distance_coefficient_monotone_witness :
  0 < 1 /\ 1 <= 2 /\ minCoefficient 2 <= minCoefficient 1.
Proof.
  assert (H1 : 0 < 1) by lra.
  assert (H2 : 1 <= 2) by lra.
  split; [exact H1|]. split; [exact H2|].
  exact (proj1 (distance_coefficient_monotone 1 2 H1 H2)).
Defined.

End DistanceClaim.

(** * Further properties of the ring buffer *)

Section ShiftFacts.

(** A shift by at most the capacity, either way, from a position inside
    the ring, is the sum modulo the capacity. *)
Lemma shifted_modulo (b : Ring.AudioRingBuffer) (position n : Z) :
  0 <= position < _sampleCapacity b ->
  - _sampleCapacity b <= n <= _sampleCapacity b ->
  shiftedPositionAccomodatingWrap b position n
  = (position + n) mod _sampleCapacity b.
Proof.
  intros Hp Hn. unfold shiftedPositionAccomodatingWrap.
  destruct (Z.gtb_spec n 0);
    destruct (Z.geb_spec (position + n) (_sampleCapacity b));
    destruct (Z.ltb_spec n 0);
    destruct (Z.ltb_spec (position + n) 0); simpl; try lia.
  all: first [ rewrite mod_inside by lia; reflexivity
             | rewrite mod_above by lia; reflexivity
             | rewrite mod_below by lia; reflexivity ].
Qed.

(** Shifts of a position of the ring by at most the capacity stay in the
    ring and compose: shifting by [n1] and then by [n2] is shifting by
    [n1 + n2], whenever that sum is itself at most the capacity either
    way; in particular a shift is undone by the opposite shift. *)
Theorem shifts_compose (b : Ring.AudioRingBuffer) (position n1 n2 : Z) :
  0 <= position < _sampleCapacity b ->
  - _sampleCapacity b <= n1 <= _sampleCapacity b ->
  - _sampleCapacity b <= n2 <= _sampleCapacity b ->
  0 <= shiftedPositionAccomodatingWrap b position n1 < _sampleCapacity b
  /\ (- _sampleCapacity b <= n1 + n2 <= _sampleCapacity b ->
      shiftedPositionAccomodatingWrap b
        (shiftedPositionAccomodatingWrap b position n1) n2
      = shiftedPositionAccomodatingWrap b position (n1 + n2))
  /\ shiftedPositionAccomodatingWrap b
       (shiftedPositionAccomodatingWrap b position n1) (- n1)
     = position.
Proof.
  intros Hp Hn1 Hn2.
  assert (Hin : 0 <= (position + n1) mod _sampleCapacity b < _sampleCapacity b)
    by (apply Z.mod_pos_bound; lia).
  rewrite (shifted_modulo b position n1) by lia.
  split; [exact Hin|]. split.
  - intros Hsum. rewrite !shifted_modulo by lia.
    rewrite Zplus_mod_idemp_l. f_equal. lia.
  - rewrite shifted_modulo by lia.
    rewrite Zplus_mod_idemp_l.
    replace (position + n1 + - n1) with position by lia.
    apply mod_inside. lia.
Qed.

Lemma shifts_compose_witness :
  let b := {| _sampleCapacity := 10; _numFrameSamples := 1;
              _isStarved := true; _hasStarted := false;
              _randomAccessMode := false;
              _buffer := Some (repeat 0 10);
              _nextOutput := 0; _endOfLastWrite := 0 |} in
  shiftedPositionAccomodatingWrap b (shiftedPositionAccomodatingWrap b 7 6) (-9)
  = shiftedPositionAccomodatingWrap b 7 (6 + -9).
Proof.
  intros b.
  refine (proj1 (proj2 (shifts_compose b 7 6 (-9) _ _ _)) _);
    unfold b; simpl; lia.
Defined.

(** A shift by more than the capacity is not brought back into the ring:
    the capacity is subtracted once only. *)
Theorem shift_beyond_capacity (b : Ring.AudioRingBuffer) (position n : Z) :
  0 <= position < _sampleCapacity b ->
  2 * _sampleCapacity b <= position + n ->
  shiftedPositionAccomodatingWrap b position n
  = position + n - _sampleCapacity b
  /\ _sampleCapacity b <= shiftedPositionAccomodatingWrap b position n.
Proof.
  intros Hp Hn. unfold shiftedPositionAccomodatingWrap.
  destruct (Z.gtb_spec n 0);
    destruct (Z.geb_spec (position + n) (_sampleCapacity b)); simpl; lia.
Qed.

Lemma shift_beyond_capacity_witness :
  let b := {| _sampleCapacity := 10; _numFrameSamples := 1;
              _isStarved := true; _hasStarted := false;
              _randomAccessMode := false;
              _buffer := Some (repeat 0 10);
              _nextOutput := 0; _endOfLastWrite := 0 |} in
  shiftedPositionAccomodatingWrap b 3 25 = 3 + 25 - _sampleCapacity b
  /\ _sampleCapacity b <= shiftedPositionAccomodatingWrap b 3 25.
Proof.
  intros b. apply (shift_beyond_capacity b 3 25); unfold b; simpl; lia.
Defined.

End ShiftFacts.

Section CellFacts.

Lemma samplesAvailable_modulo (b : Ring.AudioRingBuffer) :
  ring_ok b ->
  samplesAvailable b
  = (_endOfLastWrite b - _nextOutput b) mod _sampleCapacity b
  /\ 0 <= samplesAvailable b < _sampleCapacity b.
Proof.
  intros [Hcap (mem & Hmem & Hlen) Hnext Hend].
  rewrite (samplesAvailable_distance b mem) by (assumption || lia).
  destruct (Z.ltb_spec (_endOfLastWrite b - _nextOutput b) 0).
  - rewrite mod_below by lia. lia.
  - rewrite mod_inside by lia. lia.
Qed.

(** The cells of the block after [writeData]: the [n] cells from the
    write cursor on, around the ring, hold the samples written, in
    order; the others are as before. *)
Lemma writeData_cells (b : Ring.AudioRingBuffer) (data : list Z) (maxSize : Z) :
  ring_ok b -> 0 <= maxSize < 2 ^ 64 ->
  maxSize / 2 <= Z.of_nat (length data) ->
  let n := samplesToCopy b maxSize in
  let b1 := if writeCrossesNextOutput b n then reset b else b in
  exists mem mem',
    _buffer b = Some mem
    /\ writeData data maxSize b
       = Some (n * SIZEOF_INT16,
               set_endOfLastWrite
                 ((_endOfLastWrite b1 + n) mod _sampleCapacity b)
                 (set_buffer mem' b1))
    /\ Z.of_nat (length mem') = _sampleCapacity b
    /\ forall j : nat,
         Z.of_nat j < _sampleCapacity b ->
         nth j mem' 0
         = if (Z.of_nat j - _endOfLastWrite b1) mod _sampleCapacity b <? n
           then nth (Z.to_nat ((Z.of_nat j - _endOfLastWrite b1)
                               mod _sampleCapacity b)) data 0
           else nth j mem 0.
Proof.
  intros [Hcap (mem & Hmem & Hlen) Hnext Hend] Hsize Hdata n b1.
  assert (Hn : n = Z.min (maxSize / 2) (_sampleCapacity b))
    by (apply samplesToCopy_clamped; lia).
  assert (Hn0 : 0 <= maxSize / 2) by (apply Z.div_pos; lia).
  assert (Hb1 : _sampleCapacity b1 = _sampleCapacity b
                /\ _buffer b1 = Some mem
                /\ 0 <= _endOfLastWrite b1 < _sampleCapacity b).
  { unfold b1. destruct (writeCrossesNextOutput b n); simpl; repeat split;
      try assumption; lia. }
  destruct Hb1 as (Hcap1 & Hmem1 & Hend1).
  exists mem.
  unfold writeData. fold n. fold b1. rewrite Hmem1, Hcap1.
  assert (Hshift :
    shiftedPositionAccomodatingWrap b1 (_endOfLastWrite b1) n
    = (_endOfLastWrite b1 + n) mod _sampleCapacity b).
  { rewrite <- Hcap1. apply shifted_forward; lia. }
  rewrite Hshift.
  set (c := _sampleCapacity b) in *. set (e := _endOfLastWrite b1) in *.
  destruct (Z.leb_spec (e + n) c) as [Hfit | Hwrap].
  - unfold memcpy.
    destruct (load data 0 n) as [chunk|] eqn:Hchunk;
      [|rewrite load_inside in Hchunk by lia; discriminate].
    pose proof (load_length _ _ _ _ Hchunk) as Hchunklen.
    simpl bind.
    destruct (store mem e chunk) as [mem'|] eqn:Hst;
      [|rewrite store_inside in Hst by lia; discriminate].
    exists mem'. simpl bind. split; [exact Hmem|]. split; [reflexivity|].
    split; [rewrite (store_length _ _ _ _ Hst); exact Hlen|].
    intros j Hj. rewrite (store_nth _ _ _ _ j Hst), Hchunklen.
    rewrite from_cursor by lia.
    destruct (Z.leb_spec e (Z.of_nat j));
      destruct (Z.ltb_spec (Z.of_nat j) (e + n)); simpl;
      match goal with
      | |- context [?x <? n] => destruct (Z.ltb_spec x n)
      end; try reflexivity; try lia.
    rewrite (load_nth _ _ _ _ _ Hchunk) by lia. f_equal. lia.
  - set (toEnd := c - e).
    unfold memcpy.
    destruct (load data 0 toEnd) as [head|] eqn:Hhead;
      [|rewrite load_inside in Hhead by lia; discriminate].
    pose proof (load_length _ _ _ _ Hhead) as Hheadlen.
    simpl bind.
    destruct (store mem e head) as [mem1|] eqn:Hst1;
      [|rewrite store_inside in Hst1 by lia; discriminate].
    pose proof (store_length _ _ _ _ Hst1) as Hlen1.
    simpl bind.
    destruct (load data toEnd (n - toEnd)) as [rest|] eqn:Hrest;
      [|rewrite load_inside in Hrest by lia; discriminate].
    pose proof (load_length _ _ _ _ Hrest) as Hrestlen.
    simpl bind.
    destruct (store mem1 0 rest) as [mem'|] eqn:Hst2;
      [|rewrite store_inside in Hst2 by lia; discriminate].
    exists mem'. simpl bind. split; [exact Hmem|]. split; [reflexivity|].
    split; [rewrite (store_length _ _ _ _ Hst2); lia|].
    intros j Hj.
    rewrite (store_nth _ _ _ _ j Hst2), (store_nth _ _ _ _ j Hst1).
    rewrite Hrestlen, Hheadlen.
    rewrite from_cursor by lia.
    destruct (Z.leb_spec 0 (Z.of_nat j));
      destruct (Z.ltb_spec (Z.of_nat j) (0 + (n - toEnd)));
      destruct (Z.leb_spec e (Z.of_nat j));
      destruct (Z.ltb_spec (Z.of_nat j) (e + toEnd)); simpl;
      match goal with
      | |- context [?x <? n] => destruct (Z.ltb_spec x n)
      end; try reflexivity; try lia.
    + rewrite (load_nth _ _ _ _ _ Hrest) by lia. f_equal. lia.
    + rewrite (load_nth _ _ _ _ _ Hhead) by lia. f_equal. lia.
Qed.

(** [readData] in normal mode: the samples returned are the cells from
    the read cursor on, as many as asked for and available; the block is
    left as it is and the read cursor moves on. *)
Lemma readData_cells (b : Ring.AudioRingBuffer) (maxSize : Z) :
  ring_ok b -> _randomAccessMode b = false ->
  let k := Z.min (uint32 (uint64 maxSize / SIZEOF_INT16)) (samplesAvailable b) in
  exists mem data,
    _buffer b = Some mem
    /\ readData maxSize b
       = Some (k * SIZEOF_INT16, data,
               set_nextOutput ((_nextOutput b + k) mod _sampleCapacity b)
                              (set_buffer mem b))
    /\ Z.of_nat (length data) = k
    /\ forall i : nat, Z.of_nat i < k -> nth i data 0 = cell b mem (Z.of_nat i).
Proof.
  intros Hok Hmode k.
  destruct (samplesAvailable_modulo b Hok) as (_ & Havail).
  destruct Hok as [Hcap (mem & Hmem & Hlen) Hnext Hend].
  pose proof (uint32_bounds (uint64 maxSize / SIZEOF_INT16)) as Hreq.
  assert (Hk : 0 <= k <= samplesAvailable b) by (unfold k; lia).
  exists mem.
  unfold readData. rewrite Hmode, Hmem. fold k.
  rewrite (int32_in_range k) by lia.
  rewrite shifted_forward by lia.
  set (c := _sampleCapacity b) in *. set (next := _nextOutput b) in *.
  unfold cell. fold c. fold next.
  destruct (Z.gtb_spec (next + k) c) as [Hwrap | Hfit].
  - set (toEnd := c - next).
    destruct (load mem next toEnd) as [head|] eqn:Hhead;
      [|rewrite load_inside in Hhead by lia; discriminate].
    simpl bind.
    destruct (load mem 0 (k - toEnd)) as [tail|] eqn:Htail;
      [|rewrite load_inside in Htail by lia; discriminate].
    simpl bind.
    pose proof (load_length _ _ _ _ Hhead) as Hheadlen.
    pose proof (load_length _ _ _ _ Htail) as Htaillen.
    exists (head ++ tail). split; [reflexivity|]. split; [reflexivity|].
    split; [rewrite length_app; lia|].
    intros i Hi. destruct (Z.ltb_spec (Z.of_nat i) toEnd) as [Hlo | Hhi].
    + rewrite app_nth1 by lia.
      rewrite (load_nth _ _ _ _ i Hhead) by lia.
      rewrite mod_inside by lia. f_equal. lia.
    + rewrite app_nth2 by lia.
      rewrite (load_nth _ _ _ _ _ Htail) by lia.
      rewrite mod_above by lia. f_equal. lia.
  - destruct (load mem next k) as [chunk|] eqn:Hchunk;
      [|rewrite load_inside in Hchunk by lia; discriminate].
    simpl bind.
    exists chunk. split; [reflexivity|]. split; [reflexivity|].
    split; [eapply load_length; eassumption|].
    intros i Hi. rewrite (load_nth _ _ _ _ i Hchunk) by lia.
    rewrite mod_inside by lia. f_equal. lia.
Qed.

End CellFacts.

Section QueueFacts.

Lemma unread_cells (b : Ring.AudioRingBuffer) (mem : list Z) :
  _buffer b = Some mem -> 0 <= samplesAvailable b ->
  Z.of_nat (length (unread b)) = samplesAvailable b
  /\ forall i : nat,
       Z.of_nat i < samplesAvailable b ->
       nth i (unread b) 0 = cell b mem (Z.of_nat i).
Proof.
  intros Hmem Havail. unfold unread. rewrite Hmem.
  split; [rewrite length_map, length_seq; lia|].
  intros i Hi.
  rewrite nth_indep with (d' := cell b mem (Z.of_nat 0))
    by (rewrite length_map, length_seq; lia).
  rewrite (map_nth (fun i => cell b mem (Z.of_nat i))).
  rewrite seq_nth by lia. reflexivity.
Qed.

(** With room for them, the samples written are never taken to cross the
    read cursor. *)
Lemma room_no_crossing (b : Ring.AudioRingBuffer) (n : Z) :
  ring_ok b -> 0 <= n -> samplesAvailable b + n < _sampleCapacity b ->
  writeCrossesNextOutput b n = false.
Proof.
  intros Hok Hn Hroom.
  destruct (writeCrossesNextOutput b n) eqn:Hcross; [|reflexivity].
  destruct Hok as [Hcap (mem & Hmem & Hlen) Hnext Hend].
  rewrite (samplesAvailable_distance b mem) in Hroom by (assumption || lia).
  destruct (Z.ltb_spec (_endOfLastWrite b - _nextOutput b) 0);
    apply writeCrossesNextOutput_spec in Hcross; lia.
Qed.

Lemma writeSamples_queue (b : Ring.AudioRingBuffer) (samples : list Z) :
  ring_ok b ->
  samplesAvailable b + Z.of_nat (length samples) < _sampleCapacity b ->
  exists b',
    writeSamples samples (Z.of_nat (length samples)) b
    = Some (Z.of_nat (length samples) * SIZEOF_INT16, b')
    /\ ring_ok b'
    /\ unread b' = unread b ++ samples
    /\ samplesAvailable b'
       = samplesAvailable b + Z.of_nat (length samples)
    /\ _nextOutput b' = _nextOutput b
    /\ _isStarved b' = _isStarved b
    /\ _hasStarted b' = _hasStarted b
    /\ _randomAccessMode b' = _randomAccessMode b
    /\ _sampleCapacity b' = _sampleCapacity b.
Proof.
  intros Hok Hroom.
  set (n := Z.of_nat (length samples)) in *.
  destruct (samplesAvailable_modulo b Hok) as (Hmod & Havail).
  pose proof Hok as [Hcap _ Hnext Hend].
  assert (Hhalf : n * SIZEOF_INT16 / 2 = n)
    by (unfold SIZEOF_INT16; apply Z.div_mul; lia).
  assert (Hcopy : samplesToCopy b (n * SIZEOF_INT16) = n).
  { rewrite samplesToCopy_clamped by (unfold SIZEOF_INT16; lia).
    rewrite Hhalf. lia. }
  assert (Hno : writeCrossesNextOutput b n = false)
    by (apply room_no_crossing; [assumption|lia|lia]).
  destruct (writeData_cells b samples (n * SIZEOF_INT16) Hok)
    as (mem & mem' & Hmem & Hwrite & Hlen' & Hcells).
  { unfold SIZEOF_INT16. lia. }
  { rewrite Hhalf. unfold n. lia. }
  rewrite Hcopy, Hno in Hwrite, Hcells.
  set (c := _sampleCapacity b) in *.
  set (b' := set_endOfLastWrite ((_endOfLastWrite b + n) mod c)
                                (set_buffer mem' b)) in *.
  assert (Hok' : ring_ok b').
  { constructor; simpl; try assumption.
    - exists mem'. now split.
    - apply Z.mod_pos_bound. lia. }
  assert (Havail' : samplesAvailable b' = samplesAvailable b + n).
  { destruct (samplesAvailable_modulo b' Hok') as (-> & _). simpl.
    fold c. rewrite Zminus_mod_idemp_l.
    replace (_endOfLastWrite b + n - _nextOutput b)
      with (_endOfLastWrite b - _nextOutput b + n) by lia.
    rewrite <- Zplus_mod_idemp_l, <- Hmod.
    apply mod_inside. lia. }
  exists b'. unfold writeSamples. fold n.
  split; [exact Hwrite|]. split; [exact Hok'|].
  split; [|split; [exact Havail'|repeat split]].
  destruct (unread_cells b mem Hmem) as (Hlen0 & Hnth0); [lia|].
  destruct (unread_cells b' mem' eq_refl) as (Hlen1 & Hnth1); [lia|].
  apply nth_ext with (d := 0) (d' := 0).
  - rewrite length_app. lia.
  - intros i Hi. rewrite Hnth1 by lia. unfold cell. simpl. fold c.
    assert (Hcell : 0 <= (_nextOutput b + Z.of_nat i) mod c < c)
      by (apply Z.mod_pos_bound; lia).
    rewrite <- (Nat2Z.id (Z.to_nat ((_nextOutput b + Z.of_nat i) mod c))) at 1.
    rewrite Hcells by lia.
    rewrite !Z2Nat.id by lia.
    assert (Hpos : ((_nextOutput b + Z.of_nat i) mod c - _endOfLastWrite b) mod c
                   = (Z.of_nat i - samplesAvailable b) mod c).
    { rewrite Zminus_mod_idemp_l, Hmod, Zminus_mod_idemp_r. f_equal. lia. }
    rewrite Hpos.
    destruct (Z.ltb_spec (Z.of_nat i) (samplesAvailable b)) as [Hold | Hnew].
    + rewrite mod_below by lia.
      replace (Z.of_nat i - samplesAvailable b + c <? n) with false
        by (symmetry; apply Z.ltb_ge; lia).
      rewrite app_nth1 by lia. rewrite Hnth0 by lia. reflexivity.
    + rewrite mod_inside by lia.
      replace (Z.of_nat i - samplesAvailable b <? n) with true
        by (symmetry; apply Z.ltb_lt; lia).
      rewrite app_nth2 by lia. f_equal. lia.
Qed.

(** The ring is a queue.  A write of [n] samples into a ring with room
    for them ([available + n < capacity]) goes through, resets nothing,
    and adds the samples, in order, after the ones the ring holds unread;
    the read cursor and the flags are left as they are. *)
Theorem write_appends (b : Ring.AudioRingBuffer) (samples : list Z) :
  ring_ok b ->
  samplesAvailable b + Z.of_nat (length samples) < _sampleCapacity b ->
  exists b',
    writeSamples samples (Z.of_nat (length samples)) b
    = Some (Z.of_nat (length samples) * SIZEOF_INT16, b')
    /\ ring_ok b'
    /\ unread b' = unread b ++ samples
    /\ samplesAvailable b'
       = samplesAvailable b + Z.of_nat (length samples)
    /\ _nextOutput b' = _nextOutput b
    /\ _isStarved b' = _isStarved b
    /\ _hasStarted b' = _hasStarted b
    /\ _randomAccessMode b' = _randomAccessMode b
    /\ _sampleCapacity b' = _sampleCapacity b.
Proof. exact (writeSamples_queue b samples). Qed.

Lemma write_appends_witness :
  let b := {| _sampleCapacity := 10; _numFrameSamples := 1;
              _isStarved := true; _hasStarted := true;
              _randomAccessMode := false;
              _buffer := Some [1; 2; 3; 4; 5; 6; 7; 8; 9; 10];
              _nextOutput := 7; _endOfLastWrite := 9 |} in
  ring_ok b
  /\ samplesAvailable b + Z.of_nat (length [21; 22; 23]) < _sampleCapacity b
  /\ exists b',
       writeSamples [21; 22; 23] 3 b = Some (3 * SIZEOF_INT16, b')
       /\ unread b' = unread b ++ [21; 22; 23].
Proof.
  intros b.
  assert (Hok : ring_ok b).
  { constructor; unfold b; simpl; try lia. eexists. split; reflexivity. }
  assert (Hroom : samplesAvailable b + Z.of_nat (length [21; 22; 23])
                  < _sampleCapacity b) by reflexivity.
  split; [exact Hok|]. split; [exact Hroom|].
  destruct (write_appends b [21; 22; 23] Hok Hroom)
    as (b' & Hwrite & _ & Hunread & _).
  exists b'. split; [exact Hwrite|exact Hunread].
Defined.

Lemma readSamples_queue (b : Ring.AudioRingBuffer) (maxSamples : Z) :
  ring_ok b -> _randomAccessMode b = false -> 0 <= maxSamples < 2 ^ 31 ->
  let k := Z.min maxSamples (samplesAvailable b) in
  exists b',
    readSamples maxSamples b
    = Some (k * SIZEOF_INT16, firstn (Z.to_nat k) (unread b), b')
    /\ ring_ok b'
    /\ unread b' = skipn (Z.to_nat k) (unread b)
    /\ samplesAvailable b' = samplesAvailable b - k
    /\ _buffer b' = _buffer b
    /\ _endOfLastWrite b' = _endOfLastWrite b
    /\ _isStarved b' = _isStarved b
    /\ _hasStarted b' = _hasStarted b
    /\ _randomAccessMode b' = _randomAccessMode b
    /\ _sampleCapacity b' = _sampleCapacity b.
Proof.
  intros Hok Hmode Hmax k.
  destruct (samplesAvailable_modulo b Hok) as (Hmod & Havail).
  pose proof Hok as [Hcap _ Hnext Hend].
  destruct (readData_cells b (maxSamples * SIZEOF_INT16) Hok Hmode)
    as (mem & data & Hmem & Hread & Hlen & Hdata).
  assert (Hreq : uint32 (uint64 (maxSamples * SIZEOF_INT16) / SIZEOF_INT16)
                 = maxSamples).
  { unfold SIZEOF_INT16. rewrite uint64_in_range by lia.
    rewrite Z.div_mul by lia. apply uint32_in_range. lia. }
  rewrite Hreq in Hread, Hlen, Hdata. fold k in Hread, Hlen, Hdata.
  assert (Hk : 0 <= k <= samplesAvailable b) by (unfold k; lia).
  set (c := _sampleCapacity b) in *.
  set (b' := set_nextOutput ((_nextOutput b + k) mod c) (set_buffer mem b)) in *.
  assert (Hok' : ring_ok b').
  { constructor; simpl; try assumption.
    - destruct Hok as [_ (mem0 & Hmem0 & Hlen0) _ _].
      rewrite Hmem in Hmem0. injection Hmem0 as <-.
      exists mem. now split.
    - apply Z.mod_pos_bound. lia. }
  assert (Havail' : samplesAvailable b' = samplesAvailable b - k).
  { destruct (samplesAvailable_modulo b' Hok') as (-> & _). simpl.
    fold c. rewrite Zminus_mod_idemp_r.
    replace (_endOfLastWrite b - (_nextOutput b + k))
      with (_endOfLastWrite b - _nextOutput b - k) by lia.
    rewrite <- Zminus_mod_idemp_l, <- Hmod.
    apply mod_inside. lia. }
  destruct (unread_cells b mem Hmem) as (Hlen0 & Hnth0); [lia|].
  destruct (unread_cells b' mem eq_refl) as (Hlen1 & Hnth1); [lia|].
  exists b'. unfold readSamples.
  assert (Hfront : data = firstn (Z.to_nat k) (unread b)).
  { apply nth_ext with (d := 0) (d' := 0).
    - rewrite length_firstn. lia.
    - intros i Hi. rewrite Hdata by lia.
      rewrite nth_firstn.
      replace (i <? Z.to_nat k)%nat with true
        by (symmetry; apply Nat.ltb_lt; lia).
      rewrite Hnth0 by lia. reflexivity. }
  rewrite <- Hfront.
  split; [exact Hread|]. split; [exact Hok'|].
  split; [|split; [exact Havail'|]].
  - apply nth_ext with (d := 0) (d' := 0).
    + rewrite length_skipn. lia.
    + intros i Hi. rewrite Hnth1 by lia.
      rewrite nth_skipn, Hnth0 by lia.
      unfold cell. simpl. fold c.
      rewrite Zplus_mod_idemp_l.
      replace (Z.of_nat (Z.to_nat k + i)) with (k + Z.of_nat i) by lia.
      now rewrite Z.add_assoc.
  - simpl. rewrite Hmem. repeat split.
Qed.



End QueueFacts.

Section QueueUses.

Lemma unread_empty (b : Ring.AudioRingBuffer) :
  samplesAvailable b = 0 -> unread b = [].
Proof.
  intros Hnone. unfold unread. rewrite Hnone.
  now destruct (_buffer b).
Qed.

(** What is written to an empty ring in normal mode, fewer samples than
    the capacity, is what the next read of as many samples returns, also
    when the samples lie around the end of the block; the ring is empty
    again afterwards. *)
Theorem write_then_read (b : Ring.AudioRingBuffer) (samples : list Z) :
  ring_ok b -> _randomAccessMode b = false -> samplesAvailable b = 0 ->
  Z.of_nat (length samples) < _sampleCapacity b ->
  exists b1 b2,
    writeSamples samples (Z.of_nat (length samples)) b
    = Some (Z.of_nat (length samples) * SIZEOF_INT16, b1)
    /\ readSamples (Z.of_nat (length samples)) b1
       = Some (Z.of_nat (length samples) * SIZEOF_INT16, samples, b2)
    /\ samplesAvailable b2 = 0.
Proof.
  intros Hok Hmode Hempty Hroom.
  pose proof Hok as [Hcap _ _ _].
  destruct (writeSamples_queue b samples Hok) as
    (b1 & Hwrite & Hok1 & Hunread1 & Havail1 & _ & _ & _ & Hmode1 & _); [lia|].
  rewrite (unread_empty b Hempty) in Hunread1. simpl in Hunread1.
  destruct (readSamples_queue b1 (Z.of_nat (length samples)) Hok1)
    as (b2 & Hread & _ & _ & Havail2 & _); [congruence|lia|].
  rewrite Havail1, Hempty in Hread, Havail2. simpl Z.add in Hread, Havail2.
  rewrite Z.min_id in Hread, Havail2.
  rewrite Hunread1, Nat2Z.id, firstn_all in Hread.
  exists b1, b2. split; [exact Hwrite|]. split; [exact Hread|]. lia.
Qed.

Lemma write_then_read_witness :
  let b := {| _sampleCapacity := 10; _numFrameSamples := 1;
              _isStarved := true; _hasStarted := false;
              _randomAccessMode := false;
              _buffer := Some [1; 2; 3; 4; 5; 6; 7; 8; 9; 10];
              _nextOutput := 8; _endOfLastWrite := 8 |} in
  ring_ok b /\ samplesAvailable b = 0
  /\ exists b1 b2,
       writeSamples [21; 22; 23; 24] 4 b = Some (4 * SIZEOF_INT16, b1)
       /\ readSamples 4 b1 = Some (4 * SIZEOF_INT16, [21; 22; 23; 24], b2)
       /\ samplesAvailable b2 = 0.
Proof.
  intros b.
  assert (Hok : ring_ok b).
  { constructor; unfold b; simpl; try lia. eexists. split; reflexivity. }
  split; [exact Hok|]. split; [reflexivity|].
  apply (write_then_read b [21; 22; 23; 24] Hok eq_refl eq_refl).
  unfold b. simpl. lia.
Defined.

(** A write of the whole capacity, or of more, into an empty ring is
    lost to the reader: the write goes through and fills the block, the
    write cursor comes back to where it was, and afterwards no sample is
    available and nothing is unread. *)
Theorem full_write_is_lost (b : Ring.AudioRingBuffer) (samples : list Z) :
  ring_ok b -> samplesAvailable b = 0 ->
  _sampleCapacity b <= Z.of_nat (length samples) < 2 ^ 62 ->
  exists b' mem',
    writeSamples samples (Z.of_nat (length samples)) b
    = Some (_sampleCapacity b * SIZEOF_INT16, b')
    /\ _buffer b' = Some mem'
    /\ (forall i : nat,
          Z.of_nat i < _sampleCapacity b ->
          cell b' mem' (Z.of_nat i) = nth i samples 0)
    /\ _endOfLastWrite b' = _endOfLastWrite b
    /\ _nextOutput b' = _nextOutput b
    /\ samplesAvailable b' = 0
    /\ unread b' = [].
Proof.
  intros Hok Hempty Hlen.
  destruct (samplesAvailable_modulo b Hok) as (Hmod & _).
  pose proof Hok as [Hcap (mem0 & Hmem0 & Hlen0) Hnext Hend].
  set (n := Z.of_nat (length samples)) in *.
  set (c := _sampleCapacity b) in *.
  assert (Hsame : _endOfLastWrite b = _nextOutput b).
  { rewrite Hempty in Hmod. symmetry in Hmod.
    destruct (Z.ltb_spec (_endOfLastWrite b - _nextOutput b) 0).
    - rewrite mod_below in Hmod by lia. lia.
    - rewrite mod_inside in Hmod by lia. lia. }
  assert (Hhalf : n * SIZEOF_INT16 / 2 = n)
    by (unfold SIZEOF_INT16; apply Z.div_mul; lia).
  assert (Hcopy : samplesToCopy b (n * SIZEOF_INT16) = c).
  { rewrite samplesToCopy_clamped by (unfold SIZEOF_INT16; lia).
    rewrite Hhalf. fold c. lia. }
  assert (Hno : writeCrossesNextOutput b c = false).
  { destruct (writeCrossesNextOutput b c) eqn:Hcross; [|reflexivity].
    apply writeCrossesNextOutput_spec in Hcross; fold c; lia. }
  destruct (writeData_cells b samples (n * SIZEOF_INT16) Hok)
    as (mem & mem' & Hmem & Hwrite & Hlen' & Hcells).
  { unfold SIZEOF_INT16. lia. }
  { rewrite Hhalf. unfold n. lia. }
  rewrite Hcopy, Hno in Hwrite, Hcells. fold c in Hwrite, Hcells, Hlen'.
  replace ((_endOfLastWrite b + c) mod c) with (_endOfLastWrite b) in Hwrite
    by (rewrite mod_above by lia; lia).
  set (b' := set_endOfLastWrite (_endOfLastWrite b) (set_buffer mem' b)) in *.
  assert (Hok' : ring_ok b').
  { constructor; simpl; try assumption. exists mem'. now split. }
  assert (Hnone : samplesAvailable b' = 0).
  { destruct (samplesAvailable_modulo b' Hok') as (-> & _). simpl.
    rewrite Hsame, Z.sub_diag. apply Z.mod_0_l. fold c. lia. }
  exists b', mem'. unfold writeSamples. fold n.
  split; [exact Hwrite|]. split; [reflexivity|].
  split; [|split; [reflexivity|split; [reflexivity|split;
    [exact Hnone|now apply unread_empty]]]].
  intros i Hi. unfold cell. simpl. fold c.
  assert (Hcell : 0 <= (_nextOutput b + Z.of_nat i) mod c < c)
    by (apply Z.mod_pos_bound; lia).
  rewrite <- (Nat2Z.id (Z.to_nat ((_nextOutput b + Z.of_nat i) mod c))).
  rewrite Hcells by lia. rewrite !Z2Nat.id by lia.
  rewrite Zminus_mod_idemp_l, Hsame.
  replace (_nextOutput b + Z.of_nat i - _nextOutput b) with (Z.of_nat i) by lia.
  rewrite mod_inside by lia.
  replace (Z.of_nat i <? c) with true by (symmetry; apply Z.ltb_lt; lia).
  now rewrite Nat2Z.id.
Qed.

Lemma full_write_is_lost_witness :
  let b := {| _sampleCapacity := 4; _numFrameSamples := 1;
              _isStarved := true; _hasStarted := false;
              _randomAccessMode := false;
              _buffer := Some [1; 2; 3; 4];
              _nextOutput := 3; _endOfLastWrite := 3 |} in
  ring_ok b /\ samplesAvailable b = 0
  /\ exists b' mem',
       writeSamples [21; 22; 23; 24; 25] 5 b = Some (4 * SIZEOF_INT16, b')
       /\ _buffer b' = Some mem'
       /\ samplesAvailable b' = 0.
Proof.
  intros b.
  assert (Hok : ring_ok b).
  { constructor; unfold b; simpl; try lia. eexists. split; reflexivity. }
  split; [exact Hok|]. split; [reflexivity|].
  destruct (full_write_is_lost b [21; 22; 23; 24; 25] Hok eq_refl)
    as (b' & mem' & Hwrite & Hmem & _ & _ & _ & Hnone & _).
  { unfold b. simpl. lia. }
  exists b', mem'. split; [exact Hwrite|]. split; [exact Hmem|exact Hnone].
Defined.

End QueueUses.

Section MoreRingFacts.

(** The cell [i] samples after a position of the ring. *)
Lemma to_cell (next i c : Z) :
  0 <= next < c -> 0 <= i <= c ->
  (next + i) mod c = if next + i <? c then next + i else next + i - c.
Proof.
  intros Hn Hi. destruct (Z.ltb_spec (next + i) c).
  - apply mod_inside. lia.
  - apply mod_above. lia.
Qed.

(** In random-access mode, with the write cursor on the read cursor (as
    in a fresh buffer), what is written, up to the whole capacity, is
    what a read of as many samples returns, and the cells read hold 0
    afterwards. *)
Theorem random_access_round_trip
    (b : Ring.AudioRingBuffer) (samples : list Z) :
  ring_ok b -> _randomAccessMode b = true ->
  _endOfLastWrite b = _nextOutput b ->
  0 < Z.of_nat (length samples) <= _sampleCapacity b ->
  exists b1 b2 mem2,
    writeSamples samples (Z.of_nat (length samples)) b
    = Some (Z.of_nat (length samples) * SIZEOF_INT16, b1)
    /\ readSamples (Z.of_nat (length samples)) b1
       = Some (Z.of_nat (length samples) * SIZEOF_INT16, samples, b2)
    /\ _buffer b2 = Some mem2
    /\ forall i : nat,
         (i < length samples)%nat -> cell b1 mem2 (Z.of_nat i) = 0.
Proof.
  intros Hok Hmode Hsame Hlen.
  pose proof Hok as [Hcap _ Hnext Hend].
  set (n := Z.of_nat (length samples)) in *.
  set (c := _sampleCapacity b) in *.
  assert (Hhalf : n * SIZEOF_INT16 / 2 = n)
    by (unfold SIZEOF_INT16; apply Z.div_mul; lia).
  assert (Hcopy : samplesToCopy b (n * SIZEOF_INT16) = n).
  { rewrite samplesToCopy_clamped by (unfold SIZEOF_INT16; lia).
    rewrite Hhalf. fold c. lia. }
  assert (Hno : writeCrossesNextOutput b n = false).
  { destruct (writeCrossesNextOutput b n) eqn:Hcross; [|reflexivity].
    apply writeCrossesNextOutput_spec in Hcross; fold c; lia. }
  destruct (writeData_cells b samples (n * SIZEOF_INT16) Hok)
    as (mem & mem1 & Hmem & Hwrite & Hlen1 & Hcells).
  { unfold SIZEOF_INT16. lia. }
  { rewrite Hhalf. unfold n. lia. }
  rewrite Hcopy, Hno in Hwrite, Hcells. fold c in Hwrite, Hcells, Hlen1.
  set (b1 := set_endOfLastWrite ((_endOfLastWrite b + n) mod c)
                                (set_buffer mem1 b)) in *.
  assert (Hrd : read_ok b1).
  { constructor; simpl; try assumption. exists mem1. now split. }
  destruct (read_in_random_access_mode b1 mem1 n Hrd Hmode eq_refl)
    as (data & mem2 & Hread & Hdatalen & Hdata & _ & Hcleared);
    [simpl; fold c; lia|].
  simpl in Hread, Hdata, Hcleared. fold c in Hread, Hdata, Hcleared.
  assert (Hback : data = samples).
  { apply nth_ext with (d := 0) (d' := 0); [lia|].
    intros i Hi. rewrite Hdata by lia.
    assert (Hcell : 0 <= (_nextOutput b + Z.of_nat i) mod c < c)
      by (apply Z.mod_pos_bound; lia).
    rewrite <- (Nat2Z.id (Z.to_nat ((_nextOutput b + Z.of_nat i) mod c))).
    rewrite Hcells by lia. rewrite !Z2Nat.id by lia.
    rewrite Zminus_mod_idemp_l, Hsame.
    replace (_nextOutput b + Z.of_nat i - _nextOutput b) with (Z.of_nat i)
      by lia.
    destruct (Z.eq_dec (Z.of_nat i) c) as [Heq | Hne]; [lia|].
    rewrite mod_inside by lia.
    replace (Z.of_nat i <? n) with true by (symmetry; apply Z.ltb_lt; lia).
    now rewrite Nat2Z.id. }
  rewrite Hback in Hread.
  exists b1. eexists. exists mem2. unfold writeSamples. fold n.
  split; [exact Hwrite|]. split; [exact Hread|]. split; [reflexivity|].
  intros i Hi. unfold cell. simpl. fold c.
  assert (Hcell : 0 <= (_nextOutput b + Z.of_nat i) mod c < c)
    by (apply Z.mod_pos_bound; lia).
  rewrite <- (Nat2Z.id (Z.to_nat ((_nextOutput b + Z.of_nat i) mod c))).
  rewrite Hcleared by lia. rewrite !Z2Nat.id by lia.
  rewrite Zminus_mod_idemp_l.
  replace (_nextOutput b + Z.of_nat i - _nextOutput b) with (Z.of_nat i) by lia.
  rewrite mod_inside by lia.
  replace (Z.of_nat i <? n) with true by (symmetry; apply Z.ltb_lt; lia).
  reflexivity.
Qed.

Lemma random_access_round_trip_witness :
  let b := {| _sampleCapacity := 4; _numFrameSamples := 1;
              _isStarved := true; _hasStarted := false;
              _randomAccessMode := true;
              _buffer := Some [0; 0; 0; 0];
              _nextOutput := 2; _endOfLastWrite := 2 |} in
  ring_ok b
  /\ exists b1 b2,
       writeSamples [21; 22; 23; 24] 4 b = Some (4 * SIZEOF_INT16, b1)
       /\ readSamples 4 b1 = Some (4 * SIZEOF_INT16, [21; 22; 23; 24], b2).
Proof.
  intros b.
  assert (Hok : ring_ok b).
  { constructor; unfold b; simpl; try lia. eexists. split; reflexivity. }
  split; [exact Hok|].
  destruct (random_access_round_trip b [21; 22; 23; 24] Hok eq_refl eq_refl)
    as (b1 & b2 & mem2 & Hwrite & Hread & _).
  { unfold b. simpl. lia. }
  exists b1, b2. split; [exact Hwrite|exact Hread].
Defined.

(** After a write that [writeData] takes to cross the read cursor, the
    ring holds the samples of that write and no other: what was unread
    before is dropped, and the ring is marked starved. *)
Theorem overflow_keeps_the_new
    (b : Ring.AudioRingBuffer) (samples : list Z) :
  ring_ok b ->
  Z.of_nat (length samples) <= _sampleCapacity b ->
  writeCrossesNextOutput b (Z.of_nat (length samples)) = true ->
  exists b',
    writeSamples samples (Z.of_nat (length samples)) b
    = Some (Z.of_nat (length samples) * SIZEOF_INT16, b')
    /\ unread b' = samples
    /\ _isStarved b' = true
    /\ ring_ok b'.
Proof.
  intros Hok Hlen Hcross.
  pose proof Hok as [Hcap _ Hnext Hend].
  set (n := Z.of_nat (length samples)) in *.
  set (c := _sampleCapacity b) in *.
  assert (Hhalf : n * SIZEOF_INT16 / 2 = n)
    by (unfold SIZEOF_INT16; apply Z.div_mul; lia).
  assert (Hcopy : samplesToCopy b (n * SIZEOF_INT16) = n).
  { rewrite samplesToCopy_clamped by (unfold SIZEOF_INT16; lia).
    rewrite Hhalf. fold c. lia. }
  pose proof Hcross as Hwhy.
  apply writeCrossesNextOutput_spec in Hwhy; [|lia|fold c; lia].
  destruct Hwhy as (_ & Hlt & Hge & Hfit). fold c in Hfit.
  destruct (writeData_cells b samples (n * SIZEOF_INT16) Hok)
    as (mem & mem' & Hmem & Hwrite & Hlen' & Hcells).
  { unfold SIZEOF_INT16. lia. }
  { rewrite Hhalf. unfold n. lia. }
  rewrite Hcopy, Hcross in Hwrite, Hcells.
  simpl in Hwrite, Hcells. fold c in Hwrite, Hcells, Hlen'.
  rewrite mod_inside in Hwrite by lia.
  set (b' := set_endOfLastWrite n (set_buffer mem' (reset b))) in *.
  assert (Hok' : ring_ok b').
  { constructor; simpl; fold c; try lia. exists mem'. now split. }
  assert (Havail : samplesAvailable b' = n).
  { destruct (samplesAvailable_modulo b' Hok') as (-> & _). simpl.
    fold c. rewrite Z.sub_0_r. apply mod_inside. lia. }
  exists b'. unfold writeSamples. fold n.
  split; [exact Hwrite|]. split; [|split; [reflexivity|exact Hok']].
  destruct (unread_cells b' mem' eq_refl) as (Hlen1 & Hnth1); [lia|].
  apply nth_ext with (d := 0) (d' := 0); [lia|].
  intros i Hi. rewrite Hnth1 by lia. unfold cell. simpl. fold c.
  rewrite mod_inside by lia. rewrite Nat2Z.id.
  rewrite Hcells by lia. rewrite Z.sub_0_r, mod_inside by lia.
  replace (Z.of_nat i <? n) with true by (symmetry; apply Z.ltb_lt; lia).
  now rewrite Nat2Z.id.
Qed.

Lemma overflow_keeps_the_new_witness :
  let b := {| _sampleCapacity := 10; _numFrameSamples := 1;
              _isStarved := false; _hasStarted := true;
              _randomAccessMode := false;
              _buffer := Some [11; 2; 3; 4; 5; 6; 7; 8; 9; 10];
              _nextOutput := 5; _endOfLastWrite := 1 |} in
  ring_ok b
  /\ writeCrossesNextOutput b 6 = true
  /\ exists b',
       writeSamples [21; 22; 23; 24; 25; 26] 6 b = Some (6 * SIZEOF_INT16, b')
       /\ unread b' = [21; 22; 23; 24; 25; 26]
       /\ _isStarved b' = true.
Proof.
  intros b.
  assert (Hok : ring_ok b).
  { constructor; unfold b; simpl; try lia. eexists. split; reflexivity. }
  split; [exact Hok|]. split; [reflexivity|].
  destruct (overflow_keeps_the_new b [21; 22; 23; 24; 25; 26] Hok)
    as (b' & Hwrite & Hunread & Hstarved & _).
  { unfold b. simpl. lia. }
  { reflexivity. }
  exists b'. split; [exact Hwrite|]. split; [exact Hunread|exact Hstarved].
Defined.

End MoreRingFacts.

(** * Indexing, skipping and silent frames *)

Section IndexFacts.

(** [operator[]] with an index no further than the capacity from the
    read cursor, in either direction, is the cell that far around the
    ring. *)
Lemma at_index_cell (b : Ring.AudioRingBuffer) (mem : list Z) (index : Z) :
  ring_ok b -> _buffer b = Some mem ->
  - _sampleCapacity b <= index <= _sampleCapacity b ->
  at_index b index = Some (cell b mem index).
Proof.
  intros [Hcap (mem0 & Hmem0 & Hlen) Hnext Hend] Hmem Hindex.
  assert (mem0 = mem) by congruence. subst mem0.
  unfold at_index. rewrite Hmem. simpl bind.
  rewrite shifted_modulo by lia.
  assert (0 <= (_nextOutput b + index) mod _sampleCapacity b < _sampleCapacity b)
    by (apply Z.mod_pos_bound; lia).
  rewrite peek_inside by lia. reflexivity.
Qed.

(** [operator[]] with an index from 0 to below the number of samples
    available is the unread sample of that rank, oldest first. *)
Theorem index_is_unread_sample (b : Ring.AudioRingBuffer) (index : Z) :
  ring_ok b -> 0 <= index < samplesAvailable b ->
  at_index b index = Some (nth (Z.to_nat index) (unread b) 0).
Proof.
  intros Hok Hindex.
  destruct (samplesAvailable_modulo b Hok) as (_ & Havail).
  pose proof Hok as [Hcap (mem & Hmem & Hlen) Hnext Hend].
  rewrite (at_index_cell b mem) by (assumption || lia).
  destruct (unread_cells b mem Hmem) as (_ & Hnth); [lia|].
  rewrite Hnth by lia. now rewrite Z2Nat.id by lia.
Qed.

Lemma index_is_unread_sample_witness :
  let b := {| _sampleCapacity := 5; _numFrameSamples := 1;
              _isStarved := false; _hasStarted := true;
              _randomAccessMode := false;
              _buffer := Some [13; 14; 10; 11; 12];
              _nextOutput := 3; _endOfLastWrite := 2 |} in
  ring_ok b /\ at_index b 3 = Some 14.
Proof.
  intros b.
  assert (Hok : ring_ok b).
  { constructor; unfold b; simpl; try lia. eexists. split; reflexivity. }
  split; [exact Hok|].
  apply (index_is_unread_sample b 3 Hok).
  split; [lia|]. apply Z.ltb_lt. reflexivity.
Defined.

(** After a read in normal mode, the negative indexes of [operator[]]
    reach back into the samples just read: index [-j] is the [j]-th
    sample from the end of what the read returned. *)
Theorem index_looks_back (b : Ring.AudioRingBuffer) (maxSamples j : Z) :
  ring_ok b -> _randomAccessMode b = false ->
  0 <= maxSamples <= samplesAvailable b ->
  0 < j <= maxSamples ->
  exists data b',
    readSamples maxSamples b = Some (maxSamples * SIZEOF_INT16, data, b')
    /\ Z.of_nat (length data) = maxSamples
    /\ at_index b' (- j) = Some (nth (Z.to_nat (maxSamples - j)) data 0).
Proof.
  intros Hok Hmode Hmax Hj.
  destruct (samplesAvailable_modulo b Hok) as (_ & Havail).
  pose proof Hok as [Hcap _ Hnext Hend].
  destruct (readData_cells b (maxSamples * SIZEOF_INT16) Hok Hmode)
    as (mem & data & Hmem & Hread & Hlen & Hdata).
  assert (Hreq : uint32 (uint64 (maxSamples * SIZEOF_INT16) / SIZEOF_INT16)
                 = maxSamples).
  { unfold SIZEOF_INT16. rewrite uint64_in_range by lia.
    rewrite Z.div_mul by lia. apply uint32_in_range. lia. }
  rewrite Hreq in Hread, Hlen, Hdata.
  rewrite Z.min_l in Hread, Hlen, Hdata by lia.
  set (c := _sampleCapacity b) in *.
  set (b' := set_nextOutput ((_nextOutput b + maxSamples) mod c)
                            (set_buffer mem b)) in *.
  assert (Hok' : ring_ok b').
  { constructor; simpl; try assumption.
    - destruct Hok as [_ (mem0 & Hmem0 & Hlen0) _ _].
      exists mem. split; [reflexivity|]. congruence.
    - apply Z.mod_pos_bound. lia. }
  exists data, b'. split; [exact Hread|]. split; [exact Hlen|].
  rewrite (at_index_cell b' mem (- j) Hok' eq_refl) by (simpl; fold c; lia).
  f_equal. rewrite <- (Nat2Z.id (Z.to_nat (maxSamples - j))).
  rewrite Hdata by lia. rewrite Z2Nat.id by lia.
  unfold cell. simpl. fold c. do 2 f_equal.
  rewrite Zplus_mod_idemp_l. f_equal. lia.
Qed.

Lemma index_looks_back_witness :
  let b := {| _sampleCapacity := 5; _numFrameSamples := 1;
              _isStarved := false; _hasStarted := true;
              _randomAccessMode := false;
              _buffer := Some [13; 14; 10; 11; 12];
              _nextOutput := 3; _endOfLastWrite := 2 |} in
  ring_ok b
  /\ exists data b',
       readSamples 3 b = Some (3 * SIZEOF_INT16, data, b')
       /\ at_index b' (- 3) = Some (nth 0 data 0).
Proof.
  intros b.
  assert (Hok : ring_ok b).
  { constructor; unfold b; simpl; try lia. eexists. split; reflexivity. }
  split; [exact Hok|].
  destruct (index_looks_back b 3 3 Hok eq_refl)
    as (data & b' & Hread & _ & Hback).
  { split; [lia|]. apply Z.leb_le. reflexivity. }
  { lia. }
  exists data, b'. split; [exact Hread|exact Hback].
Defined.

End IndexFacts.

Section ShiftReadFacts.

(** The buffer, with its block put back as it is, is the buffer. *)
Lemma set_buffer_same (b : Ring.AudioRingBuffer) (mem : list Z) :
  _buffer b = Some mem -> set_buffer mem b = b.
Proof. destruct b. simpl. intros Hmem. unfold set_buffer; simpl. now rewrite Hmem. Qed.

(** [shiftReadPosition] by no more than what is available leaves the
    buffer exactly as a read of that many samples in normal mode does:
    it drops the oldest unread samples without copying them. *)
Theorem shift_is_read_without_copy (b : Ring.AudioRingBuffer) (numSamples : Z) :
  ring_ok b -> _randomAccessMode b = false ->
  0 <= numSamples <= samplesAvailable b ->
  readSamples numSamples b
  = Some (numSamples * SIZEOF_INT16,
          firstn (Z.to_nat numSamples) (unread b),
          shiftReadPosition numSamples b)
  /\ unread (shiftReadPosition numSamples b)
     = skipn (Z.to_nat numSamples) (unread b)
  /\ samplesAvailable (shiftReadPosition numSamples b)
     = samplesAvailable b - numSamples.
Proof.
  intros Hok Hmode Hnum.
  destruct (samplesAvailable_modulo b Hok) as (_ & Havail).
  pose proof Hok as [Hcap _ Hnext Hend].
  destruct (readData_cells b (numSamples * SIZEOF_INT16) Hok Hmode)
    as (mem & data & Hmem & Hread & _).
  assert (Hreq : uint32 (uint64 (numSamples * SIZEOF_INT16) / SIZEOF_INT16)
                 = numSamples).
  { unfold SIZEOF_INT16. rewrite uint64_in_range by lia.
    rewrite Z.div_mul by lia. apply uint32_in_range. lia. }
  rewrite Hreq, Z.min_l in Hread by lia.
  rewrite (set_buffer_same b mem Hmem) in Hread.
  assert (Hsame : shiftReadPosition numSamples b
                  = set_nextOutput
                      ((_nextOutput b + numSamples) mod _sampleCapacity b) b).
  { unfold shiftReadPosition. rewrite int32_in_range by lia.
    now rewrite shifted_forward by lia. }
  destruct (readSamples_queue b numSamples Hok Hmode) as (b' & Hq & _ & Hun & Hav & _);
    [lia|].
  rewrite Z.min_l in Hq, Hun, Hav by lia.
  unfold readSamples in Hq |- *. rewrite Hread in Hq.
  injection Hq as Hdata Hb'. rewrite Hsame.
  rewrite Hread, Hdata, Hb'. repeat split; assumption.
Qed.

Lemma shift_is_read_without_copy_witness :
  let b := {| _sampleCapacity := 5; _numFrameSamples := 1;
              _isStarved := false; _hasStarted := true;
              _randomAccessMode := false;
              _buffer := Some [13; 14; 10; 11; 12];
              _nextOutput := 3; _endOfLastWrite := 2 |} in
  ring_ok b /\ unread (shiftReadPosition 3 b) = [14].
Proof.
  intros b.
  assert (Hok : ring_ok b).
  { constructor; unfold b; simpl; try lia. eexists. split; reflexivity. }
  split; [exact Hok|].
  destruct (shift_is_read_without_copy b 3 Hok eq_refl) as (_ & Hunread & _).
  { split; [lia|]. apply Z.leb_le. reflexivity. }
  rewrite Hunread. reflexivity.
Defined.

(** [shiftReadPosition] makes no test against the write cursor: moved by
    more than what is available (and no more than the capacity), the
    read cursor passes it, and the buffer then reports a whole turn of
    the ring more than the difference as available. *)
Theorem shift_passes_write_cursor (b : Ring.AudioRingBuffer) (numSamples : Z) :
  ring_ok b ->
  samplesAvailable b < numSamples <= _sampleCapacity b ->
  samplesAvailable (shiftReadPosition numSamples b)
  = samplesAvailable b - numSamples + _sampleCapacity b.
Proof.
  intros Hok Hnum.
  destruct (samplesAvailable_modulo b Hok) as (Hmod & Havail).
  pose proof Hok as [Hcap (mem & Hmem & Hlen) Hnext Hend].
  assert (Hsame : shiftReadPosition numSamples b
                  = set_nextOutput
                      ((_nextOutput b + numSamples) mod _sampleCapacity b) b).
  { unfold shiftReadPosition. rewrite int32_in_range by lia.
    now rewrite shifted_forward by lia. }
  rewrite Hsame.
  set (c := _sampleCapacity b) in *.
  set (b' := set_nextOutput ((_nextOutput b + numSamples) mod c) b).
  assert (Hok' : ring_ok b').
  { constructor; simpl; try assumption.
    - exists mem. now split.
    - apply Z.mod_pos_bound. lia. }
  destruct (samplesAvailable_modulo b' Hok') as (-> & _). simpl. fold c.
  rewrite Zminus_mod_idemp_r.
  replace (_endOfLastWrite b - (_nextOutput b + numSamples))
    with (_endOfLastWrite b - _nextOutput b - numSamples) by lia.
  rewrite <- Zminus_mod_idemp_l, <- Hmod.
  apply mod_below. lia.
Qed.

Lemma shift_passes_write_cursor_witness :
  let b := {| _sampleCapacity := 5; _numFrameSamples := 1;
              _isStarved := false; _hasStarted := true;
              _randomAccessMode := false;
              _buffer := Some [13; 14; 10; 11; 12];
              _nextOutput := 3; _endOfLastWrite := 0 |} in
  ring_ok b
  /\ samplesAvailable b = 2
  /\ samplesAvailable (shiftReadPosition 3 b) = 4.
Proof.
  intros b.
  assert (Hok : ring_ok b).
  { constructor; unfold b; simpl; try lia. eexists. split; reflexivity. }
  split; [exact Hok|]. split; [reflexivity|].
  apply (shift_passes_write_cursor b 3 Hok).
  split; [apply Z.ltb_lt; reflexivity|unfold b; simpl; lia].
Defined.

End ShiftReadFacts.

Section SilentFrameFacts.

(** [samplesAvailable] also when the write cursor is one past the last
    cell of the block. *)
Lemma samplesAvailable_wide (b : Ring.AudioRingBuffer) (mem : list Z) :
  _buffer b = Some mem -> _sampleCapacity b < 2 ^ 31 ->
  0 <= _nextOutput b < _sampleCapacity b ->
  0 <= _endOfLastWrite b <= _sampleCapacity b ->
  samplesAvailable b
  = if _endOfLastWrite b - _nextOutput b <? 0
    then _endOfLastWrite b - _nextOutput b + _sampleCapacity b
    else _endOfLastWrite b - _nextOutput b.
Proof.
  intros Hmem Hcap Hnext Hend. unfold samplesAvailable. rewrite Hmem.
  rewrite (int32_in_range (_endOfLastWrite b - _nextOutput b)) by lia.
  destruct (Z.ltb_spec (_endOfLastWrite b - _nextOutput b) 0).
  - rewrite int32_in_range by lia. apply uint32_in_range. lia.
  - apply uint32_in_range. lia.
Qed.

(** The cells after [addSilentFrame]: the [n] cells from the write cursor
    on, around the ring, hold 0, the others are as they were; the write
    cursor is not wrapped when the zeros end with the block. *)
Lemma addSilentFrame_cells (b : Ring.AudioRingBuffer) (n : Z) :
  ring_ok b -> 0 <= n <= _sampleCapacity b ->
  exists mem mem',
    _buffer b = Some mem
    /\ addSilentFrame n b
       = Some (set_endOfLastWrite
                 (if _endOfLastWrite b + n <=? _sampleCapacity b
                  then _endOfLastWrite b + n
                  else _endOfLastWrite b + n - _sampleCapacity b)
                 (set_buffer mem' b))
    /\ Z.of_nat (length mem') = _sampleCapacity b
    /\ forall j : nat,
         Z.of_nat j < _sampleCapacity b ->
         nth j mem' 0
         = if (Z.of_nat j - _endOfLastWrite b) mod _sampleCapacity b <? n
           then 0 else nth j mem 0.
Proof.
  intros [Hcap (mem & Hmem & Hlen) Hnext Hend] Hn.
  exists mem. unfold addSilentFrame. rewrite Hmem.
  set (c := _sampleCapacity b) in *. set (e := _endOfLastWrite b) in *.
  destruct (Z.leb_spec (e + n) c) as [Hfit | Hwrap].
  - destruct (memset0_inside mem e n) as (mem' & Hset & Hlen' & Hcells);
      try lia.
    rewrite Hset. simpl bind. exists mem'.
    split; [reflexivity|]. split; [reflexivity|]. split; [lia|].
    intros j Hj. rewrite Hcells, from_cursor by lia.
    destruct (Z.leb_spec e (Z.of_nat j));
      destruct (Z.ltb_spec (Z.of_nat j) (e + n)); simpl;
      match goal with
      | |- context [?x <? n] => destruct (Z.ltb_spec x n)
      end; try reflexivity; lia.
  - destruct (memset0_inside mem e (c - e)) as (mem1 & Hset1 & Hlen1 & Hcells1);
      try lia.
    rewrite Hset1. simpl bind.
    destruct (memset0_inside mem1 0 (n - (c - e)))
      as (mem2 & Hset2 & Hlen2 & Hcells2); try lia.
    rewrite Hset2. simpl bind. exists mem2.
    split; [reflexivity|].
    split; [now replace (n - (c - e)) with (e + n - c) by lia|].
    split; [lia|].
    intros j Hj. rewrite Hcells2, Hcells1, from_cursor by lia.
    destruct (Z.leb_spec 0 (Z.of_nat j));
      destruct (Z.ltb_spec (Z.of_nat j) (0 + (n - (c - e))));
      destruct (Z.leb_spec e (Z.of_nat j));
      destruct (Z.ltb_spec (Z.of_nat j) (e + (c - e))); simpl;
      match goal with
      | |- context [?x <? n] => destruct (Z.ltb_spec x n)
      end; try reflexivity; lia.
Qed.

(** [addSilentFrame(n)] on a ring with room for [n] more samples adds [n]
    samples of value 0 after the unread ones and leaves the read cursor
    alone.  When the zeros end exactly with the block, the write cursor
    is left one past the last cell instead of at the start of the
    block. *)
Theorem silent_frame_appends_zeros (b : Ring.AudioRingBuffer) (n : Z) :
  ring_ok b -> 0 <= n ->
  samplesAvailable b + n < _sampleCapacity b ->
  exists b',
    addSilentFrame n b = Some b'
    /\ unread b' = unread b ++ repeat 0 (Z.to_nat n)
    /\ samplesAvailable b' = samplesAvailable b + n
    /\ _nextOutput b' = _nextOutput b
    /\ _endOfLastWrite b'
       = (if _endOfLastWrite b + n <=? _sampleCapacity b
          then _endOfLastWrite b + n
          else _endOfLastWrite b + n - _sampleCapacity b).
Proof.
  intros Hok Hn Hroom.
  destruct (samplesAvailable_modulo b Hok) as (Hmod & Havail).
  pose proof Hok as [Hcap _ Hnext Hend].
  destruct (addSilentFrame_cells b n Hok) as (mem & mem' & Hmem & Hadd & Hlen' & Hcells);
    [lia|].
  set (c := _sampleCapacity b) in *. set (e := _endOfLastWrite b) in *.
  set (e' := if e + n <=? c then e + n else e + n - c) in *.
  set (b' := set_endOfLastWrite e' (set_buffer mem' b)) in *.
  assert (He' : 0 <= e' <= c)
    by (unfold e'; destruct (Z.leb_spec (e + n) c); lia).
  pose proof (samplesAvailable_distance b mem Hmem) as Hdist.
  fold c e in Hdist. specialize (Hdist ltac:(lia) ltac:(lia) ltac:(lia)).
  assert (Havail' : samplesAvailable b' = samplesAvailable b + n).
  { rewrite (samplesAvailable_wide b' mem' eq_refl); simpl; fold c;
      try lia.
    rewrite Hdist. unfold e'.
    destruct (Z.leb_spec (e + n) c);
      destruct (Z.ltb_spec (e - _nextOutput b) 0);
      match goal with
      | |- context [?x <? 0] => destruct (Z.ltb_spec x 0)
      end; lia. }
  exists b'. split; [exact Hadd|].
  split; [|split; [exact Havail'|split; reflexivity]].
  destruct (unread_cells b mem Hmem) as (Hlen0 & Hnth0); [lia|].
  destruct (unread_cells b' mem' eq_refl) as (Hlen1 & Hnth1); [lia|].
  apply nth_ext with (d := 0) (d' := 0).
  - rewrite length_app, repeat_length. lia.
  - intros i Hi. rewrite Hnth1 by lia. unfold cell. simpl. fold c.
    assert (Hcell : 0 <= (_nextOutput b + Z.of_nat i) mod c < c)
      by (apply Z.mod_pos_bound; lia).
    rewrite <- (Nat2Z.id (Z.to_nat ((_nextOutput b + Z.of_nat i) mod c))) at 1.
    rewrite Hcells by lia.
    rewrite !Z2Nat.id by lia.
    assert (Hpos : ((_nextOutput b + Z.of_nat i) mod c - e) mod c
                   = (Z.of_nat i - samplesAvailable b) mod c).
    { rewrite Zminus_mod_idemp_l, Hmod, Zminus_mod_idemp_r. f_equal. lia. }
    rewrite Hpos.
    destruct (Z.ltb_spec (Z.of_nat i) (samplesAvailable b)) as [Hold | Hnew].
    + rewrite mod_below by lia.
      replace (Z.of_nat i - samplesAvailable b + c <? n) with false
        by (symmetry; apply Z.ltb_ge; lia).
      rewrite app_nth1 by lia. rewrite Hnth0 by lia. reflexivity.
    + rewrite mod_inside by lia.
      replace (Z.of_nat i - samplesAvailable b <? n) with true
        by (symmetry; apply Z.ltb_lt; lia).
      rewrite app_nth2 by lia. now rewrite nth_repeat.
Qed.

Lemma silent_frame_appends_zeros_witness :
  let b := {| _sampleCapacity := 5; _numFrameSamples := 1;
              _isStarved := false; _hasStarted := true;
              _randomAccessMode := false;
              _buffer := Some [13; 14; 10; 11; 12];
              _nextOutput := 2; _endOfLastWrite := 3 |} in
  ring_ok b
  /\ exists b',
       addSilentFrame 2 b = Some b'
       /\ unread b' = [10; 0; 0]
       /\ _endOfLastWrite b' = 5.
Proof.
  intros b.
  assert (Hok : ring_ok b).
  { constructor; unfold b; simpl; try lia. eexists. split; reflexivity. }
  split; [exact Hok|].
  destruct (silent_frame_appends_zeros b 2 Hok)
    as (b' & Hadd & Hunread & _ & _ & Hcursor).
  { lia. }
  { apply Z.ltb_lt. reflexivity. }
  exists b'. split; [exact Hadd|].
  split; [rewrite Hunread|rewrite Hcursor]; reflexivity.
Defined.

End SilentFrameFacts.

Section ResizeFacts.

Variable ringFrames : Z.

(** [resizeForFrameSize] leaves an empty ring of the new capacity, ready
    for writes: what is written next, fewer samples than the capacity,
    is all the ring then holds.  The frame size the buffer records and
    its started and starved flags are not touched. *)
Theorem resize_empties_the_ring
    (b : Ring.AudioRingBuffer) (numFrameSamples : Z) (junk samples : list Z) :
  0 < numFrameSamples * ringFrames < 2 ^ 31 ->
  Z.of_nat (length samples) < numFrameSamples * ringFrames ->
  let b0 := resizeForFrameSize ringFrames numFrameSamples junk b in
  ring_ok b0
  /\ _sampleCapacity b0 = numFrameSamples * ringFrames
  /\ samplesAvailable b0 = 0
  /\ _numFrameSamples b0 = _numFrameSamples b
  /\ _isStarved b0 = _isStarved b
  /\ _hasStarted b0 = _hasStarted b
  /\ exists b',
       writeSamples samples (Z.of_nat (length samples)) b0
       = Some (Z.of_nat (length samples) * SIZEOF_INT16, b')
       /\ unread b' = samples.
Proof.
  intros Hcap Hlen b0.
  assert (Hc : _sampleCapacity b0 = numFrameSamples * ringFrames).
  { unfold b0, resizeForFrameSize. simpl. apply int32_in_range. lia. }
  assert (Hok : ring_ok b0).
  { constructor; rewrite ?Hc; simpl; try lia.
    eexists. split; [reflexivity|].
    rewrite int32_in_range by lia.
    destruct (_randomAccessMode b).
    - rewrite repeat_length. lia.
    - apply new_int16_length. lia. }
  assert (Hnone : samplesAvailable b0 = 0).
  { destruct (samplesAvailable_modulo b0 Hok) as (-> & _). reflexivity. }
  split; [exact Hok|]. split; [exact Hc|]. split; [exact Hnone|].
  do 3 (split; [reflexivity|]).
  destruct (writeSamples_queue b0 samples Hok) as (b' & Hwrite & _ & Hunread & _).
  { rewrite Hnone, Hc. lia. }
  exists b'. split; [exact Hwrite|].
  now rewrite Hunread, (unread_empty b0 Hnone).
Qed.

End ResizeFacts.

Lemma resize_empties_the_ring_witness :
  let b := {| _sampleCapacity := 2; _numFrameSamples := 1;
              _isStarved := false; _hasStarted := true;
              _randomAccessMode := false;
              _buffer := Some [13; 14];
              _nextOutput := 1; _endOfLastWrite := 0 |} in
  let b0 := resizeForFrameSize 2 3 [7; 7; 7; 7; 7; 7] b in
  _sampleCapacity b0 = 6 /\ _numFrameSamples b0 = 1
  /\ exists b',
       writeSamples [21; 22] 2 b0 = Some (2 * SIZEOF_INT16, b')
       /\ unread b' = [21; 22].
Proof.
  intros b b0.
  destruct (resize_empties_the_ring 2 b 3 [7; 7; 7; 7; 7; 7] [21; 22])
    as (_ & Hc & _ & Hf & _ & _ & b' & Hwrite & Hunread).
  { lia. }
  { simpl. lia. }
  split; [exact Hc|]. split; [exact Hf|].
  exists b'. split; [exact Hwrite|exact Hunread].
Defined.

Section ParseFacts.

(** The samples [writeData] copies do not change with a trailing odd
    byte of [maxSize]. *)
Lemma samplesToCopy_odd (b : Ring.AudioRingBuffer) (n trailing : Z) :
  0 <= n < 2 ^ 62 -> 0 <= trailing <= 1 ->
  samplesToCopy b (n * SIZEOF_INT16 + trailing)
  = samplesToCopy b (n * SIZEOF_INT16).
Proof.
  intros Hn Ht. unfold samplesToCopy, SIZEOF_INT16.
  rewrite !(uint64_in_range (n * 2 + trailing)), !(uint64_in_range (n * 2))
    by lia.
  replace ((n * 2 + trailing) / 2) with n
    by (apply Z.div_unique with (r := trailing); lia).
  now rewrite Z.div_mul by lia.
Qed.

(** [parseData] on a packet of a header and [n] samples, with or without
    an odd byte after them, into a ring with room for them: the samples
    join the unread ones, and the value returned is the size of the
    samples in bytes, the header and the odd byte not counted (that
    size is returned as an [int], and is taken to fit one). *)
Theorem parse_appends_payload
    (b : Ring.AudioRingBuffer) (numBytesPacketHeader trailing : Z)
    (payload : list Z) :
  ring_ok b -> 0 <= trailing <= 1 ->
  Z.of_nat (length payload) * SIZEOF_INT16 < 2 ^ 31 ->
  samplesAvailable b + Z.of_nat (length payload) < _sampleCapacity b ->
  exists b',
    parseData numBytesPacketHeader payload
              (numBytesPacketHeader
               + (Z.of_nat (length payload) * SIZEOF_INT16 + trailing)) b
    = Some (Z.of_nat (length payload) * SIZEOF_INT16, b')
    /\ unread b' = unread b ++ payload
    /\ samplesAvailable b' = samplesAvailable b + Z.of_nat (length payload).
Proof.
  intros Hok Ht Hint Hroom.
  destruct (samplesAvailable_modulo b Hok) as (_ & Havail).
  pose proof Hok as [Hcap _ _ _].
  assert (Hsmall : 0 <= Z.of_nat (length payload) < 2 ^ 62) by lia.
  destruct (writeSamples_queue b payload Hok Hroom)
    as (b' & Hwrite & _ & Hunread & Hav & _).
  exists b'. split; [|split; assumption].
  unfold parseData.
  replace (numBytesPacketHeader
           + (Z.of_nat (length payload) * SIZEOF_INT16 + trailing)
           - numBytesPacketHeader)
    with (Z.of_nat (length payload) * SIZEOF_INT16 + trailing) by lia.
  unfold writeSamples in Hwrite. unfold writeData in Hwrite |- *.
  rewrite (samplesToCopy_odd b (Z.of_nat (length payload)) trailing)
    by assumption.
  rewrite Hwrite. simpl bind. f_equal. f_equal.
  apply int32_in_range. unfold SIZEOF_INT16 in Hint |- *. lia.
Qed.

Lemma parse_appends_payload_witness :
  let b := {| _sampleCapacity := 5; _numFrameSamples := 1;
              _isStarved := false; _hasStarted := true;
              _randomAccessMode := false;
              _buffer := Some [13; 14; 10; 11; 12];
              _nextOutput := 2; _endOfLastWrite := 3 |} in
  ring_ok b
  /\ exists b',
       parseData 7 [21; 22] 12 b = Some (4, b')
       /\ unread b' = [10; 21; 22].
Proof.
  intros b.
  assert (Hok : ring_ok b).
  { constructor; unfold b; simpl; try lia. eexists. split; reflexivity. }
  split; [exact Hok|].
  destruct (parse_appends_payload b 7 1 [21; 22] Hok)
    as (b' & Hparse & Hunread & _).
  { lia. }
  { simpl. lia. }
  { apply Z.ltb_lt. reflexivity. }
  exists b'. split; [exact Hparse|rewrite Hunread; reflexivity].
Defined.

End ParseFacts.

(** * Further properties of the gap history *)

Section IntervalFacts.

Variables samplesInInterval intervalsInWindow : Z.
Hypothesis samplesInInterval_positive : 0 < samplesInInterval.
Hypothesis intervalsInWindow_positive : 0 < intervalsInWindow.

Lemma last_cons (t d : Z) (ts : list Z) : last (t :: ts) d = last ts t.
Proof.
  revert t d. induction ts as [|u ts IH]; intros t d; [reflexivity|].
  change (last (t :: u :: ts) d) with (last (u :: ts) d).
  rewrite IH. symmetry. apply IH.
Qed.

Lemma last_timestamp (ts : list Z) (prev : Z) :
  Forall timestamp ts -> prev <> 0 -> last ts prev <> 0.
Proof.
  revert prev. induction ts as [|t ts IH]; intros prev Hts Hprev.
  - exact Hprev.
  - rewrite last_cons.
    pose proof (Forall_inv Hts) as Ht. unfold timestamp in Ht.
    apply IH; [exact (Forall_inv_tail Hts)|lia].
Qed.

Lemma maxGap_nonneg (gaps : list Z) : 0 <= maxGap gaps.
Proof. induction gaps as [|g gaps IH]; simpl; lia. Qed.

Lemma maxGap_app (gaps1 gaps2 : list Z) :
  maxGap (gaps1 ++ gaps2) = Z.max (maxGap gaps1) (maxGap gaps2).
Proof.
  induction gaps1 as [|g gaps1 IH]; simpl.
  - pose proof (maxGap_nonneg gaps2). lia.
  - fold (maxGap (gaps1 ++ gaps2)). fold (maxGap gaps1). lia.
Qed.

Lemma gapsAfter_snoc (prev t : Z) (ts : list Z) :
  gapsAfter prev (ts ++ [t])
  = gapsAfter prev ts ++ [uint64 (t - last ts prev)].
Proof.
  revert prev. induction ts as [|u ts IH]; intros prev; [reflexivity|].
  rewrite last_cons. change ((u :: ts) ++ [t]) with (u :: (ts ++ [t])).
  cbn [gapsAfter]. rewrite IH. reflexivity.
Qed.

(** The arrivals that do not complete the interval: each gap goes into
    the count and the maximum of the interval, and the window (its
    entries, its index, its maximum and its flag) is not touched. *)
Lemma frames_within_interval (ts : list Z) :
  forall h : InterframeTimeGapHistory,
    history_ok samplesInInterval intervalsInWindow h ->
    _lastFrameReceivedTime h <> 0 ->
    Forall timestamp ts ->
    _numSamplesInCurrentInterval h + Z.of_nat (length ts) < samplesInInterval ->
    framesReceived samplesInInterval intervalsInWindow ts h
    = {| _lastFrameReceivedTime := last ts (_lastFrameReceivedTime h);
         _numSamplesInCurrentInterval :=
           _numSamplesInCurrentInterval h + Z.of_nat (length ts);
         _currentIntervalMaxGap :=
           Z.max (_currentIntervalMaxGap h)
                 (maxGap (gapsAfter (_lastFrameReceivedTime h) ts));
         _newestIntervalMaxGapAt := _newestIntervalMaxGapAt h;
         _windowMaxGap := _windowMaxGap h;
         _newWindowMaxGapAvailable := _newWindowMaxGapAvailable h;
         _intervalMaxGaps := _intervalMaxGaps h |}.
Proof.
  induction ts as [|t ts IH]; intros h Hok Hlast Hts Hcount.
  - destruct Hok as [_ _ _ _ Hcur]. destruct h; simpl in *.
    f_equal; lia.
  - pose proof (Forall_inv Hts) as Ht.
    pose proof (Forall_inv_tail Hts) as Hrest.
    change (framesReceived samplesInInterval intervalsInWindow (t :: ts) h)
      with (framesReceived samplesInInterval intervalsInWindow ts
              (frameReceived samplesInInterval intervalsInWindow t h)).
    pose proof (history_ok_frameReceived samplesInInterval intervalsInWindow
                  samplesInInterval_positive intervalsInWindow_positive
                  t h Hok) as Hok1.
    assert (Hstep :
      frameReceived samplesInInterval intervalsInWindow t h
      = {| _lastFrameReceivedTime := t;
           _numSamplesInCurrentInterval := _numSamplesInCurrentInterval h + 1;
           _currentIntervalMaxGap :=
             Z.max (_currentIntervalMaxGap h)
                   (uint64 (t - _lastFrameReceivedTime h));
           _newestIntervalMaxGapAt := _newestIntervalMaxGapAt h;
           _windowMaxGap := _windowMaxGap h;
           _newWindowMaxGapAvailable := _newWindowMaxGapAvailable h;
           _intervalMaxGaps := _intervalMaxGaps h |}).
    { unfold frameReceived.
      replace (_lastFrameReceivedTime h =? 0) with false
        by (symmetry; apply Z.eqb_neq; exact Hlast).
      cbn [negb].
      replace (_numSamplesInCurrentInterval h + 1 =? samplesInInterval)
        with false
        by (symmetry; apply Z.eqb_neq; cbn [length] in Hcount; lia).
      now rewrite running_max. }
    rewrite Hstep in Hok1 |- *.
    rewrite IH; cbn [_lastFrameReceivedTime _numSamplesInCurrentInterval
                     _currentIntervalMaxGap _newestIntervalMaxGapAt
                     _windowMaxGap _newWindowMaxGapAvailable _intervalMaxGaps].
    + rewrite last_cons. cbn [gapsAfter maxGap fold_right length].
      fold (maxGap (gapsAfter t ts)).
      f_equal; lia.
    + exact Hok1.
    + unfold timestamp in Ht. lia.
    + exact Hrest.
    + cbn [length] in Hcount. lia.
Qed.

(** While an interval is in progress the window is left alone: the
    arrivals that do not complete the interval change the time of the
    last arrival, the count and the maximum of the interval, which is
    the largest gap of the interval so far, and nothing else. *)
Theorem interval_in_progress (ts : list Z) (h : InterframeTimeGapHistory) :
  history_ok samplesInInterval intervalsInWindow h ->
  _lastFrameReceivedTime h <> 0 ->
  Forall timestamp ts ->
  _numSamplesInCurrentInterval h + Z.of_nat (length ts) < samplesInInterval ->
  framesReceived samplesInInterval intervalsInWindow ts h
  = {| _lastFrameReceivedTime := last ts (_lastFrameReceivedTime h);
       _numSamplesInCurrentInterval :=
         _numSamplesInCurrentInterval h + Z.of_nat (length ts);
       _currentIntervalMaxGap :=
         Z.max (_currentIntervalMaxGap h)
               (maxGap (gapsAfter (_lastFrameReceivedTime h) ts));
       _newestIntervalMaxGapAt := _newestIntervalMaxGapAt h;
       _windowMaxGap := _windowMaxGap h;
       _newWindowMaxGapAvailable := _newWindowMaxGapAvailable h;
       _intervalMaxGaps := _intervalMaxGaps h |}.
Proof. exact (frames_within_interval ts h). Qed.

(** The arrivals that complete the interval in progress: the largest gap
    of the whole interval is stored in the entry after the newest one,
    cyclically, and in no other; the window maximum is no less than it;
    the flag is set, and the next interval starts from a count and a
    maximum of 0. *)
Theorem interval_completes (ts : list Z) (h : InterframeTimeGapHistory) :
  history_ok samplesInInterval intervalsInWindow h ->
  _lastFrameReceivedTime h <> 0 ->
  Forall timestamp ts ->
  _numSamplesInCurrentInterval h + Z.of_nat (length ts) = samplesInInterval ->
  let h' := framesReceived samplesInInterval intervalsInWindow ts h in
  let i := (_newestIntervalMaxGapAt h + 1) mod intervalsInWindow in
  let intervalMax :=
    Z.max (_currentIntervalMaxGap h)
          (maxGap (gapsAfter (_lastFrameReceivedTime h) ts)) in
  _newestIntervalMaxGapAt h' = i
  /\ nth (Z.to_nat i) (_intervalMaxGaps h') 0 = intervalMax
  /\ (forall k : nat,
        Z.of_nat k <> i ->
        nth k (_intervalMaxGaps h') 0 = nth k (_intervalMaxGaps h) 0)
  /\ intervalMax <= _windowMaxGap h'
  /\ _newWindowMaxGapAvailable h' = true
  /\ _numSamplesInCurrentInterval h' = 0
  /\ _currentIntervalMaxGap h' = 0
  /\ _lastFrameReceivedTime h' = last ts (_lastFrameReceivedTime h).
Proof.
  intros Hok Hlast Hts Hfull h' i intervalMax.
  pose proof Hok as [Hcount Hnewest Hlen Hgaps Hcur].
  assert (Hne : ts <> []).
  { intros ->. simpl in Hfull. lia. }
  destruct (exists_last Hne) as (ts0 & t & Hsplit).
  subst ts. apply Forall_app in Hts. destruct Hts as [Hts0 Ht].
  apply Forall_inv in Ht.
  rewrite length_app in Hfull. cbn [length] in Hfull.
  unfold h'. rewrite framesReceived_snoc.
  rewrite frames_within_interval by (assumption || lia).
  pose proof (last_timestamp ts0 _ Hts0 Hlast) as Hprev.
  set (prev := last ts0 (_lastFrameReceivedTime h)) in *.
  unfold frameReceived.
  cbn [_lastFrameReceivedTime _numSamplesInCurrentInterval
       _currentIntervalMaxGap _newestIntervalMaxGapAt
       _windowMaxGap _newWindowMaxGapAvailable _intervalMaxGaps].
  replace (prev =? 0) with false by (symmetry; apply Z.eqb_neq; exact Hprev).
  cbn [negb].
  replace (_numSamplesInCurrentInterval h + Z.of_nat (length ts0) + 1
           =? samplesInInterval) with true
    by (symmetry; apply Z.eqb_eq; lia).
  rewrite running_max, cyclic_increment by exact Hnewest. fold i.
  cbn [_lastFrameReceivedTime _numSamplesInCurrentInterval
       _currentIntervalMaxGap _newestIntervalMaxGapAt
       _windowMaxGap _newWindowMaxGapAvailable _intervalMaxGaps].
  assert (Hmax : Z.max (Z.max (_currentIntervalMaxGap h)
                              (maxGap (gapsAfter (_lastFrameReceivedTime h) ts0)))
                       (uint64 (t - prev))
                 = intervalMax).
  { unfold intervalMax. rewrite gapsAfter_snoc, maxGap_app. fold prev.
    cbn [maxGap fold_right].
    pose proof (uint64_bounds (t - prev)). lia. }
  rewrite Hmax.
  assert (Hi : 0 <= i < intervalsInWindow)
    by (unfold i; apply Z.mod_pos_bound; lia).
  destruct (array_set_inside (_intervalMaxGaps h) i intervalMax)
    as (Hl & Hnth); [lia|].
  assert (Hstored : nth (Z.to_nat i)
                        (array_set (_intervalMaxGaps h) i intervalMax) 0
                    = intervalMax).
  { rewrite Hnth. rewrite Z2Nat.id by lia. now rewrite Z.eqb_refl. }
  split; [reflexivity|]. split; [exact Hstored|].
  split.
  { intros k Hk. rewrite Hnth.
    now replace (Z.of_nat k =? i) with false
      by (symmetry; apply Z.eqb_neq; exact Hk). }
  split.
  { destruct (windowScan_bounds
                (array_set (_intervalMaxGaps h) i intervalMax)
                (Z.to_nat intervalsInWindow) 0 0) as (_ & Hall & _).
    specialize (Hall (Z.to_nat i) ltac:(lia)).
    replace (Z.to_nat (0 + Z.of_nat (Z.to_nat i))) with (Z.to_nat i) in Hall
      by lia.
    rewrite Hstored in Hall. exact Hall. }
  split; [reflexivity|]. split; [reflexivity|]. split; [reflexivity|].
  now rewrite last_last.
Qed.

(** The gap is a difference of [quint64]: when the clock has stepped
    back by [delta] between two arrivals, the gap recorded is
    [2 ^ 64 - delta], and it becomes the maximum of the interval. *)
Theorem clock_step_back (now : Z) (h : InterframeTimeGapHistory) :
  history_ok samplesInInterval intervalsInWindow h ->
  timestamp (_lastFrameReceivedTime h) -> timestamp now ->
  now < _lastFrameReceivedTime h ->
  _numSamplesInCurrentInterval h + 1 < samplesInInterval ->
  _currentIntervalMaxGap
    (frameReceived samplesInInterval intervalsInWindow now h)
  = Z.max (_currentIntervalMaxGap h)
          (2 ^ 64 - (_lastFrameReceivedTime h - now))
  /\ 2 ^ 64 - (_lastFrameReceivedTime h - now) > 0.
Proof.
  intros Hok Hprev Hnow Hback Hcount.
  unfold timestamp in Hprev, Hnow.
  assert (Hone : Forall timestamp [now])
    by (constructor; [exact Hnow|constructor]).
  pose proof (frames_within_interval [now] h Hok ltac:(lia) Hone) as Hstep.
  cbn [length] in Hstep. specialize (Hstep ltac:(lia)).
  cbn [framesReceived fold_left] in Hstep. rewrite Hstep.
  cbn [_currentIntervalMaxGap gapsAfter maxGap fold_right].
  assert (Hgap : uint64 (now - _lastFrameReceivedTime h)
                 = 2 ^ 64 - (_lastFrameReceivedTime h - now)).
  { unfold uint64. symmetry.
    apply Z.mod_unique_pos with (q := -1); lia. }
  rewrite Hgap. split; lia.
Qed.

End IntervalFacts.

Lemma history_ok_example (samples intervals last count current : Z) :
  0 <= count < samples -> 0 < intervals -> 0 <= current ->
  history_ok samples intervals
    {| _lastFrameReceivedTime := last;
       _numSamplesInCurrentInterval := count;
       _currentIntervalMaxGap := current;
       _newestIntervalMaxGapAt := 0;
       _windowMaxGap := 0;
       _newWindowMaxGapAvailable := false;
       _intervalMaxGaps := repeat 0 (Z.to_nat intervals) |}.
Proof.
  intros Hcount Hintervals Hcurrent. constructor; simpl; try lia.
  - rewrite repeat_length. lia.
  - apply Forall_forall. intros g Hg. apply repeat_spec in Hg. lia.
Qed.

Lemma interval_in_progress_witness :
  let h := {| _lastFrameReceivedTime := 1000;
              _numSamplesInCurrentInterval := 0;
              _currentIntervalMaxGap := 0;
              _newestIntervalMaxGapAt := 0;
              _windowMaxGap := 0;
              _newWindowMaxGapAvailable := false;
              _intervalMaxGaps := repeat 0 (Z.to_nat 32) |} in
  history_ok 50 32 h
  /\ Forall timestamp [1100; 1300]
  /\ framesReceived 50 32 [1100; 1300] h
     = {| _lastFrameReceivedTime := 1300;
          _numSamplesInCurrentInterval := 2;
          _currentIntervalMaxGap := 200;
          _newestIntervalMaxGapAt := 0;
          _windowMaxGap := 0;
          _newWindowMaxGapAvailable := false;
          _intervalMaxGaps := repeat 0 (Z.to_nat 32) |}.
Proof.
  intros h.
  assert (Hok : history_ok 50 32 h)
    by (apply history_ok_example; lia).
  assert (Hts : Forall timestamp [1100; 1300])
    by (repeat (constructor; [unfold timestamp; lia|]); constructor).
  split; [exact Hok|]. split; [exact Hts|].
  rewrite (interval_in_progress 50 32 ltac:(lia) ltac:(lia)
             [1100; 1300] h Hok).
  - reflexivity.
  - simpl. lia.
  - exact Hts.
  - simpl. lia.
Defined.

Lemma interval_completes_witness :
  let h := {| _lastFrameReceivedTime := 1000;
              _numSamplesInCurrentInterval := 0;
              _currentIntervalMaxGap := 0;
              _newestIntervalMaxGapAt := 0;
              _windowMaxGap := 0;
              _newWindowMaxGapAvailable := false;
              _intervalMaxGaps := repeat 0 (Z.to_nat 3) |} in
  history_ok 2 3 h
  /\ Forall timestamp [1100; 1300]
  /\ _intervalMaxGaps (framesReceived 2 3 [1100; 1300] h) = [0; 200; 0]
  /\ nth 1 (_intervalMaxGaps (framesReceived 2 3 [1100; 1300] h)) 0 = 200.
Proof.
  intros h.
  assert (Hok : history_ok 2 3 h)
    by (apply history_ok_example; lia).
  assert (Hts : Forall timestamp [1100; 1300])
    by (repeat (constructor; [unfold timestamp; lia|]); constructor).
  split; [exact Hok|]. split; [exact Hts|]. split; [reflexivity|].
  destruct (interval_completes 2 3 ltac:(lia) ltac:(lia)
              [1100; 1300] h Hok) as (_ & Hstored & _).
  - simpl. lia.
  - exact Hts.
  - simpl. lia.
  - exact Hstored.
Defined.

Lemma clock_step_back_witness :
  let h := {| _lastFrameReceivedTime := 1000;
              _numSamplesInCurrentInterval := 0;
              _currentIntervalMaxGap := 0;
              _newestIntervalMaxGapAt := 0;
              _windowMaxGap := 0;
              _newWindowMaxGapAvailable := false;
              _intervalMaxGaps := repeat 0 (Z.to_nat 32) |} in
  history_ok 50 32 h
  /\ _currentIntervalMaxGap (frameReceived 50 32 900 h) = 2 ^ 64 - 100.
Proof.
  intros h.
  assert (Hok : history_ok 50 32 h)
    by (apply history_ok_example; lia).
  split; [exact Hok|].
  destruct (clock_step_back 50 32 ltac:(lia) ltac:(lia) 900 h Hok)
    as (Hmax & _).
  - unfold timestamp. simpl. lia.
  - unfold timestamp. lia.
  - simpl. lia.
  - simpl. lia.
  - rewrite Hmax. reflexivity.
Defined.

(** * Further properties of the mixer *)

Section PlateauFacts.

(** [plateauAdditionOfSamples] on any two samples: the lower bound is
    enforced, the upper bound is not.  Up to [MAX_SAMPLE_VALUE] the
    sample stored is the sum kept over [MIN_SAMPLE_VALUE]; above it the
    sum wraps around to a negative sample.  So the sample stored is the
    clamped sum exactly when the sum is no more than
    [MAX_SAMPLE_VALUE]. *)
Theorem plateau_addition_by_cases (mixSample sampleToAdd : Z) :
  -32768 <= mixSample <= 32767 -> -32768 <= sampleToAdd <= 32767 ->
  plateauAdditionOfSamples mixSample sampleToAdd
  = (if mixSample + sampleToAdd <=? MAX_SAMPLE_VALUE
     then Z.max MIN_SAMPLE_VALUE (mixSample + sampleToAdd)
     else mixSample + sampleToAdd - 65536)
  /\ (plateauAdditionOfSamples mixSample sampleToAdd
      = clamp16 (mixSample + sampleToAdd)
      <-> mixSample + sampleToAdd <= MAX_SAMPLE_VALUE)
  /\ (MAX_SAMPLE_VALUE < mixSample + sampleToAdd ->
      plateauAdditionOfSamples mixSample sampleToAdd < 0).
Proof.
  intros Hm Ha.
  destruct (Z.leb_spec (mixSample + sampleToAdd) MAX_SAMPLE_VALUE)
    as [Hle | Hgt].
  - pose proof (plateauAddition_up_to_max _ _ Hm Ha Hle) as Hsum.
    split; [|split].
    + rewrite Hsum. unfold clamp16, MAX_SAMPLE_VALUE, MIN_SAMPLE_VALUE in *.
      lia.
    + split; [intros _; exact Hle|intros _; exact Hsum].
    + intros Hgt. lia.
  - pose proof (plateauAddition_above_max _ _ Hm Ha Hgt) as Hsum.
    split; [exact Hsum|]. split.
    + split; [|lia]. rewrite Hsum.
      unfold clamp16, MAX_SAMPLE_VALUE, MIN_SAMPLE_VALUE in *. lia.
    + intros _. rewrite Hsum. unfold MAX_SAMPLE_VALUE in *. lia.
Qed.

Lemma plateau_addition_by_cases_witness :
  plateauAdditionOfSamples 30000 5000 = -30536
  /\ plateauAdditionOfSamples (-30000) (-5000) = -32768.
Proof.
  split.
  - destruct (plateau_addition_by_cases 30000 5000) as (Hsum & _); [lia|lia|].
    rewrite Hsum. reflexivity.
  - destruct (plateau_addition_by_cases (-30000) (-5000)) as (Hsum & _);
      [lia|lia|].
    rewrite Hsum. reflexivity.
Defined.

End PlateauFacts.

Section AdvanceFacts.

(** The advance of a read cursor that is at the start of a frame: the
    start of the next frame, around the ring. *)
Lemma advancedNextOutput_frame (p : Z) :
  cursorReachable p ->
  advancedNextOutput p
  = (p + BUFFER_LENGTH_SAMPLES_PER_CHANNEL) mod RING_BUFFER_SAMPLES.
Proof.
  intros Hp. destruct (cursorReachable_frame p Hp) as (k & Hk & ->).
  unfold advancedNextOutput.
  rewrite RING_BUFFER_SAMPLES_value, BUFFER_LENGTH_SAMPLES_PER_CHANNEL_value.
  unfold RING_BUFFER_FRAMES in Hk.
  destruct (Z.geb_spec (k * 256 + 256) 2560).
  - rewrite mod_above by lia. lia.
  - rewrite mod_inside by lia. lia.
Qed.

(** The eligibility pass on a buffer that has been written to leaves
    its cursors alone, and marks it for the mix only if it holds a frame
    or more. *)
Lemma checkBuffer_cases (agentBuffer : Mixer.AudioRingBuffer) (e : Z) :
  endOfLastWrite agentBuffer = Some e ->
  nextOutput (checkBuffer agentBuffer) = nextOutput agentBuffer
  /\ endOfLastWrite (checkBuffer agentBuffer) = Some e
  /\ buffer (checkBuffer agentBuffer) = buffer agentBuffer
  /\ (shouldBeAddedToMix (checkBuffer agentBuffer) = true ->
      BUFFER_LENGTH_SAMPLES_PER_CHANNEL
      <= diffLastWriteNextOutput agentBuffer).
Proof.
  intros Hwritten. unfold checkBuffer. rewrite Hwritten.
  destruct (negb (started agentBuffer)
            && (diffLastWriteNextOutput agentBuffer
                <=? BUFFER_LENGTH_SAMPLES_PER_CHANNEL + JITTER_BUFFER_SAMPLES)).
  - repeat split; try assumption. intros Hmark. discriminate.
  - destruct (Z.ltb_spec (diffLastWriteNextOutput agentBuffer)
                         BUFFER_LENGTH_SAMPLES_PER_CHANNEL).
    + repeat split; try assumption. intros Hmark. discriminate.
    + repeat split; try assumption. intros _. assumption.
Qed.

(** What one turn of the loop does to a buffer that has been written to:
    if the eligibility pass marks it for the mix, the advance moves its
    read cursor by one frame around the ring, which takes exactly one
    frame from what the buffer holds, and never moves it past the write
    cursor; if not, the read cursor stays.  Either way the mark is
    cleared for the next turn and the read cursor is at the start of a
    frame. *)
Theorem mixed_buffer_gives_one_frame
    (agentBuffer : Mixer.AudioRingBuffer) (e : Z) :
  endOfLastWrite agentBuffer = Some e -> 0 <= e < RING_BUFFER_SAMPLES ->
  cursorReachable (nextOutput agentBuffer) ->
  let checked := checkBuffer agentBuffer in
  let advanced := advanceBuffer checked in
  (shouldBeAddedToMix checked = true ->
   nextOutput advanced
   = (nextOutput agentBuffer + BUFFER_LENGTH_SAMPLES_PER_CHANNEL)
     mod RING_BUFFER_SAMPLES
   /\ diffLastWriteNextOutput advanced
      = diffLastWriteNextOutput agentBuffer - BUFFER_LENGTH_SAMPLES_PER_CHANNEL
   /\ 0 <= diffLastWriteNextOutput advanced)
  /\ (shouldBeAddedToMix checked = false ->
      nextOutput advanced = nextOutput agentBuffer
      /\ diffLastWriteNextOutput advanced = diffLastWriteNextOutput agentBuffer)
  /\ shouldBeAddedToMix advanced = false
  /\ cursorReachable (nextOutput advanced).
Proof.
  intros Hwritten He Hcursor checked advanced.
  pose proof (advancedNextOutput_frame _ Hcursor) as Hadvance.
  destruct (cursorReachable_frame _ Hcursor) as (k & Hk & Hp).
  destruct (checkBuffer_cases agentBuffer e Hwritten)
    as (Hnext & Hend & _ & Hgood).
  fold checked in Hnext, Hend, Hgood.
  unfold RING_BUFFER_FRAMES in Hk.
  rewrite RING_BUFFER_SAMPLES_value, BUFFER_LENGTH_SAMPLES_PER_CHANNEL_value
    in *.
  unfold advanced, advanceBuffer.
  destruct (shouldBeAddedToMix checked) eqn:Hmark.
  - specialize (Hgood eq_refl).
    cbn [shouldBeAddedToMix setShouldBeAddedToMix setNextOutput nextOutput].
    rewrite Hnext, Hadvance.
    split; [intros _|split; [discriminate|split; [reflexivity|]]].
    + split; [reflexivity|].
      unfold diffLastWriteNextOutput in *.
      cbn [endOfLastWrite setShouldBeAddedToMix setNextOutput nextOutput].
      rewrite Hend, Hwritten in *.
      rewrite RING_BUFFER_SAMPLES_value in *.
      set (p := nextOutput agentBuffer) in *.
      destruct (Z.ltb_spec (p + 256) 2560);
        [rewrite mod_inside by lia|rewrite mod_above by lia];
        destruct (Z.ltb_spec (e - p) 0);
        match goal with
        | |- context [if ?x <? 0 then _ else _] => destruct (Z.ltb_spec x 0)
        end; lia.
    + rewrite <- Hadvance. now constructor.
  - split; [discriminate|]. split; [intros _|split; [exact Hmark|]].
    + split; [exact Hnext|].
      unfold diffLastWriteNextOutput. now rewrite Hnext, Hend, Hwritten.
    + now rewrite Hnext.
Qed.

Lemma mixed_buffer_gives_one_frame_witness :
  let source :=
    {| buffer := repeat 5 2560; nextOutput := 2304;
       endOfLastWrite := Some 512; started := true;
       shouldBeAddedToMix := false; shouldLoopbackForAgent := false;
       position := mkVec3 1 0 0; bearing := 0%R;
       attenuationRatio := 1%R |} in
  cursorReachable (nextOutput source)
  /\ diffLastWriteNextOutput source = 768
  /\ nextOutput (advanceBuffer (checkBuffer source)) = 0
  /\ diffLastWriteNextOutput (advanceBuffer (checkBuffer source)) = 512.
Proof.
  intros source.
  assert (Hcursor : cursorReachable (nextOutput source)).
  { change (nextOutput source)
      with (Nat.iter 9 advancedNextOutput 0).
    simpl. repeat apply reach_advance. exact reach_origin. }
  split; [exact Hcursor|]. split; [reflexivity|].
  destruct (mixed_buffer_gives_one_frame source 512 eq_refl) as (Hmixed & _).
  { rewrite RING_BUFFER_SAMPLES_value. lia. }
  { exact Hcursor. }
  destruct (Hmixed eq_refl) as (Hnext & Hdiff & _).
  split; [rewrite Hnext|rewrite Hdiff]; reflexivity.
Defined.

End AdvanceFacts.

Section MixCells.

(** [plateauAdditionOfSamples] on a cell of the client's samples changes
    that cell and no other. *)
Lemma plateauInto_cells (clientSamples : list Z) (i sampleToAdd : Z) :
  0 <= i < Z.of_nat (length clientSamples) ->
  exists out,
    plateauInto clientSamples i sampleToAdd = Some out
    /\ length out = length clientSamples
    /\ forall j : nat,
         nth j out 0
         = if Z.of_nat j =? i
           then plateauAdditionOfSamples (nth j clientSamples 0) sampleToAdd
           else nth j clientSamples 0.
Proof.
  intros Hi. unfold plateauInto.
  rewrite peek_inside by exact Hi. simpl bind.
  set (v := plateauAdditionOfSamples (nth (Z.to_nat i) clientSamples 0)
                                     sampleToAdd).
  destruct (poke_inside clientSamples i v Hi) as (out & Hpoke & Hlen).
  destruct (array_set_inside clientSamples i v Hi) as (_ & Hnth).
  unfold array_set in Hnth. rewrite Hpoke in Hnth.
  exists out. split; [exact Hpoke|]. split; [exact Hlen|].
  intros j. rewrite Hnth.
  destruct (Z.eqb_spec (Z.of_nat j) i) as [Hj | Hj]; [|reflexivity].
  unfold v. now replace (Z.to_nat i) with j by lia.
Qed.

Variable otherAgentBuffer : Mixer.AudioRingBuffer.
Variable sp : Spatial.

Hypothesis ring_length :
  Z.of_nat (length (buffer otherAgentBuffer)) = RING_BUFFER_SAMPLES.
Hypothesis cursor_reachable : cursorReachable (nextOutput otherAgentBuffer).
Hypothesis delay_range : 0 <= samplesDelay sp <= PHASE_DELAY_AT_90.

Variables goodChannel delayedChannel : Z.
Hypothesis channels :
  goodChannel = 0 /\ delayedChannel = BUFFER_LENGTH_SAMPLES_PER_CHANNEL
  \/ goodChannel = BUFFER_LENGTH_SAMPLES_PER_CHANNEL /\ delayedChannel = 0.

(** One turn of the loop, cell by cell. *)
Lemma mixOneSample_cells (s : Z) (clientSamples : list Z) :
  0 <= s < BUFFER_LENGTH_SAMPLES_PER_CHANNEL ->
  Z.of_nat (length clientSamples) = BUFFER_LENGTH_SAMPLES_PER_CHANNEL * 2 ->
  exists out,
    mixOneSample otherAgentBuffer sp goodChannel delayedChannel s clientSamples
    = Some out
    /\ length out = length clientSamples
    /\ forall j : nat,
         nth j out 0
         = afterTurns otherAgentBuffer sp goodChannel delayedChannel
                      s (s + 1) clientSamples (Z.of_nat j).
Proof.
  intros Hs Hlen.
  destruct (lookback_addresses otherAgentBuffer sp cursor_reachable delay_range)
    as (Hback & _ & Hcurrent).
  pose proof delay_range as Hd.
  pose proof ring_length as Hring.
  pose proof channels as Hchannels.
  rewrite BUFFER_LENGTH_SAMPLES_PER_CHANNEL_value in Hchannels, Hs, Hlen, Hcurrent.
  rewrite RING_BUFFER_SAMPLES_value in Hback, Hcurrent, Hring.
  unfold PHASE_DELAY_AT_90 in Hd.
  unfold mixOneSample, afterTurns. cbv zeta.
  rewrite BUFFER_LENGTH_SAMPLES_PER_CHANNEL_value.
  set (d := samplesDelay sp) in *.
  assert (Hfirst : exists c1,
    (if s <? d then
       early <- peek (buffer otherAgentBuffer)
                     (delaySamplePointer otherAgentBuffer d + s) ;;
       plateauInto clientSamples (delayedChannel + s)
         (int16 (scaled (int32 (scaled early (attenuationCoefficient sp)))
                        (weakRatio sp)))
     else Some clientSamples) = Some c1
    /\ length c1 = length clientSamples
    /\ forall j : nat,
         nth j c1 0
         = if (Z.of_nat j =? delayedChannel + s) && (s <? d)
           then plateauAdditionOfSamples
                  (nth j clientSamples 0)
                  (weakEarlierSample otherAgentBuffer sp s)
           else nth j clientSamples 0).
  { destruct (Z.ltb_spec s d) as [Hlt | Hge].
    - destruct (Hback s) as (Hin & _); [lia|].
      rewrite peek_inside by lia. simpl bind.
      destruct (plateauInto_cells clientSamples (delayedChannel + s)
                  (weakEarlierSample otherAgentBuffer sp s))
        as (c1 & H1 & Hlen1 & Hnth1); [lia|].
      exists c1. split; [exact H1|]. split; [exact Hlen1|].
      intros j. rewrite Hnth1. now rewrite andb_true_r.
    - exists clientSamples. split; [reflexivity|]. split; [reflexivity|].
      intros j. now rewrite andb_false_r. }
  destruct Hfirst as (c1 & -> & Hlen1 & Hnth1). simpl bind.
  rewrite peek_inside by (rewrite Hring; apply Hcurrent; lia).
  simpl bind.
  destruct (plateauInto_cells c1 (goodChannel + s)
              (currentSample otherAgentBuffer sp s))
    as (c2 & H2 & Hlen2 & Hnth2); [lia|].
  unfold currentSample in H2 at 1. rewrite H2. simpl bind.
  assert (Hlast : exists c3,
    (if s + d <? 256 then
       plateauInto c2 (delayedChannel + (s + d))
         (int16 (scaled
                   (int16 (scaled
                             (nth (Z.to_nat (nextOutput otherAgentBuffer + s))
                                  (buffer otherAgentBuffer) 0)
                             (attenuationCoefficient sp)))
                   (weakRatio sp)))
     else Some c2) = Some c3
    /\ length c3 = length c2
    /\ forall j : nat,
         nth j c3 0
         = if (Z.of_nat j =? delayedChannel + (s + d)) && (s + d <? 256)
           then plateauAdditionOfSamples
                  (nth j c2 0)
                  (weakCurrentSample otherAgentBuffer sp s)
           else nth j c2 0).
  { destruct (Z.ltb_spec (s + d) 256) as [Hlt | Hge].
    - destruct (plateauInto_cells c2 (delayedChannel + (s + d))
                  (weakCurrentSample otherAgentBuffer sp s))
        as (c3 & H3 & Hlen3 & Hnth3); [lia|].
      exists c3. split; [exact H3|]. split; [exact Hlen3|].
      intros j. rewrite Hnth3. now rewrite andb_true_r.
    - exists c2. split; [reflexivity|]. split; [reflexivity|].
      intros j. now rewrite andb_false_r. }
  destruct Hlast as (c3 & -> & Hlen3 & Hnth3).
  exists c3. split; [reflexivity|]. split; [congruence|].
  intros j. rewrite Hnth3, Hnth2, Hnth1, Nat2Z.id.
  repeat match goal with
  | |- context [Z.eqb ?a ?b] => destruct (Z.eqb_spec a b); try lia
  | |- context [Z.ltb ?a ?b] => destruct (Z.ltb_spec a b); try lia
  | |- context [Z.leb ?a ?b] => destruct (Z.leb_spec a b); try lia
  end; cbn [andb]; try reflexivity; (f_equal; f_equal; lia).
Qed.

(** The turns add up. *)
Lemma afterTurns_step (s t : Z) (clientSamples c1 : list Z) (j : nat) :
  0 <= s -> s + 1 <= t ->
  (forall i : nat,
     nth i c1 0
     = afterTurns otherAgentBuffer sp goodChannel delayedChannel
                  s (s + 1) clientSamples (Z.of_nat i)) ->
  afterTurns otherAgentBuffer sp goodChannel delayedChannel
             (s + 1) t c1 (Z.of_nat j)
  = afterTurns otherAgentBuffer sp goodChannel delayedChannel
               s t clientSamples (Z.of_nat j).
Proof.
  intros Hs Ht Hc1.
  pose proof delay_range as Hd. unfold PHASE_DELAY_AT_90 in Hd.
  pose proof channels as Hchannels.
  rewrite BUFFER_LENGTH_SAMPLES_PER_CHANNEL_value in Hchannels.
  unfold afterTurns at 1. cbv zeta. rewrite Nat2Z.id, Hc1.
  unfold afterTurns. cbv zeta. rewrite Nat2Z.id.
  rewrite BUFFER_LENGTH_SAMPLES_PER_CHANNEL_value.
  set (d := samplesDelay sp) in *.
  repeat match goal with
  | |- context [Z.ltb ?a ?b] => destruct (Z.ltb_spec a b); try lia
  | |- context [Z.leb ?a ?b] => destruct (Z.leb_spec a b); try lia
  end; cbn [andb]; reflexivity.
Qed.

(** The loop of lines 237-252, cell by cell. *)
Lemma mixSamples_cells (n : nat) :
  forall (s : Z) (clientSamples : list Z),
    0 <= s -> s + Z.of_nat n <= BUFFER_LENGTH_SAMPLES_PER_CHANNEL ->
    Z.of_nat (length clientSamples) = BUFFER_LENGTH_SAMPLES_PER_CHANNEL * 2 ->
    exists out,
      mixSamples otherAgentBuffer sp goodChannel delayedChannel n s
                 clientSamples = Some out
      /\ length out = length clientSamples
      /\ forall j : nat,
           nth j out 0
           = afterTurns otherAgentBuffer sp goodChannel delayedChannel
                        s (s + Z.of_nat n) clientSamples (Z.of_nat j).
Proof.
  induction n as [|n IH]; intros s clientSamples Hs Hend Hlen.
  - exists clientSamples. split; [reflexivity|]. split; [reflexivity|].
    intros j. unfold afterTurns. cbv zeta. rewrite Nat2Z.id.
    repeat match goal with
    | |- context [Z.ltb ?a ?b] => destruct (Z.ltb_spec a b); try lia
    | |- context [Z.leb ?a ?b] => destruct (Z.leb_spec a b); try lia
    end; cbn [andb]; reflexivity.
  - cbn [mixSamples].
    destruct (mixOneSample_cells s clientSamples)
      as (c1 & -> & Hlen1 & Hnth1); try assumption; try lia.
    simpl bind.
    destruct (IH (s + 1) c1) as (out & Hout & Hlenout & Hnth); try lia.
    exists out. split; [exact Hout|]. split; [congruence|].
    intros j. rewrite Hnth.
    replace (s + 1 + Z.of_nat n) with (s + Z.of_nat (S n)) by lia.
    apply afterTurns_step; try lia. exact Hnth1.
Qed.

End MixCells.

Section MixSourceFacts.

(** Lines 226-252 for one source: the channels and the cells. *)
Lemma mixSource_cells
    (otherAgentBuffer : Mixer.AudioRingBuffer) (sp : Spatial)
    (clientSamples : list Z) :
  Z.of_nat (length (buffer otherAgentBuffer)) = RING_BUFFER_SAMPLES ->
  cursorReachable (nextOutput otherAgentBuffer) ->
  0 <= samplesDelay sp <= PHASE_DELAY_AT_90 ->
  Z.of_nat (length clientSamples) = BUFFER_LENGTH_SAMPLES_PER_CHANNEL * 2 ->
  let goodChannel :=
    if Rlt_dec 0 (bearingRelativeAngleToSource sp)
    then BUFFER_LENGTH_SAMPLES_PER_CHANNEL else 0 in
  let delayedChannel :=
    if Rlt_dec 0 (bearingRelativeAngleToSource sp)
    then 0 else BUFFER_LENGTH_SAMPLES_PER_CHANNEL in
  exists out,
    mixSource otherAgentBuffer sp clientSamples = Some out
    /\ length out = length clientSamples
    /\ forall k, 0 <= k < BUFFER_LENGTH_SAMPLES_PER_CHANNEL ->
         nth (Z.to_nat (goodChannel + k)) out 0
         = plateauAdditionOfSamples
             (nth (Z.to_nat (goodChannel + k)) clientSamples 0)
             (currentSample otherAgentBuffer sp k)
         /\ nth (Z.to_nat (delayedChannel + k)) out 0
            = plateauAdditionOfSamples
                (nth (Z.to_nat (delayedChannel + k)) clientSamples 0)
                (if k <? samplesDelay sp
                 then weakEarlierSample otherAgentBuffer sp k
                 else weakCurrentSample otherAgentBuffer sp
                        (k - samplesDelay sp)).
Proof.
  intros Hring Hcursor Hdelay Hlen goodChannel delayedChannel.
  assert (Hchannels :
    goodChannel = 0 /\ delayedChannel = BUFFER_LENGTH_SAMPLES_PER_CHANNEL
    \/ goodChannel = BUFFER_LENGTH_SAMPLES_PER_CHANNEL /\ delayedChannel = 0).
  { unfold goodChannel, delayedChannel.
    destruct (Rlt_dec 0 (bearingRelativeAngleToSource sp)); tauto. }
  destruct (mixSamples_cells otherAgentBuffer sp Hring Hcursor Hdelay
              goodChannel delayedChannel Hchannels
              (Z.to_nat BUFFER_LENGTH_SAMPLES_PER_CHANNEL) 0 clientSamples)
    as (out & Hout & Hlenout & Hnth);
    try exact Hlen; try lia;
    try (rewrite BUFFER_LENGTH_SAMPLES_PER_CHANNEL_value; lia).
  exists out. split.
  { unfold mixSource. fold goodChannel delayedChannel.
    revert Hout. unfold goodChannel, delayedChannel.
    destruct (Rlt_dec 0 (bearingRelativeAngleToSource sp)); intros Hout;
      exact Hout. }
  split; [exact Hlenout|].
  intros k Hk.
  pose proof Hdelay as Hd. unfold PHASE_DELAY_AT_90 in Hd.
  rewrite BUFFER_LENGTH_SAMPLES_PER_CHANNEL_value in Hk, Hchannels, Hnth.
  assert (Hgood : 0 <= goodChannel + k) by lia.
  assert (Hdelayed : 0 <= delayedChannel + k) by lia.
  split.
  - rewrite <- (Nat2Z.id (Z.to_nat (goodChannel + k))) at 1.
    rewrite Hnth. unfold afterTurns. cbv zeta.
    rewrite BUFFER_LENGTH_SAMPLES_PER_CHANNEL_value.
    rewrite !Z2Nat.id by lia.
    replace (goodChannel + k - goodChannel) with k by lia.
    repeat match goal with
    | |- context [Z.ltb ?a ?b] => destruct (Z.ltb_spec a b); try lia
    | |- context [Z.leb ?a ?b] => destruct (Z.leb_spec a b); try lia
    end; cbn [andb]; reflexivity.
  - rewrite <- (Nat2Z.id (Z.to_nat (delayedChannel + k))) at 1.
    rewrite Hnth. unfold afterTurns. cbv zeta.
    rewrite BUFFER_LENGTH_SAMPLES_PER_CHANNEL_value.
    rewrite !Z2Nat.id by lia.
    replace (delayedChannel + k - delayedChannel) with k by lia.
    set (d := samplesDelay sp) in *.
    repeat match goal with
    | |- context [Z.ltb ?a ?b] => destruct (Z.ltb_spec a b); try lia
    | |- context [Z.leb ?a ?b] => destruct (Z.leb_spec a b); try lia
    end; cbn [andb]; reflexivity.
Qed.

(** Lines 226-252 for one source, cell by cell.  Every sample of the two
    channels of the client's frame gets exactly one addition: sample [k]
    of the good channel the current sample [k] of the source, attenuated;
    sample [k] of the delayed channel the weaker copy of the current
    sample [k - numSamplesDelay], or of the sample read through the
    look-back pointer for [k < numSamplesDelay].  The good channel is the
    second half of the frame when the bearing is positive, the first
    half otherwise. *)
Theorem source_is_mixed_cell_by_cell
    (otherAgentBuffer : Mixer.AudioRingBuffer) (sp : Spatial)
    (clientSamples : list Z) :
  Z.of_nat (length (buffer otherAgentBuffer)) = RING_BUFFER_SAMPLES ->
  cursorReachable (nextOutput otherAgentBuffer) ->
  0 <= samplesDelay sp <= PHASE_DELAY_AT_90 ->
  Z.of_nat (length clientSamples) = BUFFER_LENGTH_SAMPLES_PER_CHANNEL * 2 ->
  let goodChannel :=
    if Rlt_dec 0 (bearingRelativeAngleToSource sp)
    then BUFFER_LENGTH_SAMPLES_PER_CHANNEL else 0 in
  let delayedChannel :=
    if Rlt_dec 0 (bearingRelativeAngleToSource sp)
    then 0 else BUFFER_LENGTH_SAMPLES_PER_CHANNEL in
  exists out,
    mixSource otherAgentBuffer sp clientSamples = Some out
    /\ length out = length clientSamples
    /\ forall k, 0 <= k < BUFFER_LENGTH_SAMPLES_PER_CHANNEL ->
         nth (Z.to_nat (goodChannel + k)) out 0
         = plateauAdditionOfSamples
             (nth (Z.to_nat (goodChannel + k)) clientSamples 0)
             (currentSample otherAgentBuffer sp k)
         /\ nth (Z.to_nat (delayedChannel + k)) out 0
            = plateauAdditionOfSamples
                (nth (Z.to_nat (delayedChannel + k)) clientSamples 0)
                (if k <? samplesDelay sp
                 then weakEarlierSample otherAgentBuffer sp k
                 else weakCurrentSample otherAgentBuffer sp
                        (k - samplesDelay sp)).
Proof. exact (mixSource_cells otherAgentBuffer sp clientSamples). Qed.

Lemma source_is_mixed_cell_by_cell_witness :
  let source :=
    {| buffer := repeat 5 2560; nextOutput := 256;
       endOfLastWrite := Some 1024; started := true;
       shouldBeAddedToMix := true; shouldLoopbackForAgent := false;
       position := mkVec3 1 0 0; bearing := 0%R;
       attenuationRatio := 1%R |} in
  let sp :=
    {| bearingRelativeAngleToSource := 1%R; attenuationCoefficient := 1%R;
       samplesDelay := 20; weakRatio := (1 / 2)%R |} in
  cursorReachable (nextOutput source)
  /\ exists out,
       mixSource source sp silence = Some out
       /\ nth 256 out 0
          = plateauAdditionOfSamples 0 (currentSample source sp 0)
       /\ nth 20 out 0
          = plateauAdditionOfSamples 0 (weakCurrentSample source sp 0)
       /\ nth 19 out 0
          = plateauAdditionOfSamples 0 (weakEarlierSample source sp 19).
Proof.
  intros source sp.
  assert (Hcursor : cursorReachable (nextOutput source))
    by exact (reach_advance 0 reach_origin).
  split; [exact Hcursor|].
  destruct (source_is_mixed_cell_by_cell source sp silence eq_refl Hcursor)
    as (out & Hout & _ & Hcells).
  { unfold PHASE_DELAY_AT_90. simpl. lia. }
  { reflexivity. }
  exists out. split; [exact Hout|].
  assert (Hright : (0 < bearingRelativeAngleToSource sp)%R) by (simpl; lra).
  cbv zeta in Hcells.
  destruct (Rlt_dec 0 (bearingRelativeAngleToSource sp)) as [_ | Hno];
    [|contradiction].
  split; [|split].
  - destruct (Hcells 0) as (Hgood & _);
      [rewrite BUFFER_LENGTH_SAMPLES_PER_CHANNEL_value; lia|].
    exact Hgood.
  - destruct (Hcells 20) as (_ & Hdelayed);
      [rewrite BUFFER_LENGTH_SAMPLES_PER_CHANNEL_value; lia|].
    exact Hdelayed.
  - destruct (Hcells 19) as (_ & Hdelayed);
      [rewrite BUFFER_LENGTH_SAMPLES_PER_CHANNEL_value; lia|].
    exact Hdelayed.
Defined.

(** A sample scaled by 1 is the sample. *)
Lemma scaled_one (sample : Z) : scaled sample 1 = sample.
Proof.
  unfold scaled, truncR. rewrite Rmult_1_r.
  destruct (Rle_dec 0 (IZR sample)) as [Hpos | Hneg].
  - symmetry. apply Int_part_spec. lra.
  - rewrite <- opp_IZR.
    assert (Hpart : - sample = Int_part (IZR (- sample)))
      by (apply Int_part_spec; lra).
    lia.
Qed.

(** [plateauAdditionOfSamples] on a sample that is 0 stores the sample
    added. *)
Lemma plateauAddition_zero (sampleToAdd : Z) :
  -32768 <= sampleToAdd <= 32767 ->
  plateauAdditionOfSamples 0 sampleToAdd = sampleToAdd.
Proof.
  intros Ha. unfold plateauAdditionOfSamples, MIN_SAMPLE_VALUE.
  rewrite int16_in_range by lia. lia.
Qed.

(** Loopback.  An agent's own buffer is mixed with a coefficient of 1,
    no delay and a bearing of 0 (lines 148-151): into a frame that is
    silent so far, the loop copies the frame at the source's read
    cursor, as it is, to both channels. *)
Theorem loopback_is_unprocessed (otherAgentBuffer : Mixer.AudioRingBuffer) :
  Z.of_nat (length (buffer otherAgentBuffer)) = RING_BUFFER_SAMPLES ->
  cursorReachable (nextOutput otherAgentBuffer) ->
  Forall (fun sample => -32768 <= sample <= 32767)
         (buffer otherAgentBuffer) ->
  exists out,
    mixSource otherAgentBuffer ownSpatial silence = Some out
    /\ length out = length silence
    /\ forall k, 0 <= k < BUFFER_LENGTH_SAMPLES_PER_CHANNEL ->
         nth (Z.to_nat k) out 0
         = nth (Z.to_nat (nextOutput otherAgentBuffer + k))
               (buffer otherAgentBuffer) 0
         /\ nth (Z.to_nat (BUFFER_LENGTH_SAMPLES_PER_CHANNEL + k)) out 0
            = nth (Z.to_nat (nextOutput otherAgentBuffer + k))
                  (buffer otherAgentBuffer) 0.
Proof.
  intros Hring Hcursor Hsamples.
  destruct (mixSource_cells otherAgentBuffer ownSpatial silence Hring Hcursor)
    as (out & Hout & Hlen & Hcells).
  { unfold PHASE_DELAY_AT_90. simpl. lia. }
  { reflexivity. }
  exists out. split; [exact Hout|]. split; [exact Hlen|].
  intros k Hk. specialize (Hcells k Hk).
  cbv zeta in Hcells. cbn [ownSpatial bearingRelativeAngleToSource samplesDelay]
    in Hcells.
  destruct (Rlt_dec 0 0) as [Hlt | _]; [lra|].
  destruct (lookback_addresses otherAgentBuffer ownSpatial Hcursor)
    as (_ & _ & Hcurrent).
  { unfold PHASE_DELAY_AT_90. simpl. lia. }
  specialize (Hcurrent k Hk). cbv zeta in Hcurrent.
  rewrite BUFFER_LENGTH_SAMPLES_PER_CHANNEL_value in Hk, Hcells |- *.
  assert (Hvalue :
    -32768 <= nth (Z.to_nat (nextOutput otherAgentBuffer + k))
                  (buffer otherAgentBuffer) 0 <= 32767).
  { apply (proj1 (Forall_nth _ _) Hsamples). lia. }
  assert (Hcur : currentSample otherAgentBuffer ownSpatial k
                 = nth (Z.to_nat (nextOutput otherAgentBuffer + k))
                       (buffer otherAgentBuffer) 0).
  { unfold currentSample. cbn [ownSpatial attenuationCoefficient].
    rewrite scaled_one. now apply int16_in_range. }
  assert (Hweak : weakCurrentSample otherAgentBuffer ownSpatial (k - 0)
                  = nth (Z.to_nat (nextOutput otherAgentBuffer + k))
                        (buffer otherAgentBuffer) 0).
  { unfold weakCurrentSample. cbn [ownSpatial weakRatio].
    rewrite Z.sub_0_r, scaled_one, Hcur. now apply int16_in_range. }
  replace (k <? 0) with false in Hcells by (symmetry; apply Z.ltb_ge; lia).
  rewrite Hcur, Hweak in Hcells.
  assert (Hsilent : forall i, nth i silence 0 = 0).
  { intros i. unfold silence. apply nth_repeat. }
  rewrite !Hsilent, !plateauAddition_zero in Hcells by exact Hvalue.
  exact Hcells.
Qed.

Lemma loopback_is_unprocessed_witness :
  let source :=
    {| buffer := repeat 5 2560; nextOutput := 256;
       endOfLastWrite := Some 1024; started := true;
       shouldBeAddedToMix := true; shouldLoopbackForAgent := true;
       position := mkVec3 1 0 0; bearing := 0%R;
       attenuationRatio := 1%R |} in
  cursorReachable (nextOutput source)
  /\ exists out,
       mixSource source ownSpatial silence = Some out
       /\ nth 3 out 0 = 5 /\ nth 259 out 0 = 5.
Proof.
  intros source.
  assert (Hcursor : cursorReachable (nextOutput source))
    by exact (reach_advance 0 reach_origin).
  split; [exact Hcursor|].
  destruct (loopback_is_unprocessed source eq_refl Hcursor)
    as (out & Hout & _ & Hcells).
  { apply Forall_forall. intros sample Hin. apply repeat_spec in Hin. lia. }
  exists out. split; [exact Hout|].
  destruct (Hcells 3) as (Hleft & Hright);
    [rewrite BUFFER_LENGTH_SAMPLES_PER_CHANNEL_value; lia|].
  split; [exact Hleft|exact Hright].
Defined.

End MixSourceFacts.

Section FrameFacts.

(** The eligibility pass leaves the block and the read cursor alone. *)
Lemma checkBuffer_keeps (agentBuffer : Mixer.AudioRingBuffer) :
  buffer (checkBuffer agentBuffer) = buffer agentBuffer
  /\ nextOutput (checkBuffer agentBuffer) = nextOutput agentBuffer.
Proof.
  unfold checkBuffer.
  destruct (endOfLastWrite agentBuffer); [|now split].
  destruct (_ && _); [now split|].
  destruct (_ <? _); now split.
Qed.

Lemma advanceBuffer_keeps (agentBuffer : Mixer.AudioRingBuffer) :
  cursorReachable (nextOutput agentBuffer) ->
  buffer (advanceBuffer agentBuffer) = buffer agentBuffer
  /\ cursorReachable (nextOutput (advanceBuffer agentBuffer))
  /\ shouldBeAddedToMix (advanceBuffer agentBuffer) = false.
Proof.
  intros Hcursor. unfold advanceBuffer.
  destruct (shouldBeAddedToMix agentBuffer) eqn:Hmark.
  - split; [reflexivity|]. split; [|reflexivity].
    simpl. now constructor.
  - split; [reflexivity|]. split; [exact Hcursor|exact Hmark].
Qed.

Lemma spatialise_delay (c : Coefficients) (i j : nat)
    (agentRingBuffer otherAgentBuffer : Mixer.AudioRingBuffer) :
  0 <= samplesDelay (snd (spatialise c i j agentRingBuffer otherAgentBuffer))
    <= PHASE_DELAY_AT_90.
Proof. unfold spatialise. simpl. apply numSamplesDelay_range. Qed.

Lemma mixOther_runs (agentIndex : nat) (agentRingBuffer : Mixer.AudioRingBuffer)
    (otherAgentIndex : nat) (otherAgent : Agent)
    (c : Coefficients) (clientSamples : list Z) :
  buffer_ok otherAgent ->
  Z.of_nat (length clientSamples) = BUFFER_LENGTH_SAMPLES_PER_CHANNEL * 2 ->
  exists c' out,
    mixOther agentIndex agentRingBuffer otherAgentIndex otherAgent
             (c, clientSamples) = Some (c', out)
    /\ length out = length clientSamples.
Proof.
  intros (Hring & Hcursor) Hlen. unfold mixOther.
  destruct (negb (otherAgentIndex =? agentIndex)%nat
            || (otherAgentIndex =? agentIndex)%nat
               && shouldLoopbackForAgent agentRingBuffer);
    [|exists c, clientSamples; now split].
  destruct (shouldBeAddedToMix (linkedData otherAgent));
    [|exists c, clientSamples; now split].
  destruct (negb (otherAgentIndex =? agentIndex)%nat).
  - pose proof (spatialise_delay c agentIndex otherAgentIndex agentRingBuffer
                  (linkedData otherAgent)) as Hdelay.
    destruct (spatialise c agentIndex otherAgentIndex agentRingBuffer
                (linkedData otherAgent)) as (c', sp).
    simpl in Hdelay.
    destruct (mixSource_runs (linkedData otherAgent) sp Hring Hcursor Hdelay
                clientSamples Hlen) as (out & -> & Hout).
    exists c', out. now split.
  - assert (Hdelay : 0 <= samplesDelay ownSpatial <= PHASE_DELAY_AT_90)
      by (unfold PHASE_DELAY_AT_90; simpl; lia).
    destruct (mixSource_runs (linkedData otherAgent) ownSpatial Hring Hcursor
                Hdelay clientSamples Hlen) as (out & -> & Hout).
    exists c, out. now split.
Qed.

Lemma mixOthers_runs (agentIndex : nat) (agentRingBuffer : Mixer.AudioRingBuffer)
    (others : list Agent) :
  Forall buffer_ok others ->
  forall (otherAgentIndex : nat) (c : Coefficients) (clientSamples : list Z),
    Z.of_nat (length clientSamples) = BUFFER_LENGTH_SAMPLES_PER_CHANNEL * 2 ->
    exists c' out,
      mixOthers agentIndex agentRingBuffer otherAgentIndex others
                (c, clientSamples) = Some (c', out)
      /\ length out = length clientSamples.
Proof.
  induction 1 as [|otherAgent rest Hok _ IH];
    intros otherAgentIndex c clientSamples Hlen.
  - exists c, clientSamples. now split.
  - cbn [mixOthers].
    destruct (mixOther_runs agentIndex agentRingBuffer otherAgentIndex
                otherAgent c clientSamples Hok Hlen) as (c1 & out1 & -> & Hlen1).
    simpl bind.
    destruct (IH (S otherAgentIndex) c1 out1) as (c2 & out2 & Hrest & Hlen2);
      [congruence|].
    exists c2, out2. split; [exact Hrest|congruence].
Qed.

Lemma mixListeners_runs (agents : list Agent) :
  Forall buffer_ok agents ->
  forall (listeners : list Agent) (c : Coefficients) (agentIndex : nat),
    exists packets,
      mixListeners agents c agentIndex listeners = Some packets
      /\ map fst packets = avatarIndices agentIndex listeners
      /\ Forall (fun packet =>
                   Z.of_nat (length (snd packet))
                   = BUFFER_LENGTH_SAMPLES_PER_CHANNEL * 2) packets.
Proof.
  intros Hok.
  induction listeners as [|agent rest IH]; intros c agentIndex.
  - exists []. split; [reflexivity|]. split; [reflexivity|constructor].
  - cbn [mixListeners avatarIndices].
    destruct (agentType agent).
    + unfold mixForAgent.
      destruct (mixOthers_runs agentIndex (linkedData agent) agents Hok 0 c
                  silence eq_refl) as (c' & out & -> & Hlen).
      simpl bind.
      destruct (IH c' (S agentIndex)) as (packets & -> & Hindices & Hsizes).
      simpl bind.
      exists ((agentIndex, out) :: packets).
      split; [reflexivity|]. split; [simpl; now rewrite Hindices|].
      constructor; [|exact Hsizes]. simpl. rewrite Hlen. reflexivity.
    + apply IH.
Qed.

Lemma checkAgents_keeps (agents : list Agent) :
  Forall buffer_ok agents ->
  Forall buffer_ok (checkAgents agents)
  /\ forall agentIndex,
       avatarIndices agentIndex (checkAgents agents)
       = avatarIndices agentIndex agents.
Proof.
  induction 1 as [|agent rest (Hring & Hcursor) _ (IHok & IHtypes)].
  - split; [constructor|reflexivity].
  - destruct (checkBuffer_keeps (linkedData agent)) as (Hbuffer & Hnext).
    split.
    + constructor; [|exact IHok].
      unfold buffer_ok. simpl. now rewrite Hbuffer, Hnext.
    + intros agentIndex. cbn [checkAgents map avatarIndices].
      unfold withLinkedData at 1. cbn [agentType].
      fold (checkAgents rest). now rewrite IHtypes.
Qed.

Lemma advanceAgents_keeps (agents : list Agent) :
  Forall buffer_ok agents ->
  Forall buffer_ok (advanceAgents agents)
  /\ Forall (fun agent => shouldBeAddedToMix (linkedData agent) = false)
            (advanceAgents agents).
Proof.
  induction 1 as [|agent rest (Hring & Hcursor) _ (IHok & IHmark)].
  - split; constructor.
  - destruct (advanceBuffer_keeps (linkedData agent) Hcursor)
      as (Hbuffer & Hreach & Hmark).
    split; (constructor; [|assumption]).
    + unfold buffer_ok. simpl. now rewrite Hbuffer.
    + exact Hmark.
Qed.

(** One turn of the loop on a list of agents whose buffers have their
    [RING_BUFFER_SAMPLES] samples and their read cursors at the start of
    a frame, and whose positions and bearings are numbers: the [float]
    computations are in their real reading, where every delay is between
    0 and [PHASE_DELAY_AT_90]; with a position or a bearing that is NaN
    the code's delay is undefined, and nothing is said of such a turn.
    No sample is read or written outside a block; one packet is sent to
    each avatar and none to the other agents, in the order of the list,
    each of a frame of two channels; and the agents are left with their
    buffers as they have to be for the next turn, none of them marked
    for the mix. *)
Theorem frame_runs (agents : list Agent) :
  Forall buffer_ok agents ->
  exists packets agents',
    mixFrame agents = Some (packets, agents')
    /\ map fst packets = avatarIndices 0 agents
    /\ Forall (fun packet =>
                 Z.of_nat (length (snd packet))
                 = BUFFER_LENGTH_SAMPLES_PER_CHANNEL * 2) packets
    /\ Forall buffer_ok agents'
    /\ Forall (fun agent => shouldBeAddedToMix (linkedData agent) = false)
              agents'
    /\ map agentID agents' = map agentID agents.
Proof.
  intros Hok.
  destruct (checkAgents_keeps agents Hok) as (Hchecked & Htypes).
  destruct (mixListeners_runs (checkAgents agents) Hchecked
              (checkAgents agents) noCoefficients 0)
    as (packets & Hpackets & Hindices & Hsizes).
  destruct (advanceAgents_keeps (checkAgents agents) Hchecked)
    as (Hadvanced & Hmarks).
  exists packets, (advanceAgents (checkAgents agents)).
  unfold mixFrame. rewrite Hpackets. simpl bind.
  split; [reflexivity|]. split; [now rewrite Hindices, Htypes|].
  split; [exact Hsizes|]. split; [exact Hadvanced|]. split; [exact Hmarks|].
  unfold advanceAgents, checkAgents. rewrite !map_map. reflexivity.
Qed.

End FrameFacts.

Lemma frame_runs_witness :
  let ring :=
    {| buffer := repeat 5 2560; nextOutput := 256;
       endOfLastWrite := Some 1024; started := true;
       shouldBeAddedToMix := false; shouldLoopbackForAgent := false;
       position := mkVec3 1 0 0; bearing := 0%R;
       attenuationRatio := 1%R |} in
  let agents :=
    [ {| agentType := AGENT_TYPE_AUDIO_INJECTOR; agentID := 7;
         linkedData := ring |};
      {| agentType := AGENT_TYPE_AVATAR; agentID := 8;
         linkedData := setNextOutput 0 ring |} ] in
  Forall buffer_ok agents
  /\ exists packets agents',
       mixFrame agents = Some (packets, agents')
       /\ map fst packets = [1%nat]
       /\ map agentID agents' = [7; 8].
Proof.
  intros ring agents.
  assert (Hok : Forall buffer_ok agents).
  { constructor; [|constructor; [|constructor]]; split;
      try reflexivity.
    - exact (reach_advance 0 reach_origin).
    - exact reach_origin. }
  split; [exact Hok|].
  destruct (frame_runs agents Hok)
    as (packets & agents' & Hframe & Hindices & _ & _ & _ & Hids).
  exists packets, agents'.
  split; [exact Hframe|]. split; [exact Hindices|exact Hids].
Defined.

Section SpatialFacts.

Local Open Scope R_scope.

Lemma atan2f_range (y x : R) :
  0 <= y -> 0 <= x -> 0 <= atan2f y x <= PI / 2.
Proof.
  intros Hy Hx. pose proof PI_RGT_0 as Hpi. unfold atan2f.
  destruct (Req_dec_T x 0) as [Hzero | Hnonzero].
  - destruct (Req_dec_T y 0); lra.
  - assert (Hratio : 0 <= y / x).
    { apply Rmult_le_pos; [exact Hy|].
      left. apply Rinv_0_lt_compat. lra. }
    pose proof (atan_bound (y / x)) as (_ & Hup).
    split; [|lra].
    destruct Hratio as [Hpos | <-].
    + left. rewrite <- atan_0. now apply atan_increasing.
    + rewrite atan_0. lra.
Qed.

Lemma triangleAngle_range (u : R) :
  0 <= u <= PI / 2 -> 0 <= u * (180 / PI) <= 90.
Proof.
  intros Hu. pose proof PI_RGT_0 as Hpi.
  assert (Hinv : 0 < / PI) by now apply Rinv_0_lt_compat.
  assert (Hone : PI * / PI = 1) by (apply Rinv_r; lra).
  unfold Rdiv in *. nra.
Qed.

Lemma absoluteAngleToSource_range (agentPosition otherAgentPosition : vec3) :
  -180 <= absoluteAngleToSource agentPosition otherAgentPosition <= 180.
Proof.
  unfold absoluteAngleToSource.
  pose proof (triangleAngle_range _
                (atan2f_range
                   (Rabs (vec_z agentPosition - vec_z otherAgentPosition))
                   (Rabs (vec_x agentPosition - vec_x otherAgentPosition))
                   (Rabs_pos _) (Rabs_pos _))) as Htriangle.
  cbv zeta.
  destruct (Rlt_dec _ _); destruct (Rlt_dec _ _); lra.
Qed.

Lemma wrapDegrees_range (a : R) :
  -540 <= a <= 540 ->
  -180 <= wrapDegrees a <= 180
  /\ (wrapDegrees a = a \/ wrapDegrees a = a - 360 \/ wrapDegrees a = a + 360).
Proof.
  intros Ha. unfold wrapDegrees.
  destruct (Rlt_dec 180 a); [|destruct (Rlt_dec a (-180))]; lra.
Qed.

(** The angles of lines 176-210 in their real reading, for positions and
    bearings that are numbers (with a coordinate that is NaN the code's
    angles are NaN, and nothing is said of them).  The angle to the
    source is within half a turn, whatever the two positions; with the
    bearing of the listener within a turn, so is the angle relative to
    it, which is the difference itself or a whole turn from it. *)
Theorem angles_within_half_turn
    (agentPosition otherAgentPosition : vec3) (agentBearing : R) :
  -360 <= agentBearing <= 360 ->
  let absolute := absoluteAngleToSource agentPosition otherAgentPosition in
  let relative := wrapDegrees (absolute - agentBearing) in
  -180 <= absolute <= 180
  /\ -180 <= relative <= 180
  /\ (relative = absolute - agentBearing
      \/ relative = absolute - agentBearing - 360
      \/ relative = absolute - agentBearing + 360).
Proof.
  intros Hbearing absolute relative.
  pose proof (absoluteAngleToSource_range agentPosition otherAgentPosition)
    as Habsolute.
  fold absolute in Habsolute.
  split; [exact Habsolute|].
  apply wrapDegrees_range. lra.
Qed.

Lemma angles_within_half_turn_witness :
  -360 <= 270 <= 360
  /\ -180 <= wrapDegrees
               (absoluteAngleToSource (mkVec3 0 0 0) (mkVec3 1 0 1) - 270)
          <= 180.
Proof.
  assert (Hbearing : -360 <= 270 <= 360) by lra.
  split; [exact Hbearing|].
  exact (proj1 (proj2 (angles_within_half_turn (mkVec3 0 0 0) (mkVec3 1 0 1)
                         270 Hbearing))).
Defined.





(** A sample scaled by a ratio between 0 and 1 is no further from 0 than
    the sample, and on the same side. *)
Lemma scaled_range (sample : Z) (ratio : R) :
  0 <= ratio <= 1 ->
  (Z.min 0 sample <= scaled sample ratio <= Z.max 0 sample)%Z.
Proof.
  intros Hratio. unfold scaled, truncR.
  destruct (Rle_dec 0 (IZR sample * ratio)) as [Hpos | Hneg].
  - destruct (base_Int_part (IZR sample * ratio)) as (Hle & Hgt).
    assert (Hsample : 0 <= IZR sample \/ ratio = 0).
    { destruct (Rle_dec 0 (IZR sample)) as [|Hs]; [now left|right]. nra. }
    assert (Hbound : IZR sample * ratio <= IZR (Z.max 0 sample)).
    { destruct Hsample as [Hs | ->].
      - pose proof (le_IZR _ _ Hs) as HsZ. rewrite Z.max_r by lia. nra.
      - rewrite Rmult_0_r. apply IZR_le. lia. }
    split.
    + assert (0 <= Int_part (IZR sample * ratio))%Z; [|lia].
      apply le_IZR. apply Rnot_lt_le. intros Hlt.
      assert (IZR (Int_part (IZR sample * ratio)) <= -1).
      { apply lt_IZR in Hlt. apply IZR_le. lia. }
      lra.
    + apply le_IZR. lra.
  - assert (Hs : IZR sample < 0) by nra.
    destruct (base_Int_part (- (IZR sample * ratio))) as (Hle & Hgt).
    apply lt_IZR in Hs.
    assert (Hbound : - (IZR sample * ratio) <= IZR (- sample)).
    { rewrite opp_IZR. assert (IZR sample < 0) by (apply IZR_lt; lia). nra. }
    assert (Hlow : (0 <= Int_part (- (IZR sample * ratio)))%Z).
    { apply le_IZR. apply Rnot_lt_le. intros Hlt.
      assert (IZR (Int_part (- (IZR sample * ratio))) <= -1).
      { apply lt_IZR in Hlt. apply IZR_le. lia. }
      lra. }
    assert (Hhigh : (Int_part (- (IZR sample * ratio)) <= - sample)%Z).
    { apply le_IZR. lra. }
    lia.
Qed.

Lemma nth_in_range (l : list Z) (i : nat) :
  Forall (fun sample => -32768 <= sample <= 32767)%Z l ->
  (-32768 <= nth i l 0%Z <= 32767)%Z.
Proof.
  intros Hl. destruct (nth_in_or_default i l 0%Z) as [Hin | ->]; [|lia].
  exact (proj1 (Forall_forall _ _) Hl _ Hin).
Qed.

(** The conversions of the sample loop (lines 241-250) lose nothing but
    the fraction when the attenuation and the ratio of the weak channel
    are between 0 and 1, as the ratio [spatialise] computes is: each
    scaled sample is no further from 0 than the sample of the source it
    comes from, so that it fits the [int] or [int16_t] it is stored
    in. *)
Theorem scaled_samples_fit
    (otherAgentBuffer : Mixer.AudioRingBuffer) (sp : Spatial) (s : Z) :
  Forall (fun sample => -32768 <= sample <= 32767)%Z
         (buffer otherAgentBuffer) ->
  0 <= attenuationCoefficient sp <= 1 ->
  0 <= weakRatio sp <= 1 ->
  let current :=
    nth (Z.to_nat (nextOutput otherAgentBuffer + s))
        (buffer otherAgentBuffer) 0%Z in
  let early :=
    nth (Z.to_nat (delaySamplePointer otherAgentBuffer (samplesDelay sp) + s))
        (buffer otherAgentBuffer) 0%Z in
  currentSample otherAgentBuffer sp s
  = scaled current (attenuationCoefficient sp)
  /\ weakCurrentSample otherAgentBuffer sp s
     = scaled (scaled current (attenuationCoefficient sp)) (weakRatio sp)
  /\ weakEarlierSample otherAgentBuffer sp s
     = scaled (scaled early (attenuationCoefficient sp)) (weakRatio sp)
  /\ (Z.abs (weakCurrentSample otherAgentBuffer sp s)
      <= Z.abs (currentSample otherAgentBuffer sp s) <= Z.abs current)%Z
  /\ (Z.abs (weakEarlierSample otherAgentBuffer sp s) <= Z.abs early)%Z
  /\ (forall c i j agentRingBuffer,
        1 / 2 <= weakRatio (snd (spatialise c i j agentRingBuffer
                                            otherAgentBuffer)) <= 1).
Proof.
  intros Hsamples Hatt Hweak current early.
  pose proof (nth_in_range _ (Z.to_nat (nextOutput otherAgentBuffer + s))
                Hsamples) as Hcurrent.
  pose proof (nth_in_range _
                (Z.to_nat (delaySamplePointer otherAgentBuffer
                             (samplesDelay sp) + s)) Hsamples) as Hearly.
  fold current in Hcurrent. fold early in Hearly.
  pose proof (scaled_range current _ Hatt) as H1.
  pose proof (scaled_range (scaled current (attenuationCoefficient sp)) _ Hweak)
    as H2.
  pose proof (scaled_range early _ Hatt) as H3.
  pose proof (scaled_range (scaled early (attenuationCoefficient sp)) _ Hweak)
    as H4.
  assert (Hcur : currentSample otherAgentBuffer sp s
                 = scaled current (attenuationCoefficient sp)).
  { unfold currentSample. fold current. apply int16_in_range. lia. }
  assert (Hwc : weakCurrentSample otherAgentBuffer sp s
                = scaled (scaled current (attenuationCoefficient sp))
                         (weakRatio sp)).
  { unfold weakCurrentSample. rewrite Hcur. apply int16_in_range. lia. }
  assert (Hwe : weakEarlierSample otherAgentBuffer sp s
                = scaled (scaled early (attenuationCoefficient sp))
                         (weakRatio sp)).
  { unfold weakEarlierSample. cbv zeta. fold early.
    rewrite int32_in_range by lia. apply int16_in_range. lia. }
  split; [exact Hcur|]. split; [exact Hwc|]. split; [exact Hwe|].
  rewrite Hwc, Hcur, Hwe.
  split; [lia|]. split; [lia|].
  intros c i j agentRingBuffer. unfold spatialise. cbn [snd weakRatio].
  unfold weakChannelAmplitudeRatio, PHASE_AMPLITUDE_RATIO_AT_90.
  pose proof (sinRatio_range
                (wrapDegrees
                   (absoluteAngleToSource (position agentRingBuffer)
                                          (position otherAgentBuffer)
                    - bearing agentRingBuffer))) as Hsin.
  lra.
Qed.

Lemma scaled_samples_fit_witness :
  let source :=
    {| buffer := repeat 5%Z 2560; nextOutput := 256%Z;
       endOfLastWrite := Some 1024%Z; started := true;
       shouldBeAddedToMix := true; shouldLoopbackForAgent := false;
       position := mkVec3 1 0 0; bearing := 0;
       attenuationRatio := 1 |} in
  let sp :=
    {| bearingRelativeAngleToSource := 1; attenuationCoefficient := 1 / 3;
       samplesDelay := 20; weakRatio := 1 / 2 |} in
  (Z.abs (currentSample source sp 0) <= 5)%Z.
Proof.
  intros source sp.
  destruct (scaled_samples_fit source sp 0) as (_ & _ & _ & (_ & Hfit) & _).
  { apply Forall_forall. intros sample Hin. apply repeat_spec in Hin. lia. }
  { simpl. lra. }
  { simpl. lra. }
  exact Hfit.
Defined.



End SpatialFacts.

(** * A buffer from its construction on *)

Section FreshRingFacts.

Lemma ring_ok_new (ringFrames numFrameSamples : Z) (randomAccessMode : bool)
    (junk : list Z) :
  0 < numFrameSamples * ringFrames < 2 ^ 31 ->
  ring_ok (AudioRingBuffer_new ringFrames numFrameSamples randomAccessMode junk).
Proof.
  intros Hcap.
  assert (Hframe : numFrameSamples <> 0) by nia.
  constructor; simpl; try lia.
  replace (numFrameSamples =? 0) with false
    by (symmetry; apply Z.eqb_neq; exact Hframe).
  simpl. eexists. split; [reflexivity|].
  destruct randomAccessMode.
  - rewrite repeat_length. lia.
  - apply new_int16_length. lia.
Qed.

(** A buffer as the constructor leaves it is starved and empty: after a
    first write of fewer samples than its capacity it holds these
    samples, and [isNotStarvedOrHasMinimumSamples] lets it through
    exactly when they are as many as required. *)
Theorem fresh_ring_waits_for_minimum
    (ringFrames numFrameSamples : Z) (randomAccessMode : bool)
    (junk samples : list Z) (numRequiredSamples : Z) :
  0 < numFrameSamples * ringFrames < 2 ^ 31 ->
  Z.of_nat (length samples) < numFrameSamples * ringFrames ->
  let b := AudioRingBuffer_new ringFrames numFrameSamples randomAccessMode
                               junk in
  samplesAvailable b = 0
  /\ exists b',
       writeSamples samples (Z.of_nat (length samples)) b
       = Some (Z.of_nat (length samples) * SIZEOF_INT16, b')
       /\ unread b' = samples
       /\ (isNotStarvedOrHasMinimumSamples b' numRequiredSamples = true
           <-> numRequiredSamples <= Z.of_nat (length samples)).
Proof.
  intros Hcap Hlen b.
  pose proof (ring_ok_new ringFrames numFrameSamples randomAccessMode junk Hcap)
    as Hok.
  fold b in Hok.
  assert (Hnone : samplesAvailable b = 0).
  { destruct (samplesAvailable_modulo b Hok) as (-> & _). reflexivity. }
  split; [exact Hnone|].
  destruct (writeSamples_queue b samples Hok)
    as (b' & Hwrite & _ & Hunread & Havail & _ & Hstarved & _).
  { rewrite Hnone. simpl. lia. }
  exists b'. split; [exact Hwrite|].
  split; [now rewrite Hunread, (unread_empty b Hnone)|].
  unfold isNotStarvedOrHasMinimumSamples.
  rewrite Hstarved, Havail, Hnone. cbn [b AudioRingBuffer_new _isStarved negb].
  rewrite Z.geb_le. lia.
Qed.

Lemma fresh_ring_waits_for_minimum_witness :
  exists b',
    writeSamples [21; 22; 23] 3 (AudioRingBuffer_new 10 2 false [])
    = Some (3 * SIZEOF_INT16, b')
    /\ isNotStarvedOrHasMinimumSamples b' 3 = true.
Proof.
  destruct (fresh_ring_waits_for_minimum 10 2 false [] [21; 22; 23] 3)
    as (_ & b' & Hwrite & _ & Hgate).
  { lia. }
  { simpl. lia. }
  exists b'. split; [exact Hwrite|].
  apply Hgate. simpl. lia.
Defined.

End FreshRingFacts.
